(** * AB Jail: the inbound-email webhook, [web/src/app/api/inbound-email/route.ts]

    A shallow embedding of the handler [POST] and of the helpers it calls
    ([stripHtml], [detectForwardedEmail], [extractOriginalSender],
    [extractOriginalFromLine], [validateAndCleanFromLine],
    [parseEmailAddress], [extractOriginalDateFromBody],
    [parseEmailDateString], [isValidEmailDate], [extractOriginalEmailDate]),
    followed by the properties of the forwarding-recovery pipeline: the
    recovered From line, the redaction of the honeytrap identifiers, the
    sanity window of the recovered date, and the calls that follow the
    ingestion.

    Strings.  A JavaScript string is modelled as the list of its code units,
    restricted to the code units U+0000..U+00FF (type [ascii], 8 bits).  On
    that range white space, line terminators and lower-casing are the ones
    of ECMAScript; text using code units above U+00FF is outside the model.

    Regular expressions.  The source is written with regular-expression
    literals; they are embedded as terms of the type [re] and run by a
    backtracking matcher that follows the continuation semantics of the
    ECMAScript specification (greedy quantifiers, leftmost alternative
    first, captures, [^] and [$] with the [m] flag, canonical forms with
    the [i] flag).

    Effects.  The handler is a computation in a small monad that records
    the calls to the collaborators, and which of them it has not waited
    for, and stops at the first response; what the collaborators and the
    runtime answer is given by a [World].  Logging is left out.

    The last part adds properties of the handler in every run and of what
    the helpers return, with [truncateAtWordBoundary] of the reports
    table. *)

From Stdlib Require Import Ascii String DecimalString.
From Stdlib Require Import List ZArith NArith Lia Bool Arith.
Import ListNotations.


(* ------------------------------------------------------------------ *)
(** ** JavaScript strings *)

Module JS.

Definition jsstring := list ascii.

(** String literals of the source. *)
Definition js (s : string) : jsstring := list_ascii_of_string s.
Arguments js s%_string.

Definition code (c : ascii) : N := N_of_ascii c.

Definition in_range (lo hi : N) (c : ascii) : bool :=
  (N.leb lo (code c) && N.leb (code c) hi)%bool.

(** ECMAScript WhiteSpace and LineTerminator below U+0100: TAB, LF, VT, FF,
    CR, SP and NBSP.  This is what [\s] and [String.prototype.trim] use. *)
Definition isLineTerminator (c : ascii) : bool :=
  (N.eqb (code c) 10 || N.eqb (code c) 13)%bool.

Definition isWhiteSpace (c : ascii) : bool :=
  (in_range 9 13 c || N.eqb (code c) 32 || N.eqb (code c) 160)%bool.

Definition isDigit (c : ascii) : bool := in_range 48 57 c.

(** Case mapping below U+0100: A-Z and the Latin-1 letters U+00C0..U+00DE
    (without the multiplication sign U+00D7) and their lower-case forms.
    [toUpperChar] is also the canonical form that a case-insensitive
    regular expression compares; the sharp s, the micro sign and y with
    diaeresis, whose upper-case forms are longer or lie above U+00FF, are
    their own. *)
Definition toLowerChar (c : ascii) : ascii :=
  if (in_range 65 90 c || (in_range 192 222 c && negb (N.eqb (code c) 215)))%bool
  then ascii_of_N (code c + 32) else c.

Definition toUpperChar (c : ascii) : ascii :=
  if (in_range 97 122 c || (in_range 224 254 c && negb (N.eqb (code c) 247)))%bool
  then ascii_of_N (code c - 32) else c.

Definition toLowerCase (s : jsstring) : jsstring := map toLowerChar s.
Definition toUpperCase (s : jsstring) : jsstring := map toUpperChar s.

Definition eqb_str (a b : jsstring) : bool :=
  if list_eq_dec ascii_dec a b then true else false.

(** [s.startsWith(p)] *)
Fixpoint startsWith (s p : jsstring) : bool :=
  match p, s with
  | [], _ => true
  | _ :: _, [] => false
  | y :: p', x :: s' => (Ascii.eqb x y && startsWith s' p')%bool
  end.

(** [s.includes(p)] *)
Fixpoint includes (s p : jsstring) : bool :=
  (startsWith s p ||
   match s with
   | [] => false
   | _ :: s' => includes s' p
   end)%bool.

Fixpoint trimStart (s : jsstring) : jsstring :=
  match s with
  | c :: s' => if isWhiteSpace c then trimStart s' else s
  | [] => []
  end.

Definition trimEnd (s : jsstring) : jsstring := rev (trimStart (rev s)).

(** [s.trim()] *)
Definition trim (s : jsstring) : jsstring := trimEnd (trimStart s).

(** [s.split(sep)] for a separator of one code unit ([","] and ["\n"] in
    the source).  The result is never empty. *)
Fixpoint split_char (sep : ascii) (s : jsstring) : list jsstring :=
  match s with
  | [] => [[]]
  | c :: s' =>
      if Ascii.eqb c sep then [] :: split_char sep s'
      else match split_char sep s' with
           | piece :: more => (c :: piece) :: more
           | [] => [[c]]
           end
  end.

(** Truthiness of a string, and of a value of type [string | null]. *)
Definition truthy (s : jsstring) : bool :=
  match s with [] => false | _ :: _ => true end.

Definition truthy_opt (o : option jsstring) : bool :=
  match o with Some s => truthy s | None => false end.

(** [a || b] on values of type [string | null | undefined]. *)
Definition or_else (a b : option jsstring) : option jsstring :=
  if truthy_opt a then a else b.

(** [a || b] when [b] is a string: the result is a string. *)
Definition or_str (a : option jsstring) (b : jsstring) : jsstring :=
  match a with
  | Some (c :: s) => c :: s
  | _ => b
  end.

(** [n.toString()] for a non-negative integer. *)
Definition Number_toString (n : nat) : jsstring :=
  js (NilZero.string_of_uint (Nat.to_uint n)).

(** [s.padStart(n, "0")] *)
Definition padStart0 (n : nat) (s : jsstring) : jsstring :=
  repeat "0"%char (n - length s) ++ s.

(** [parseInt(s, 10)] on a string of decimal digits. *)
Definition parseInt_digits (s : jsstring) : nat :=
  fold_left (fun acc c => 10 * acc + N.to_nat (code c - 48)) s 0.

End JS.
Import JS.

(* ------------------------------------------------------------------ *)
(** ** Regular expressions *)

Module Regex.

Inductive class_item : Type :=
| CChar (c : ascii)            (* a single character *)
| CRange (lo hi : ascii)       (* lo-hi *)
| CSpace                       (* \s *)
| CDigit.                      (* \d *)

Inductive re : Type :=
| Empty
| Chr (c : ascii)
| Any                              (* .      *)
| OneOf (items : list class_item)  (* [...]  *)
| NoneOf (items : list class_item) (* [^...] *)
| Bol                              (* ^      *)
| Eol                              (* $      *)
| Seq (r1 r2 : re)
| Alt (r1 r2 : re)                 (* r1|r2  *)
| Rep (lo : nat) (hi : option nat) (r : re)   (* greedy r{lo,hi} *)
| Grp (n : nat) (r : re).          (* n-th capturing group *)

Record flags : Type := { ignoreCase : bool; multiline : bool }.

Definition no_flags := {| ignoreCase := false; multiline := false |}.
Definition flag_i := {| ignoreCase := true; multiline := false |}.
Definition flag_im := {| ignoreCase := true; multiline := true |}.

(** Builders that keep the embedded terms close to the literals. *)
Definition Star (r : re) : re := Rep 0 None r.
Definition Plus (r : re) : re := Rep 1 None r.
Definition Opt (r : re) : re := Rep 0 (Some 1) r.
Definition AtLeast (n : nat) (r : re) : re := Rep n None r.
Definition Between (lo hi : nat) (r : re) : re := Rep lo (Some hi) r.
Definition Exactly (n : nat) (r : re) : re := Rep n (Some n) r.
Definition cat (rs : list re) : re := fold_right Seq Empty rs.
Definition lit_chars (s : jsstring) : re := fold_right (fun c r => Seq (Chr c) r) Empty s.
Definition lit (s : string) : re := lit_chars (js s).
Arguments lit s%_string.
Definition ws : re := OneOf [CSpace].                     (* \s *)
Definition digit : re := OneOf [CDigit].                  (* \d *)

(** The state of a match: the character before the current position (none
    at index 0), the input from the current position on, and the captures
    made so far. *)
Record mstate : Type :=
  { prev : option ascii; rest : jsstring; caps : list (nat * jsstring) }.

Definition start_state (p : option ascii) (s : jsstring) : mstate :=
  {| prev := p; rest := s; caps := [] |}.

(** Canonicalize of the specification, without the [u] flag. *)
Definition canon (f : flags) (c : ascii) : ascii :=
  if ignoreCase f then toUpperChar c else c.

Definition chr_match (f : flags) (c x : ascii) : bool :=
  Ascii.eqb (canon f c) (canon f x).

Definition item_has (x : ascii) (it : class_item) : bool :=
  match it with
  | CChar c => Ascii.eqb c x
  | CRange lo hi => in_range (code lo) (code hi) x
  | CSpace => isWhiteSpace x
  | CDigit => isDigit x
  end.

(** A class contains [x] when one of its members has the canonical form of
    [x]; below U+0100 the candidates are [x] and its two case variants. *)
Definition class_has (f : flags) (items : list class_item) (x : ascii) : bool :=
  (existsb (item_has x) items ||
   (ignoreCase f &&
    (existsb (item_has (toUpperChar x)) items ||
     existsb (item_has (toLowerChar x)) items)))%bool.

Fixpoint groups_of (r : re) : list nat :=
  match r with
  | Seq r1 r2 | Alt r1 r2 => groups_of r1 ++ groups_of r2
  | Rep _ _ r' => groups_of r'
  | Grp n r' => n :: groups_of r'
  | _ => []
  end.

Definition clear_caps (gs : list nat) (cs : list (nat * jsstring)) :=
  filter (fun p => negb (existsb (Nat.eqb (fst p)) gs)) cs.

Definition set_cap (n : nat) (v : jsstring) (cs : list (nat * jsstring)) :=
  (n, v) :: clear_caps [n] cs.

Definition consumed (s s' : mstate) : jsstring :=
  firstn (length (rest s) - length (rest s')) (rest s).

Definition step_char (s : mstate) (ok : ascii -> bool)
    (k : mstate -> option mstate) : option mstate :=
  match rest s with
  | x :: tl =>
      if ok x then k {| prev := Some x; rest := tl; caps := caps s |}
      else None
  | [] => None
  end.

Definition at_bol (f : flags) (s : mstate) : bool :=
  match prev s with
  | None => true
  | Some c => (multiline f && isLineTerminator c)%bool
  end.

Definition at_eol (f : flags) (s : mstate) : bool :=
  match rest s with
  | [] => true
  | c :: _ => (multiline f && isLineTerminator c)%bool
  end.

(** The loop of a quantifier [r{lo,hi}] (RepeatMatcher of the
    specification): [body] matches [r] once, [gs] are the groups of [r],
    whose captures each iteration resets, and [k] is what follows.  One
    more iteration is tried before the quantifier gives up (greedy); an
    iteration that is not required and consumes nothing is rejected.  The
    iterations are therefore bounded by the remaining input plus the lower
    bound, and that is the [fuel] the matcher gives the loop. *)
Fixpoint rep_loop (body : (mstate -> option mstate) -> mstate -> option mstate)
    (gs : list nat) (k : mstate -> option mstate)
    (fuel lo : nat) (hi : option nat) (s : mstate) {struct fuel}
  : option mstate :=
  match fuel with
  | 0 => None
  | S fuel' =>
      match hi with
      | Some 0 => k s
      | _ =>
          let s0 := {| prev := prev s; rest := rest s;
                       caps := clear_caps gs (caps s) |} in
          let again :=
            body (fun s' =>
                    if ((lo =? 0) && (length (rest s') =? length (rest s)))%bool
                    then None
                    else rep_loop body gs k fuel' (pred lo) (option_map pred hi) s')
                 s0 in
          if lo =? 0 then
            match again with
            | Some s' => Some s'
            | None => k s
            end
          else again
      end
  end.

Definition rep_fuel (lo : nat) (s : mstate) : nat := S (length (rest s) + lo).

(** The matcher, in continuation-passing style: [mt f r k s] matches [r] at
    [s] and hands every way of doing so, in priority order, to [k] until
    [k] succeeds. *)
Fixpoint mt (f : flags) (r : re) (k : mstate -> option mstate) (s : mstate)
    {struct r} : option mstate :=
  match r with
  | Empty => k s
  | Chr c => step_char s (chr_match f c) k
  | Any => step_char s (fun x => negb (isLineTerminator x)) k
  | OneOf items => step_char s (class_has f items) k
  | NoneOf items => step_char s (fun x => negb (class_has f items x)) k
  | Bol => if at_bol f s then k s else None
  | Eol => if at_eol f s then k s else None
  | Seq r1 r2 => mt f r1 (mt f r2 k) s
  | Alt r1 r2 =>
      match mt f r1 k s with
      | Some s' => Some s'
      | None => mt f r2 k s
      end
  | Grp n r' =>
      mt f r' (fun s' =>
        k {| prev := prev s'; rest := rest s';
             caps := set_cap n (consumed s s') (caps s') |}) s
  | Rep lo hi r' =>
      rep_loop (mt f r') (groups_of r') k (rep_fuel lo s) lo hi s
  end.

(** The result of [RegExp.prototype.exec]: what lies before the match, the
    matched text, the captures, and what lies after the match. *)
Record match_result : Type :=
  { before : jsstring; matched : jsstring;
    groups : list (nat * jsstring); after : jsstring }.

Definition match_at (f : flags) (r : re) (p : option ascii) (s : jsstring)
  : option mstate := mt f r Some (start_state p s).

(** Leftmost match: positions are tried from left to right. *)
Fixpoint search (f : flags) (r : re) (p : option ascii) (pre s : jsstring)
  : option match_result :=
  match match_at f r p s with
  | Some s' =>
      Some {| before := rev pre;
              matched := firstn (length s - length (rest s')) s;
              groups := caps s'; after := rest s' |}
  | None =>
      match s with
      | [] => None
      | c :: tl => search f r (Some c) (c :: pre) tl
      end
  end.

(** [s.match(r)] for a regular expression without the [g] flag. *)
Definition exec (f : flags) (r : re) (s : jsstring) : option match_result :=
  search f r None [] s.

(** [r.test(s)] *)
Definition test (f : flags) (r : re) (s : jsstring) : bool :=
  match exec f r s with Some _ => true | None => false end.

(** [m[n]]: [None] is [undefined] (the group did not take part). *)
Definition capture (n : nat) (m : match_result) : option jsstring :=
  match find (fun p => Nat.eqb (fst p) n) (groups m) with
  | Some p => Some (snd p)
  | None => None
  end.

(** [s.replace(r, repl)] without the [g] flag; [repl] has no [$]. *)
Definition replace (f : flags) (r : re) (repl s : jsstring) : jsstring :=
  match exec f r s with
  | Some m => before m ++ repl ++ after m
  | None => s
  end.

(** [s.replace(r, repl)] with the [g] flag.  [skip] counts the characters
    of the last match that are still to be passed over; after an empty
    match the search resumes one character further, and that character is
    kept. *)
Fixpoint replace_from (f : flags) (r : re) (repl : jsstring) (skip : nat)
    (p : option ascii) (s : jsstring) : jsstring :=
  match skip with
  | S n =>
      match s with
      | [] => []
      | c :: tl => replace_from f r repl n (Some c) tl
      end
  | 0 =>
      match match_at f r p s with
      | Some s' =>
          match s with
          | [] => repl
          | c :: tl =>
              match length s - length (rest s') with
              | 0 => repl ++ c :: replace_from f r repl 0 (Some c) tl
              | S n => repl ++ replace_from f r repl n (Some c) tl
              end
          end
      | None =>
          match s with
          | [] => []
          | c :: tl => c :: replace_from f r repl 0 (Some c) tl
          end
      end
  end.

Definition replaceAll (f : flags) (r : re) (repl s : jsstring) : jsstring :=
  replace_from f r repl 0 None s.

(** [s.split(r)]: [cur] is the piece being collected, reversed.  A match
    that ends where the current piece starts does not split. *)
Fixpoint split_from (f : flags) (r : re) (skip : nat) (p : option ascii)
    (cur s : jsstring) : list jsstring :=
  match skip with
  | S n =>
      match s with
      | [] => [rev cur]
      | c :: tl => split_from f r n (Some c) cur tl
      end
  | 0 =>
      match s with
      | [] => [rev cur]
      | c :: tl =>
          match match_at f r p s with
          | Some s' =>
              match length s - length (rest s'), cur with
              | 0, [] => split_from f r 0 (Some c) [c] tl
              | 0, _ :: _ => rev cur :: split_from f r 0 (Some c) [c] tl
              | S n, _ => rev cur :: split_from f r n (Some c) [] tl
              end
          | None => split_from f r 0 (Some c) (c :: cur) tl
          end
      end
  end.

Definition split (f : flags) (r : re) (s : jsstring) : list jsstring :=
  split_from f r 0 None [] s.

End Regex.
Import Regex.

(* ------------------------------------------------------------------ *)
(** ** route.ts: the helpers *)

Module Route.

Definition LF : ascii := ascii_of_N 10.
Definition CR : ascii := ascii_of_N 13.
Definition DQUOTE : ascii := ascii_of_N 34.

Definition dash : re := Chr "-"%char.
Definition newline : re := cat [Opt (Chr CR); Chr LF].            (* \r?\n *)
Definition quote_or_space : list class_item := [CSpace; CChar ">"%char].

(** [<[^>]+>] *)
Definition re_tag : re :=
  cat [Chr "<"%char; Plus (NoneOf [CChar ">"%char]); Chr ">"%char].

(** [function stripHtml(html)]:
    [html.replace(/<[^>]+>/g, " ").replace(/\s+/g, " ").trim()] *)
Definition stripHtml (html : jsstring) : jsstring :=
  trim (replaceAll no_flags (Plus ws) (js " ")
         (replaceAll no_flags re_tag (js " ") html)).

(** [/forwarded message|begin forwarded message/i] *)
Definition re_forward_words : re :=
  Alt (lit "forwarded message") (lit "begin forwarded message").

(** [function detectForwardedEmail(subject, bodyText, bodyHtml)] *)
Definition detectForwardedEmail (subject bodyText bodyHtml : jsstring) : bool :=
  let subj := toLowerCase subject in
  if (startsWith subj (js "fwd:") || includes subj (js "fw:"))%bool then true
  else
    let textHasForward := test flag_i re_forward_words bodyText in
    let htmlHasForward := test flag_i re_forward_words bodyHtml in
    (textHasForward || htmlHasForward)%bool.

(** [[a-zA-Z0-9._%+-]+@[a-zA-Z0-9.-]+\.[a-zA-Z]{2,}] *)
Definition re_address : re :=
  cat [Plus (OneOf [CRange "a" "z"; CRange "A" "Z"; CRange "0" "9";
                    CChar "."; CChar "_"; CChar "%"; CChar "+"; CChar "-"]%char);
       Chr "@"%char;
       Plus (OneOf [CRange "a" "z"; CRange "A" "Z"; CRange "0" "9";
                    CChar "."; CChar "-"]%char);
       Chr "."%char;
       AtLeast 2 (OneOf [CRange "a" "z"; CRange "A" "Z"]%char)].

(** The [From:] line of [extractOriginalSender], with the [i] flag:
    [^From:], white space, optionally a display name between double quotes
    followed by white space, an optional [<], the address (group 1) and an
    optional [>]. *)
Definition re_sender_line : re :=
  cat [Bol; lit "From:"; Star ws;
       Opt (cat [Chr DQUOTE; Star (NoneOf [CChar DQUOTE]); Chr DQUOTE; Star ws]);
       Opt (Chr "<"%char); Grp 1 re_address; Opt (Chr ">"%char)].

(** [function extractOriginalSender(text)]: the first fifty lines are
    checked; [match[1]] is never empty when the line matches. *)
Definition extractOriginalSender (text : jsstring) : option jsstring :=
  let lines := split_char LF text in
  let hit (line : jsstring) : option jsstring :=
    match exec flag_i re_sender_line line with
    | Some m => if truthy_opt (capture 1 m) then capture 1 m else None
    | None => None
    end in
  (fix loop (ls : list jsstring) : option jsstring :=
     match ls with
     | [] => None
     | line :: more =>
         match hit line with
         | Some a => Some a
         | None => loop more
         end
     end) (firstn 50 lines).

(** The operator configuration of [@/lib/env], as read by this file. *)
Record Env : Type :=
  { HONEYTRAP_EMAILS : option jsstring;
    HONEYTRAP_IDS : option jsstring }.

(** [v ? v.split(',').map(e => e.trim()).filter(e => e.length > 0) : []] *)
Definition config_list (v : option jsstring) : list jsstring :=
  if truthy_opt v then
    filter truthy (map trim (split_char ","%char (or_str v [])))
  else [].

(** The same with [e.trim().toLowerCase()]. *)
Definition config_list_lower (v : option jsstring) : list jsstring :=
  if truthy_opt v then
    filter truthy
      (map (fun e => toLowerCase (trim e)) (split_char ","%char (or_str v [])))
  else [].

(** [function validateAndCleanFromLine(fromLine)] *)
Definition validateAndCleanFromLine (env : Env) (fromLine : jsstring)
  : option jsstring :=
  let cleaned := trim fromLine in
  if (negb (includes cleaned (js "@")) || (length cleaned <=? 5))%bool then None
  else
    let honeytrapEmails := config_list_lower (HONEYTRAP_EMAILS env) in
    let isHoneytrap :=
      existsb (fun email => includes (toLowerCase cleaned) email) honeytrapEmails in
    if isHoneytrap then None else Some cleaned.

(** The three forward markers of [extractOriginalFromLine] and
    [extractOriginalDateFromBody]:
    [/^-+\s*Forwarded message\s*-+/i], [/^Begin forwarded message:/i] and
    [/^From:\s+.+@.+/i]. *)
Definition forwardMarkers : list re :=
  [ cat [Bol; Plus dash; Star ws; lit "Forwarded message"; Star ws; Plus dash];
    cat [Bol; lit "Begin forwarded message:"];
    cat [Bol; lit "From:"; Plus ws; Plus Any; Chr "@"%char; Plus Any] ].

Definition isForwardBoundary (line : jsstring) : bool :=
  existsb (fun marker => test flag_i marker line) forwardMarkers.

(** [/^[\s>]+/] *)
Definition re_leading_quotes : re := cat [Bol; Plus (OneOf quote_or_space)].

(** [/^From:\s+(.+)$/i] *)
Definition re_from_header : re :=
  cat [Bol; lit "From:"; Plus ws; Grp 1 (Plus Any); Eol].

(** The inner loop of [extractOriginalFromLine], over the lines
    [i .. searchEnd-1]; [first] says that [j = i].  [Some res] is the
    [return] of the function (with its value, possibly [null]); [None] is
    the end of the loop, by exhaustion or by [break]. *)
Fixpoint searchFromHeader (env : Env) (first : bool) (ls : list jsstring)
  : option (option jsstring) :=
  match ls with
  | [] => None
  | line :: more =>
      match exec flag_i re_from_header line with
      | Some m => Some (validateAndCleanFromLine env (or_str (capture 1 m) []))
      | None =>
          if (eqb_str (trim line) [] && negb first)%bool then None
          else searchFromHeader env false more
      end
  end.

(** The outer loop: [n] lines are still to be looked at (at most a
    hundred), [ls] is the text from line [i] on. *)
Fixpoint scanForFrom (env : Env) (n : nat) (ls : list jsstring)
  : option jsstring :=
  match n, ls with
  | S n', line :: more =>
      if isForwardBoundary line then
        match searchFromHeader env true (firstn 20 ls) with
        | Some res => res
        | None => scanForFrom env n' more
        end
      else scanForFrom env n' more
  | _, _ => None
  end.

(** [function extractOriginalFromLine(text)] *)
Definition extractOriginalFromLine (env : Env) (text : jsstring)
  : option jsstring :=
  let lines :=
    map (fun line => replace no_flags re_leading_quotes [] line)
        (split no_flags newline text) in
  scanForFrom env 100 lines.

(** [/([a-zA-Z0-9._%+-]+@[a-zA-Z0-9.-]+\.[a-zA-Z]{2,})/] *)
Definition re_bare_address : re := Grp 1 re_address.

(** [function parseEmailAddress(input)] *)
Definition parseEmailAddress (input : option jsstring) : option jsstring :=
  if negb (truthy_opt input) then None
  else
    match exec no_flags re_bare_address (or_str input []) with
    | Some m => capture 1 m
    | None => None
    end.

(** *** Dates *)

(** [/^(?:Date|Sent):\s*(.+)$/i] *)
Definition re_date_header : re :=
  cat [Bol; Alt (lit "Date") (lit "Sent"); Chr ":"%char; Star ws;
       Grp 1 (Plus Any); Eol].

(** [dateStr] of [extractOriginalDateFromBody]: the trimmed value of a
    [Date:] or [Sent:] header line ([match && match[1]]). *)
Definition dateStrOfLine (line : jsstring) : option jsstring :=
  match exec flag_i re_date_header line with
  | Some m =>
      if truthy_opt (capture 1 m) then Some (trim (or_str (capture 1 m) []))
      else None
  | None => None
  end.

(** [/<br\s*\/?>/gi] *)
Definition re_br : re :=
  cat [lit "<br"; Star ws; Opt (Chr "/"%char); Chr ">"%char].

(** [lines] of [extractOriginalDateFromBody]: the text with [<br>] turned
    into a newline, the other tags removed and four entities decoded, cut
    into lines, each without its quote marks and trimmed. *)
Definition dateLines (text : jsstring) : list jsstring :=
  let normalized :=
    replaceAll no_flags (lit "&nbsp;") (js " ")
      (replaceAll no_flags (lit "&amp;") (js "&")
        (replaceAll no_flags (lit "&gt;") (js ">")
          (replaceAll no_flags (lit "&lt;") (js "<")
            (replaceAll no_flags re_tag (js " ")
              (replaceAll flag_i re_br [LF] text))))) in
  map (fun line => trim (replace no_flags re_leading_quotes [] line))
      (split no_flags newline normalized).

(** [new Date(s).getTime()] depends on the JavaScript runtime and
    [Date.now()] on the clock: both are parameters.  A time value is a
    number of milliseconds; [None] is NaN (an invalid date). *)
Section Dates.

Variable Date_now : Z.
Variable Date_parse : jsstring -> option Z.

(** [/\s+at\s+/i] *)
Definition re_at : re := cat [Plus ws; lit "at"; Plus ws].

(** [/([A-Za-z]+)\s+(\d{1,2}),?\s+(\d{4})/] *)
Definition re_date_only : re :=
  cat [Grp 1 (Plus (OneOf [CRange "A" "Z"; CRange "a" "z"]%char)); Plus ws;
       Grp 2 (Between 1 2 digit); Opt (Chr ","%char); Plus ws;
       Grp 3 (Exactly 4 digit)].

(** [/(\d{1,2}):(\d{2})(?::(\d{2}))?\s*(AM|PM)?/i] *)
Definition re_time : re :=
  cat [Grp 1 (Between 1 2 digit); Chr ":"%char; Grp 2 (Exactly 2 digit);
       Opt (cat [Chr ":"%char; Grp 3 (Exactly 2 digit)]); Star ws;
       Opt (Grp 4 (Alt (lit "AM") (lit "PM")))].

(** The hours and minutes read from [timeMatch]. *)
Definition time_of_match (timeMatch : option match_result) : nat * nat :=
  match timeMatch with
  | None => (0, 0)
  | Some tm =>
      let hours := parseInt_digits (or_str (capture 1 tm) []) in
      let minutes := parseInt_digits (or_str (capture 2 tm) []) in
      let ampm := capture 4 tm in
      if truthy_opt ampm then
        let up := toUpperCase (or_str ampm []) in
        let hours :=
          if (eqb_str up (js "PM") && negb (hours =? 12))%bool
          then hours + 12 else hours in
        let hours :=
          if (eqb_str up (js "AM") && (hours =? 12))%bool then 0 else hours in
        (hours, minutes)
      else (hours, minutes)
  end.

(** The string of the third strategy:
    [`${month} ${day}, ${year} ${hours}:${minutes.toString().padStart(2, "0")}`],
    when [dateOnlyMatch] is not null. *)
Definition reassembled (dateStr : jsstring) : option jsstring :=
  match exec no_flags re_date_only dateStr with
  | None => None
  | Some dm =>
      let month := or_str (capture 1 dm) [] in
      let day := or_str (capture 2 dm) [] in
      let year := or_str (capture 3 dm) [] in
      let '(hours, minutes) := time_of_match (exec flag_i re_time dateStr) in
      Some (month ++ js " " ++ day ++ js ", " ++ year ++ js " " ++
            Number_toString hours ++ js ":" ++
            padStart0 2 (Number_toString minutes))
  end.

(** [function parseEmailDateString(dateStr)] *)
Definition parseEmailDateString (dateStr : jsstring) : option Z :=
  if negb (truthy dateStr) then None
  else
    match Date_parse dateStr with
    | Some parsed => Some parsed
    | None =>
        let withoutAt := replace flag_i re_at (js " ") dateStr in
        match Date_parse withoutAt with
        | Some parsed => Some parsed
        | None =>
            match reassembled dateStr with
            | Some str => Date_parse str
            | None => None
            end
        end
    end.

Definition one_year_ms : Z := 365 * 24 * 60 * 60 * 1000.
Definition one_day_ms : Z := 24 * 60 * 60 * 1000.

(** [function isValidEmailDate(date)]: a [Date] whose time value is NaN is
    rejected by the first test. *)
Definition isValidEmailDate (date : option Z) : bool :=
  match date with
  | None => false
  | Some t =>
      let oneYearAgo := (Date_now - one_year_ms)%Z in
      let oneDayAhead := (Date_now + one_day_ms)%Z in
      (Z.leb oneYearAgo t && Z.leb t oneDayAhead)%bool
  end.

(** The body of the inner loop of [extractOriginalDateFromBody] up to its
    [return]: the date of line [line], when the line is a [Date:] or a
    [Sent:] header whose value parses to a date of the sanity window. *)
Definition dateOfLine (line : jsstring) : option Z :=
  match dateStrOfLine line with
  | Some dateStr =>
      let parsed := parseEmailDateString dateStr in
      match parsed with
      | Some t => if isValidEmailDate parsed then Some t else None
      | None => None
      end
  | None => None
  end.

(** The inner loop, over the lines [i .. searchEnd-1]; [k] is [j - i]. *)
Fixpoint searchDateHeader (k : nat) (ls : list jsstring) : option Z :=
  match ls with
  | [] => None
  | line :: more =>
      match dateOfLine line with
      | Some t => Some t
      | None =>
          if (eqb_str (trim line) [] && (1 <? k))%bool then None
          else searchDateHeader (S k) more
      end
  end.

Fixpoint scanForDate (n : nat) (ls : list jsstring) : option Z :=
  match n, ls with
  | S n', line :: more =>
      if isForwardBoundary line then
        match searchDateHeader 0 (firstn 20 ls) with
        | Some t => Some t
        | None => scanForDate n' more
        end
      else scanForDate n' more
  | _, _ => None
  end.

(** [function extractOriginalDateFromBody(text)] *)
Definition extractOriginalDateFromBody (text : jsstring) : option Z :=
  scanForDate 100 (dateLines text).

(** [function extractOriginalEmailDate(_messageHeaders, bodyText, bodyHtml)] *)
Definition extractOriginalEmailDate (_messageHeaders bodyText bodyHtml : jsstring)
  : option Z :=
  match extractOriginalDateFromBody bodyText with
  | Some emailDate => Some emailDate
  | None =>
      if truthy bodyHtml then extractOriginalDateFromBody bodyHtml
      else None
  end.

End Dates.

(* ------------------------------------------------------------------ *)
(** *** The request, the collaborators and the handler *)

(** A field of a multipart form or of a JSON body.  A value that is not a
    string (a [File] of a form; a number, a boolean, [null], an array or an
    object of a JSON body) is given by its truthiness and by what
    [String(v)] makes of it: a string, or [None] when [String(v)] throws (a
    JSON object whose [toString] is not callable, as in
    [{sender: {toString: null}}]). *)
Inductive FieldValue : Type :=
| VString (s : jsstring)
| VOther (isTruthy : bool) (asString : option jsstring).

Definition value_truthy (v : FieldValue) : bool :=
  match v with
  | VString s => truthy s
  | VOther t _ => t
  end.

(** [String(v)]; [None] is a TypeError. *)
Definition String_of (v : FieldValue) : option jsstring :=
  match v with
  | VString s => Some s
  | VOther _ s => s
  end.

Definition Fields_in := list (jsstring * FieldValue).

(** [form.get(k)], [json?.[k]] *)
Definition get (fs : Fields_in) (k : jsstring) : option FieldValue :=
  match find (fun p => eqb_str (fst p) k) fs with
  | Some p => Some (snd p)
  | None => None
  end.

(** [String(get(k1) || get(k2) || ... || "")] *)
Fixpoint first_of (fs : Fields_in) (keys : list jsstring) : option jsstring :=
  match keys with
  | [] => Some []
  | k :: more =>
      match get fs k with
      | Some v => if value_truthy v then String_of v else first_of fs more
      | None => first_of fs more
      end
  end.

(** [params.get(k)] of a [URLSearchParams]: the first value of the name,
    or [null]. *)
Definition get_param (ps : list (jsstring * jsstring)) (k : jsstring)
  : option jsstring :=
  match find (fun p => eqb_str (fst p) k) ps with
  | Some p => Some (snd p)
  | None => None
  end.

(** [params.get(k1) || params.get(k2) || ... || ""] *)
Fixpoint first_param (ps : list (jsstring * jsstring)) (keys : list jsstring)
  : jsstring :=
  match keys with
  | [] => []
  | k :: more => or_str (get_param ps k) (first_param ps more)
  end.

(** The request as its readers show it: the [content-type] header; the
    pairs of [new URLSearchParams(await req.text())], which exist for any
    body; the entries of [await req.formData()] and the properties of the
    value of [await req.json()], each [None] when the promise rejects
    because the body is not of that encoding. *)
Record Request : Type :=
  { content_type : option jsstring;
    body_params : list (jsstring * jsstring);
    body_formData : option Fields_in;
    body_json : option Fields_in }.

Record Decoded : Type :=
  { sender : jsstring; subject : jsstring; bodyPlain : jsstring;
    bodyHtml : jsstring; messageHeaders : jsstring }.

(** The five assignments of the first and of the last branch. *)
Definition read_params (ps : list (jsstring * jsstring)) : Decoded :=
  {| sender := first_param ps [js "sender"; js "from"; js "From"];
     subject := first_param ps [js "subject"; js "Subject"];
     bodyPlain := first_param ps [js "body-plain"; js "stripped-text"; js "text"];
     bodyHtml := first_param ps [js "body-html"; js "stripped-html"; js "html"];
     messageHeaders := first_param ps [js "message-headers"] |}.

(** The five assignments of the multipart and of the JSON branch, in
    their order; the first [String(v)] that throws ends them. *)
Definition read_fields (fs : Fields_in) : option Decoded :=
  match first_of fs [js "sender"; js "from"; js "From"] with
  | None => None
  | Some sender =>
  match first_of fs [js "subject"; js "Subject"] with
  | None => None
  | Some subject =>
  match first_of fs [js "body-plain"; js "stripped-text"; js "text"] with
  | None => None
  | Some bodyPlain =>
  match first_of fs [js "body-html"; js "stripped-html"; js "html"] with
  | None => None
  | Some bodyHtml =>
  match first_of fs [js "message-headers"] with
  | None => None
  | Some messageHeaders =>
      Some {| sender := sender; subject := subject; bodyPlain := bodyPlain;
              bodyHtml := bodyHtml; messageHeaders := messageHeaders |}
  end end end end end.

(** Lines 15-56 of [POST], the parsing of the payload.  [None] is an
    exception, which the [catch] of [POST] answers: [await req.formData()]
    has no handler of its own ([req.json()] has [.catch(() => ({}))]), and
    neither has [String(v)]. *)
Definition decode (req : Request) : option Decoded :=
  let contentType := or_str (content_type req) [] in
  if includes contentType (js "application/x-www-form-urlencoded") then
    Some (read_params (body_params req))
  else if includes contentType (js "multipart/form-data") then
    match body_formData req with
    | Some form => read_fields form
    | None => None
    end
  else if includes contentType (js "application/json") then
    match body_json req with
    | Some json => read_fields json
    | None => read_fields []
    end
  else
    Some (read_params (body_params req)).

(** The argument of [ingestTextSubmission]. *)
Record IngestArgs : Type :=
  { text : jsstring; rawText : jsstring; senderId : option jsstring;
    messageType : jsstring; imageUrlPlaceholder : jsstring;
    emailSubject : option jsstring; emailBody : option jsstring;
    emailBodyOriginal : option jsstring; emailFrom : option jsstring;
    forwarderEmail : option jsstring; submissionToken : jsstring;
    emailSentAt : option Z }.

(** What [ingestTextSubmission] resolves to, as far as [POST] reads it. *)
Record IngestResult : Type :=
  { ok : bool; id : option jsstring; error : option jsstring;
    isFundraising : option bool; landingUrl : option jsstring }.

(** [result.error === e] *)
Definition error_is (result : IngestResult) (e : jsstring) : bool :=
  match error result with
  | Some err => eqb_str err e
  | None => false
  end.

(** The truthiness of [result.isFundraising]. *)
Definition fundraising (result : IngestResult) : bool :=
  match isFundraising result with
  | Some b => b
  | None => false
  end.

(** What surrounds the handler: the process environment, the clock and the
    date parser of the runtime, the random token, and the imported
    functions that are not part of this file.  [cleanTextForAI] and
    [sanitizeEmailHtml] are functions from text to text;
    [ingestTextSubmission] resolves to a result or rejects ([None]);
    [pipelinesResolve id] says whether the promise of
    [triggerPipelines(id)] is fulfilled or rejected. *)
Record World : Type :=
  { SUPABASE_SERVICE_ROLE_KEY : option jsstring;
    NEXT_PUBLIC_SITE_URL : option jsstring;
    env : Env;
    Date_now : Z;
    Date_parse : jsstring -> option Z;
    randomToken : jsstring;
    cleanTextForAI : jsstring -> jsstring;
    sanitizeEmailHtml : jsstring -> jsstring;
    ingestTextSubmission : IngestArgs -> option IngestResult;
    pipelinesResolve : jsstring -> bool }.

(** The calls the handler makes to its collaborators. *)
Inductive Effect : Type :=
| Ingest (args : IngestArgs)
| TriggerPipelines (submissionId : jsstring)
| FetchScreenshot (url caseId landing : jsstring)
| FetchNonFundraisingNotice (url submissionId : jsstring).

Inductive Body : Type :=
| BodyOk (id : option jsstring)              (* {ok: true, id} *)
| BodyDuplicate (id : option jsstring)       (* {ok: true, duplicate: true, id} *)
| BodyError (error : jsstring).              (* {error} *)

Record Response : Type := { status : nat; body : Body }.

Definition service_key_missing : Response :=
  {| status := 400; body := BodyError (js "service_key_missing") |}.
Definition ingest_failed : Response :=
  {| status := 500; body := BodyError (js "ingest_failed") |}.
Definition internal_error : Response :=
  {| status := 500; body := BodyError (js "internal_error") |}.

(** What the handler has done so far: the calls it has made, in order,
    and those among them that it has not waited for, which may not have
    settled yet. *)
Record State : Type :=
  { calls : list Effect; unsettled : list Effect }.

Definition initial : State := {| calls := []; unsettled := [] |}.

(** The handler monad: a computation changes the state and either goes on
    with a value or has produced the response, by [return] or by an
    exception that the [catch] of [POST] turns into [internal_error]. *)
Inductive Outcome (A : Type) : Type :=
| Value (a : A)
| Responded (r : Response).
Arguments Value {A} a.
Arguments Responded {A} r.

Definition Handler (A : Type) : Type := State -> Outcome A * State.

Definition ret {A} (a : A) : Handler A := fun st => (Value a, st).

Definition bind {A B} (m : Handler A) (k : A -> Handler B) : Handler B :=
  fun st =>
    match m st with
    | (Value a, st') => k a st'
    | (Responded r, st') => (Responded r, st')
    end.

Definition respond {A} (r : Response) : Handler A := fun st => (Responded r, st).
Definition throw {A} : Handler A := respond internal_error.

(** [await f(...)]: the call is made and the handler goes on when it has
    settled. *)
Definition awaited (e : Effect) : Handler unit :=
  fun st => (Value tt, {| calls := calls st ++ [e]; unsettled := unsettled st |}).

(** [void f(...)]: the call is made and the handler goes on at once. *)
Definition not_awaited (e : Effect) : Handler unit :=
  fun st => (Value tt, {| calls := calls st ++ [e];
                          unsettled := unsettled st ++ [e] |}).

Definition when (b : bool) (m : Handler unit) : Handler unit :=
  if b then m else ret tt.

Notation "x <- m ;; k" := (bind m (fun x => k))
  (at level 61, m at next level, right associativity).
Notation "m ;; k" := (bind m (fun _ => k))
  (at level 61, right associativity).

(** The response and the state at the end, whether the handler returned at
    its last line or before. *)
Definition outcome_of (o : Outcome Response * State) : Response * State :=
  match o with
  | (Value r, st) => (r, st)
  | (Responded r, st) => (r, st)
  end.

Definition run (m : Handler Response) : Response * State :=
  outcome_of (m initial).

(** The separator lines removed from the plain text:
    [/^[\s>]*-+\s*Forwarded message\s*-+\s*(?:\r?\n)+/im] and
    [/^[\s>]*-+\s*Forwarded message\s*-+\s*$/gim]. *)
Definition separator_prefix : list re :=
  [Bol; Star (OneOf quote_or_space); Plus dash; Star ws;
   lit "Forwarded message"; Star ws; Plus dash; Star ws].

Definition re_separator_text_1 : re := cat (separator_prefix ++ [Plus newline]).
Definition re_separator_text_2 : re := cat (separator_prefix ++ [Eol]).

(** The same for the HTML, where the line may end with a [<br>]:
    [(?:<br\s*\/?\s*>|\r?\n)+] and [(?:<br\s*\/?\s*>)?$]. *)
Definition re_br_loose : re :=
  cat [lit "<br"; Star ws; Opt (Chr "/"%char); Star ws; Chr ">"%char].

Definition re_separator_html_1 : re :=
  cat (separator_prefix ++ [Plus (Alt re_br_loose newline)]).
Definition re_separator_html_2 : re :=
  cat (separator_prefix ++ [Opt re_br_loose; Eol]).

(** [const redactHoneytrap = (text) => ...].  [escaped] is the identifier
    with every pattern character escaped, so [new RegExp(escaped, 'gi')] is
    the identifier taken literally, case-insensitively; neither replacement
    contains a [$]. *)
Definition redactHoneytrap (honeytrapEmails honeytrapIds : list jsstring)
    (text : jsstring) : jsstring :=
  let result :=
    fold_left (fun result email =>
                 replaceAll flag_i (lit_chars email) (js "*******@*******.com") result)
              honeytrapEmails text in
  fold_left (fun result id =>
               replaceAll flag_i (lit_chars id) (js "########") result)
            honeytrapIds result.

Definition nonempty (s : jsstring) : option jsstring :=
  if truthy s then Some s else None.

(** Lines 66-84: the forwarding facts recovered before anything is
    stripped. *)
Definition initialRawText (d : Decoded) : jsstring :=
  if truthy (bodyPlain d) then bodyPlain d else stripHtml (bodyHtml d).

Definition isForwarded (d : Decoded) : bool :=
  detectForwardedEmail (subject d) (initialRawText d) (bodyHtml d).

(** [originalFromLine] after lines 74-78: from the plain text, else from
    the HTML stripped to text. *)
Definition recoveredFromLine (e : Env) (d : Decoded) : option jsstring :=
  let originalFromLine := extractOriginalFromLine e (initialRawText d) in
  if (negb (truthy_opt originalFromLine) && truthy (bodyHtml d))%bool then
    let htmlAsText := stripHtml (bodyHtml d) in
    extractOriginalFromLine e htmlAsText
  else originalFromLine.

(** [originalFromLine] after the fallback of lines 80-84. *)
Definition originalFromLine (e : Env) (d : Decoded) : option jsstring :=
  let recovered := recoveredFromLine e d in
  if (negb (truthy_opt recovered) && truthy (sender d) && negb (isForwarded d))%bool
  then Some (sender d)
  else recovered.

(** [rawText] after lines 88-90 and 123. *)
Definition strippedRawText (d : Decoded) : jsstring :=
  replaceAll flag_im re_separator_text_2 []
    (replace flag_im re_separator_text_1 [] (initialRawText d)).

Definition redactedRawText (e : Env) (d : Decoded) : jsstring :=
  redactHoneytrap (config_list (HONEYTRAP_EMAILS e)) (config_list (HONEYTRAP_IDS e))
    (strippedRawText d).

Definition redactedSubject (e : Env) (d : Decoded) : jsstring :=
  redactHoneytrap (config_list (HONEYTRAP_EMAILS e)) (config_list (HONEYTRAP_IDS e))
    (subject d).

(** [sanitizedHtml] after lines 145-153. *)
Definition sanitizedHtml (w : World) (d : Decoded) : option jsstring :=
  let e := env w in
  let sanitized :=
    if truthy (bodyHtml d) then Some (sanitizeEmailHtml w (bodyHtml d)) else None in
  if truthy_opt sanitized then
    let html := or_str sanitized [] in
    let html :=
      replaceAll flag_im re_separator_html_2 []
        (replace flag_im re_separator_html_1 [] html) in
    Some (redactHoneytrap (config_list (HONEYTRAP_EMAILS e))
                          (config_list (HONEYTRAP_IDS e)) html)
  else sanitized.

(** [detectedSender], lines 156-160. *)
Definition detectedSender (e : Env) (d : Decoded) : jsstring :=
  or_str
    (or_else (parseEmailAddress (originalFromLine e d))
       (or_else (extractOriginalSender (redactedRawText e d))
                (parseEmailAddress (Some (sender d)))))
    (sender d).

(** [forwarderEmail], lines 174-187. *)
Definition forwarderEmailOf (e : Env) (d : Decoded) : option jsstring :=
  let envelopeSender := sender d in
  if isForwarded d then
    let parsedEnvelope :=
      or_else (parseEmailAddress (Some envelopeSender)) (nonempty envelopeSender) in
    match parsedEnvelope with
    | Some parsed =>
        if truthy parsed then
          let isHoneytrapForwarder :=
            existsb (fun email => includes (toLowerCase parsed) (toLowerCase email))
                    (config_list (HONEYTRAP_EMAILS e)) in
          if negb isHoneytrapForwarder then Some parsed else None
        else None
    | None => None
    end
  else None.

Definition ingestArgs (w : World) (d : Decoded) : IngestArgs :=
  let e := env w in
  let rawText := redactedRawText e d in
  let cleanedText := cleanTextForAI w rawText in
  {| text := cleanedText;
     rawText := rawText;
     senderId := nonempty (detectedSender e d);
     messageType := js "email";
     imageUrlPlaceholder := js "email://no-image";
     emailSubject := nonempty (redactedSubject e d);
     emailBody := or_else (sanitizedHtml w d) None;
     emailBodyOriginal := nonempty (bodyHtml d);
     emailFrom := or_else (originalFromLine e d) None;
     forwarderEmail := forwarderEmailOf e d;
     submissionToken := randomToken w;
     emailSentAt :=
       extractOriginalEmailDate (Date_now w) (Date_parse w)
         (messageHeaders d) rawText (bodyHtml d) |}.

Definition site_url (w : World) (path : string) : jsstring :=
  or_str (NEXT_PUBLIC_SITE_URL w) [] ++ js path.

(** [await triggerPipelines(result.id)], line 242.  [triggerPipelines] of
    [@/server/ingest/save] is not part of this file.  The call is awaited
    inside the [try] with no handler of its own: when its promise is
    rejected the [catch] of [POST] answers. *)
Definition triggerPipelines (w : World) (submissionId : jsstring) : Handler unit :=
  awaited (TriggerPipelines submissionId) ;;
  (if pipelinesResolve w submissionId then ret tt else throw).

(** Lines 218-310, from the result of the ingestion to the response.  Both
    [fetch] chains end in a [.catch], so neither raises; the screenshot is
    not awaited ([void fetch]), the notice is ([await fetch]). *)
Definition afterIngest (w : World) (d : Decoded) (result : IngestResult)
  : Handler Response :=
  let envelopeSender := sender d in
  (if negb (ok result) then
     if error_is result (js "duplicate")
     then respond {| status := 200; body := BodyDuplicate (id result) |}
     else if negb (truthy_opt (id result)) then respond ingest_failed
     else ret tt
   else ret tt) ;;
  (if (fundraising result && truthy_opt (id result))%bool
   then
     triggerPipelines w (or_str (id result) []) ;;
     when (truthy_opt (landingUrl result))
       (not_awaited (FetchScreenshot (site_url w "/api/screenshot-actblue")
                       (or_str (id result) []) (or_str (landingUrl result) [])))
   else
     when (truthy_opt (id result) && isForwarded d && truthy envelopeSender)%bool
       (awaited (FetchNonFundraisingNotice
                   (site_url w "/api/send-non-fundraising-notice")
                   (or_str (id result) [])))) ;;
  ret {| status := 200; body := BodyOk (id result) |}.

(** [export async function POST(req)] *)
Definition POST_handler (w : World) (req : Request) : Handler Response :=
  d <- match decode req with
       | Some d => ret d
       | None => throw
       end ;;
  (if negb (truthy_opt (SUPABASE_SERVICE_ROLE_KEY w))
   then respond service_key_missing else ret tt) ;;
  let args := ingestArgs w d in
  awaited (Ingest args) ;;
  result <- match ingestTextSubmission w args with
            | Some result => ret result
            | None => throw
            end ;;
  afterIngest w d result.

(** A run of the handler: the response, and the state when it is
    returned. *)
Definition POST_run (w : World) (req : Request) : Response * State :=
  run (POST_handler w req).

(** The response and the calls made. *)
Definition POST (w : World) (req : Request) : Response * list Effect :=
  (fst (POST_run w req), calls (snd (POST_run w req))).

(** The calls that the handler has not waited for when it returns the
    response. *)
Definition POST_unsettled (w : World) (req : Request) : list Effect :=
  unsettled (snd (POST_run w req)).

End Route.
Import Route.

(* ------------------------------------------------------------------ *)
(** ** Vocabulary of the properties *)

Module Props.

(** A matcher hands to its continuation only states that are not behind
    the one it started from: continuations that agree on those are the
    same to it. *)
Definition stays_within
    (body : (mstate -> option mstate) -> mstate -> option mstate) : Prop :=
  forall k k' s,
    (forall s', length (rest s') <= length (rest s) -> k s' = k' s') ->
    body k s = body k' s.

(** [t] contains [e] in any character case. *)
Definition occursCI (t e : jsstring) : bool :=
  includes (toLowerCase t) (toLowerCase e).

(** The placeholders of [redactHoneytrap]. *)
Definition email_placeholder : jsstring := js "*******@*******.com".
Definition id_placeholder : jsstring := js "########".

(** Case-insensitive prefix test, with the canonical forms the matcher
    compares. *)
Fixpoint startsWithCI (s p : jsstring) : bool :=
  match p, s with
  | [], _ => true
  | _ :: _, [] => false
  | y :: p', x :: s' => (chr_match flag_i y x && startsWithCI s' p')%bool
  end.

(** One of the two strings is a beginning of the other. *)
Definition compatible (a b : jsstring) : bool :=
  (startsWithCI a b || startsWithCI b a)%bool.

(** The non-empty suffixes of [s], the longest first. *)
Fixpoint suffixes (s : jsstring) : list jsstring :=
  match s with
  | [] => []
  | _ :: s' => s :: suffixes s'
  end.

(** [canOverlap P e]: in some text an occurrence of [e] shares a character
    with an occurrence of [P], because [e] begins inside [P] or because a
    later part of [e] begins [P]. *)
Definition canOverlap (P e : jsstring) : bool :=
  (existsb (fun s => compatible s e) (suffixes P) ||
   existsb (fun s => compatible s P) (tl (suffixes e)))%bool.

(** The replacement of a literal without the regular expression: what
    [s.replace(new RegExp(escaped, 'gi'), P)] comes to for a non-empty
    identifier [q].  [skip] characters of the last match are still to be
    passed over. *)
Fixpoint replaceLit (q P : jsstring) (skip : nat) (s : jsstring) : jsstring :=
  match s with
  | [] => []
  | c :: rest =>
      match skip with
      | S n => replaceLit q P n rest
      | 0 =>
          if startsWithCI s q then P ++ replaceLit q P (length q - 1) rest
          else c :: replaceLit q P 0 rest
      end
  end.

(** [e] occurs in [t], in any character case, at the end of [a]. *)
Definition occursIn (e t : jsstring) : Prop :=
  exists a b, t = a ++ b /\ startsWithCI b e = true.

(** All the characters. *)
Definition all_ascii : list ascii := map ascii_of_nat (seq 0 256).

(** No identifier of the list is the empty string. *)
Definition all_nonempty (qs : list jsstring) : Prop := forall q, In q qs -> q <> [].

(** The passes of [redactHoneytrap] for one list of identifiers. *)
Definition passes (P : jsstring) (qs : list jsstring) (t : jsstring) : jsstring :=
  fold_left (fun result q => replaceLit q P 0 result) qs t.

(** An identifier that the redaction can be trusted with: it overlaps
    neither placeholder. *)
Definition clearOfPlaceholders (e : jsstring) : bool :=
  (negb (canOverlap email_placeholder e) && negb (canOverlap id_placeholder e))%bool.

(** A condition that is easier to read and is enough: the identifier has
    more than three characters, none of them [*] or [#], and does not
    begin with [m], [om], [com] or [.com], in any case. *)
Definition plainIdentifier (e : jsstring) : bool :=
  (forallb (fun c => negb (Ascii.eqb c "*") && negb (Ascii.eqb c "#")) e &&
   (3 <? length e) &&
   negb (startsWithCI e (js "m")) && negb (startsWithCI e (js "om")) &&
   negb (startsWithCI e (js "com")) && negb (startsWithCI e (js ".com")))%bool.

(** The number of (awaited) calls of the non-fundraising notice in a trace. *)
Definition is_notice (e : Effect) : bool :=
  match e with
  | FetchNonFundraisingNotice _ _ => true
  | _ => false
  end.

Definition notice_calls (tr : list Effect) : nat := length (filter is_notice tr).

(** The calls that follow the ingestion: pipelines, screenshot, notice. *)
Definition is_trigger (e : Effect) : bool :=
  match e with
  | Ingest _ => false
  | _ => true
  end.

(** The sanity window of [isValidEmailDate]. *)
Definition in_window (now t : Z) : Prop :=
  (now - 365 * 24 * 60 * 60 * 1000 <= t <= now + 24 * 60 * 60 * 1000)%Z.

(** A check that can be run: the line is no date header, or its value does
    not parse, or it parses to a time outside of the window. *)
Definition lineRejected (now : Z) (parse : jsstring -> option Z)
    (line : jsstring) : bool :=
  match dateStrOfLine line with
  | Some dateStr =>
      match parseEmailDateString parse dateStr with
      | Some t => negb (isValidEmailDate now (Some t))
      | None => true
      end
  | None => true
  end.

(** The pipeline trigger is called and its promise is rejected. *)
Definition pipelinesReject (w : World) (result : IngestResult) : bool :=
  (fundraising result && truthy_opt (id result) &&
   negb (pipelinesResolve w (or_str (id result) [])))%bool.

(** The screenshot of the landing page, when the pipelines have resolved
    and there is a landing page. *)
Definition screenshot (w : World) (result : IngestResult) : list Effect :=
  if (pipelinesResolve w (or_str (id result) []) && truthy_opt (landingUrl result))%bool
  then [FetchScreenshot (site_url w "/api/screenshot-actblue")
          (or_str (id result) []) (or_str (landingUrl result) [])]
  else [].

(** The calls of the trigger branches of [POST], as a list: the pipelines
    and, when they resolve and there is a landing page, the screenshot,
    for a fundraising message with an id; else the notice for a forward
    with an id and an envelope sender. *)
Definition triggers (w : World) (d : Decoded) (result : IngestResult) : list Effect :=
  if (fundraising result && truthy_opt (id result))%bool then
    TriggerPipelines (or_str (id result) []) :: screenshot w result
  else if (truthy_opt (id result) && isForwarded d && truthy (sender d))%bool
  then [FetchNonFundraisingNotice (site_url w "/api/send-non-fundraising-notice")
          (or_str (id result) [])]
  else [].

(** Those of them that are not awaited. *)
Definition notAwaited (w : World) (result : IngestResult) : list Effect :=
  if (fundraising result && truthy_opt (id result))%bool then screenshot w result
  else [].

End Props.
Import Props.

(* ------------------------------------------------------------------ *)
(** ** Concrete requests and worlds *)

Module Examples.

Definition honeytraps : Env :=
  {| HONEYTRAP_EMAILS := Some (js "sender@decoy.org, mary@decoy.org");
     HONEYTRAP_IDS := Some (js "zx81q") |}.

(** An ingestion that assigns id 42 and finds the message not to be a
    fundraising one. *)
Definition not_fundraising : IngestResult :=
  {| ok := true; id := Some (js "42"); error := None;
     isFundraising := Some false; landingUrl := None |}.

Definition duplicate_of_42 : IngestResult :=
  {| ok := false; id := Some (js "42"); error := Some (js "duplicate");
     isFundraising := None; landingUrl := None |}.

(** A failure that still carries an id, for a fundraising message with a
    landing page. *)
Definition failed_with_id : IngestResult :=
  {| ok := false; id := Some (js "42"); error := Some (js "storage_timeout");
     isFundraising := Some true; landingUrl := Some (js "https://secure.actblue.com/donate/x") |}.

(** Monday 5 January 2026, 20:00 UTC, in milliseconds. *)
Definition jan_5_2026 : Z := 1767643200000.

(** A date parser that knows two strings: a date of January 2026 and a
    date two years before. *)
Definition two_dates (s : jsstring) : option Z :=
  if eqb_str s (js "Mon, Jan 5, 2026 3:00 PM") then Some 1767625200000%Z
  else if eqb_str s (js "Fri, 5 Jan 2024 15:00:00 +0000") then Some 1704466800000%Z
  else None.

Definition world (result : IngestResult) : World :=
  {| SUPABASE_SERVICE_ROLE_KEY := Some (js "service-role-key");
     NEXT_PUBLIC_SITE_URL := Some (js "https://abjail.example");
     env := honeytraps;
     Date_now := jan_5_2026;
     Date_parse := two_dates;
     randomToken := js "c2VjcmV0LXRva2Vu";
     cleanTextForAI := fun text => text;
     sanitizeEmailHtml := fun html => html;
     ingestTextSubmission := fun _ => Some result;
     pipelinesResolve := fun _ => true |}.

(** The same, with a pipeline trigger that fails. *)
Definition world_pipelines_down (result : IngestResult) : World :=
  {| SUPABASE_SERVICE_ROLE_KEY := Some (js "service-role-key");
     NEXT_PUBLIC_SITE_URL := Some (js "https://abjail.example");
     env := honeytraps;
     Date_now := jan_5_2026;
     Date_parse := two_dates;
     randomToken := js "c2VjcmV0LXRva2Vu";
     cleanTextForAI := fun text => text;
     sanitizeEmailHtml := fun html => html;
     ingestTextSubmission := fun _ => Some result;
     pipelinesResolve := fun _ => false |}.

(** The soft hyphen, an invisible character. *)
Definition SHY : ascii := ascii_of_N 173.

(** The same as [world], with a text cleaner that removes the soft
    hyphens. *)
Definition world_cleaning_soft_hyphens (result : IngestResult) : World :=
  {| SUPABASE_SERVICE_ROLE_KEY := Some (js "service-role-key");
     NEXT_PUBLIC_SITE_URL := Some (js "https://abjail.example");
     env := honeytraps;
     Date_now := jan_5_2026;
     Date_parse := two_dates;
     randomToken := js "c2VjcmV0LXRva2Vu";
     cleanTextForAI := filter (fun c => negb (Ascii.eqb c SHY));
     sanitizeEmailHtml := fun html => html;
     ingestTextSubmission := fun _ => Some result;
     pipelinesResolve := fun _ => true |}.

Definition json_request (fields : list (string * string)) : Request :=
  {| content_type := Some (js "application/json");
     body_params := [];
     body_formData := None;
     body_json := Some (map (fun p => (js (fst p), VString (js (snd p)))) fields) |}.

(** A Gmail forward of a message of Jane Doe, sent on by bob. *)
Definition gmail_forward : Request :=
  json_request
    [("sender", "Bob <bob@example.com>");
     ("subject", "Fwd: Help us win");
     ("body-plain", "---------- Forwarded message ---------
From: Jane Doe <jane@example.org>
Date: Mon, Jan 5, 2026 at 3:00 PM
Subject: Help us win
To: bob@example.com

Chip in now")]%string.

(** A forward in which nothing of the original headers is left. *)
Definition bare_forward : Request :=
  json_request
    [("sender", "bob@example.com");
     ("subject", "Fwd: Help us win");
     ("body-plain", "Chip in now")]%string.

(** The same, forwarded by a honeytrap address. *)
Definition decoy_forward : Request :=
  json_request
    [("sender", "sender@decoy.org");
     ("subject", "Fwd: Help us win");
     ("body-plain", "Chip in now")]%string.

(** A message that is no forward, sent by a honeytrap address. *)
Definition decoy_direct : Request :=
  json_request
    [("sender", "sender@decoy.org");
     ("subject", "Help us win");
     ("body-plain", "Chip in now")]%string.

(** A message that is no forward by the markers of
    [detectForwardedEmail], whose body begins with a [From:] line. *)
Definition outlook_style : Request :=
  json_request
    [("sender", "bob@example.com");
     ("subject", "Help us win");
     ("body-plain", "From: Jane Doe <jane@example.org>
Chip in now")]%string.

(** A subject in which the honeytrap address mary@decoy.org is followed
    by its own tail. *)
Definition overlapping_subject : Request :=
  json_request
    [("sender", "bob@example.com");
     ("subject", "mary@decoy.orgary@decoy.org");
     ("body-plain", "Chip in now")]%string.

(** A message caught by the honeytrap address sender@decoy.org and
    forwarded by it; the address and the tracking id zx81q are in the
    subject and in both bodies. *)
Definition honeytrap_capture : Request :=
  json_request
    [("sender", "sender@decoy.org");
     ("subject", "Fwd: Sender@Decoy.org, chip in (zx81q)");
     ("body-plain", "Begin forwarded message:

From: Jane Doe <jane@example.org>
To: sender@decoy.org

Chip in now, SENDER@DECOY.ORG (ZX81Q)");
     ("body-html", "<p>To: sender@decoy.org</p><p>Chip in now (zx81q)</p>")]%string.

(** A configuration none of whose identifiers can overlap a placeholder. *)
Definition clear_honeytraps : Env :=
  {| HONEYTRAP_EMAILS := Some (js "sender@decoy.org, trap@honeypot.example");
     HONEYTRAP_IDS := Some (js "zx81q, k7-2204") |}.

(** A multipart request whose body the runtime cannot read as a form. *)
Definition malformed_multipart : Request :=
  {| content_type := Some (js "multipart/form-data; boundary=x");
     body_params := [];
     body_formData := None;
     body_json := None |}.

(** A forward whose original date is two years old. *)
Definition old_forward_text : jsstring :=
  js "---------- Forwarded message ---------
From: Jane Doe <jane@example.org>
Date: Fri, 5 Jan 2024 15:00:00 +0000
Subject: Help us win

Chip in now".

(** A forward of Apple Mail, of 5 January 2026. *)
Definition apple_forward_text : jsstring :=
  js "Begin forwarded message:

From: Jane Doe <jane@example.org>
Date: Mon, Jan 5, 2026 at 3:00 PM
Subject: Help us win

Chip in now".

(** A body in which the honeytrap address sender@decoy.org is written
    with a soft hyphen inside. *)
Definition hyphenated_address : jsstring :=
  js "To: sen" ++ [SHY] ++ js "der@decoy.org".

Definition soft_hyphen_message : Request :=
  {| content_type := Some (js "application/json");
     body_params := [];
     body_formData := None;
     body_json := Some [(js "sender", VString (js "bob@example.com"));
                        (js "subject", VString (js "Help us win"));
                        (js "body-plain", VString hyphenated_address)] |}.

Definition no_fields : Decoded :=
  {| sender := []; subject := []; bodyPlain := []; bodyHtml := [];
     messageHeaders := [] |}.

Definition decoded (req : Request) : Decoded :=
  match decode req with
  | Some d => d
  | None => no_fields
  end.

End Examples.

(* ------------------------------------------------------------------ *)
(** ** The words of a regular expression *)

Module Lang.

(** [lang f r w]: [w] is a word of [r], read without its anchors: the
    characters a match of [r] consumes.  A quantifier [r{lo,hi}] is
    unfolded one iteration at a time, as the matcher does. *)
Inductive lang (f : flags) : re -> jsstring -> Prop :=
| L_empty : lang f Empty []
| L_chr c x : chr_match f c x = true -> lang f (Chr c) [x]
| L_any x : isLineTerminator x = false -> lang f Any [x]
| L_oneof items x : class_has f items x = true -> lang f (OneOf items) [x]
| L_noneof items x : class_has f items x = false -> lang f (NoneOf items) [x]
| L_bol : lang f Bol []
| L_eol : lang f Eol []
| L_seq r1 r2 w1 w2 :
    lang f r1 w1 -> lang f r2 w2 -> lang f (Seq r1 r2) (w1 ++ w2)
| L_alt_l r1 r2 w : lang f r1 w -> lang f (Alt r1 r2) w
| L_alt_r r1 r2 w : lang f r2 w -> lang f (Alt r1 r2) w
| L_rep_done lo hi r : lo = 0 \/ hi = Some 0 -> lang f (Rep lo hi r) []
| L_rep_more lo hi r w1 w2 :
    hi <> Some 0 -> lang f r w1 ->
    lang f (Rep (pred lo) (option_map pred hi) r) w2 ->
    lang f (Rep lo hi r) (w1 ++ w2)
| L_grp n r w : lang f r w -> lang f (Grp n r) w.

(** [sub] is a contiguous part of [s]. *)
Definition partOf (sub s : jsstring) : Prop :=
  exists pre post, s = pre ++ sub ++ post.

(** What a match of [r] hands to its continuation: a state reached by
    consuming a word of [r]. *)
Definition sound_matcher (f : flags) (r : re)
    (m : (mstate -> option mstate) -> mstate -> option mstate) : Prop :=
  forall k s res,
    m k s = Some res ->
    exists w s',
      lang f r w /\ rest s = w ++ rest s' /\
      (groups_of r = [] -> caps s' = caps s) /\ k s' = Some res.

(** A quantifier without upper bound over a single character, as a
    function of the text: it takes the characters that satisfy [ok] as far
    as it can, then gives them back one at a time until the continuation
    [k] succeeds, never below [lo] of them. *)
Fixpoint greedy (ok : ascii -> bool) (k : mstate -> option mstate) (lo : nat)
    (p : option ascii) (cs : list (nat * jsstring)) (r : jsstring) : option mstate :=
  let here := if lo =? 0 then k {| prev := p; rest := r; caps := cs |} else None in
  match r with
  | x :: tl =>
      if ok x then
        match greedy ok k (pred lo) (Some x) cs tl with
        | Some res => Some res
        | None => here
        end
      else here
  | [] => here
  end.

(** What a match leaves: the rest of the text and the captures. *)
Definition outcome (o : option mstate) : option (jsstring * list (nat * jsstring)) :=
  option_map (fun st => (rest st, caps st)) o.

(** A continuation that does not look at the character before the
    position it is given. *)
Definition ignores_prev (k : mstate -> option mstate) : Prop :=
  forall p1 p2 r cs,
    outcome (k {| prev := p1; rest := r; caps := cs |})
    = outcome (k {| prev := p2; rest := r; caps := cs |}).

(** The text ends at [r], for a quantifier over [ok]. *)
Definition stops (ok : ascii -> bool) (r : jsstring) : Prop :=
  match r with
  | y :: _ => ok y = false
  | [] => True
  end.

End Lang.
Import Lang.

(* ------------------------------------------------------------------ *)
(** ** Vocabulary of the further properties *)

Module Shapes.

(** The three character classes of the address expression. *)
Definition isLetter (c : ascii) : bool :=
  (in_range 97 122 c || in_range 65 90 c)%bool.

Definition isDomainChar (c : ascii) : bool :=
  (isLetter c || isDigit c || Ascii.eqb c "." || Ascii.eqb c "-")%bool.

Definition isLocalChar (c : ascii) : bool :=
  (isLetter c || isDigit c || Ascii.eqb c "." || Ascii.eqb c "_" ||
   Ascii.eqb c "%" || Ascii.eqb c "+" || Ascii.eqb c "-")%bool.

(** The same classes as the expression writes them. *)
Definition localClass : list class_item :=
  [CRange "a" "z"; CRange "A" "Z"; CRange "0" "9";
   CChar "."; CChar "_"; CChar "%"; CChar "+"; CChar "-"]%char.
Definition domainClass : list class_item :=
  [CRange "a" "z"; CRange "A" "Z"; CRange "0" "9"; CChar "."; CChar "-"]%char.
Definition letterClass : list class_item := [CRange "a" "z"; CRange "A" "Z"]%char.

(** The flags of the expressions that look for an address. *)
Definition plain_or_i (f : flags) : Prop := f = no_flags \/ f = flag_i.

(** [local@domain.tld]: a non-empty local part, a non-empty domain and a
    last label of two letters or more. *)
Definition wellFormedAddress (a : jsstring) : Prop :=
  exists local domain tld,
    a = local ++ "@"%char :: domain ++ "."%char :: tld /\
    local <> [] /\ forallb isLocalChar local = true /\
    domain <> [] /\ forallb isDomainChar domain = true /\
    2 <= length tld /\ forallb isLetter tld = true.

(** No white space at either end. *)
Definition trimmed (s : jsstring) : Prop :=
  (forall c t, s = c :: t -> isWhiteSpace c = false) /\
  (forall c t, s = t ++ [c] -> isWhiteSpace c = false).

(** [value] stands in [text] after a header [h] (in any character case)
    and white space. *)
Definition followsHeader (h value text : jsstring) : Prop :=
  exists a hdr gap b,
    text = a ++ hdr ++ gap ++ value ++ b /\
    startsWithCI hdr h = true /\ length hdr = length h /\
    forallb isWhiteSpace gap = true.

(** [line] is made of a header [h] (in any character case) at its
    beginning, white space, [value], and white space to its end. *)
Definition headerLine (h value line : jsstring) : Prop :=
  exists hdr gap post,
    line = hdr ++ gap ++ value ++ post /\
    startsWithCI hdr h = true /\ length hdr = length h /\
    forallb isWhiteSpace gap = true /\ forallb isWhiteSpace post = true.

(** [tag_end lo tl]: what follows the [>] that closes a tag whose inside
    begins at [tl] and has [lo] characters at least. *)
Fixpoint tag_end (lo : nat) (tl : jsstring) : option jsstring :=
  match tl with
  | [] => None
  | x :: r =>
      if Ascii.eqb x ">" then (if lo =? 0 then Some r else None)
      else tag_end (pred lo) r
  end.

(** [s] begins with a tag: a [<], one character or more other than [>],
    and a [>]. *)
Definition opensTag (s : jsstring) : bool :=
  match s with
  | x :: tl =>
      (Ascii.eqb x "<" && match tag_end 1 tl with Some _ => true | None => false end)%bool
  | [] => false
  end.

(** No tag begins anywhere in [t]. *)
Definition tagFree (t : jsstring) : Prop :=
  forall a b, t = a ++ b -> opensTag b = false.

(** The only white space of [t] is the space, and no white space follows
    a space. *)
Fixpoint singleSpaced (t : jsstring) : bool :=
  match t with
  | [] => true
  | c :: b =>
      ((if isWhiteSpace c
        then Ascii.eqb c " " &&
             match b with d :: _ => negb (isWhiteSpace d) | [] => true end
        else true) && singleSpaced b)%bool
  end.

(** The lines that [extractOriginalFromLine] looks at: the lines of the
    text without their quote marks. *)
Definition unquotedLines (text : jsstring) : list jsstring :=
  map (fun line => replace no_flags re_leading_quotes [] line)
      (split no_flags newline text).

(** The value of a line that is a [From:] header ([match[1]] of the inner
    loop). *)
Definition fromHeaderValue (line : jsstring) : option jsstring :=
  match exec flag_i re_from_header line with
  | Some m => Some (or_str (capture 1 m) [])
  | None => None
  end.

(** The submission id that a call after the ingestion carries. *)
Definition effect_id (e : Effect) : option jsstring :=
  match e with
  | Ingest _ => None
  | TriggerPipelines i => Some i
  | FetchScreenshot _ i _ => Some i
  | FetchNonFundraisingNotice _ i => Some i
  end.

(** The ingestion failed for good: not a duplicate, and no id. *)
Definition failed_for_good (result : IngestResult) : bool :=
  (negb (ok result) && negb (error_is result (js "duplicate")) &&
   negb (truthy_opt (id result)))%bool.

End Shapes.
Import Shapes.

(* ------------------------------------------------------------------ *)
(** ** Further requests and worlds *)

Module Cases.

(** A deployment without the service-role key. *)
Definition world_without_key : World :=
  {| SUPABASE_SERVICE_ROLE_KEY := None;
     NEXT_PUBLIC_SITE_URL := Some (js "https://abjail.example");
     env := Examples.honeytraps;
     Date_now := Examples.jan_5_2026;
     Date_parse := Examples.two_dates;
     randomToken := js "c2VjcmV0LXRva2Vu";
     cleanTextForAI := fun text => text;
     sanitizeEmailHtml := fun html => html;
     ingestTextSubmission := fun _ => Some Examples.not_fundraising;
     pipelinesResolve := fun _ => true |}.

(** A message sent straight to the service, which mentions none of the
    configured identifiers. *)
Definition direct_message : Request :=
  Examples.json_request
    [("sender", "Jane Doe <jane@example.org>");
     ("subject", "Help us win");
     ("body-plain", "Chip in now - before midnight!")]%string.

(** A request that announces JSON and whose body is not JSON. *)
Definition broken_json : Request :=
  {| content_type := Some (js "application/json; charset=utf-8");
     body_params := [(js "{sender", js "")];
     body_formData := None;
     body_json := None |}.

(** A JSON body whose sender is an object with no string form, as
    [{"sender": {"toString": null}}] is: [String(v)] throws for it. *)
Definition sender_without_string_form : Request :=
  {| content_type := Some (js "application/json");
     body_params := [];
     body_formData := None;
     body_json := Some [(js "sender", VOther true None)] |}.

(** An ingestion that stores a fundraising message with a landing page
    as case 7. *)
Definition fundraising_stored : IngestResult :=
  {| ok := true; id := Some (js "7"); error := None;
     isFundraising := Some true;
     landingUrl := Some (js "https://secure.actblue.com/donate/x") |}.

(** A message that is no forward, with an HTML body only. *)
Definition direct_html_message : Request :=
  Examples.json_request
    [("sender", "Jane Doe <jane@example.org>");
     ("subject", "Help us win");
     ("body-html", "<p>Chip in now</p>")]%string.

(** A forward whose From line has the address between angle brackets
    and no display name. *)
Definition bracket_forward_text : jsstring :=
  js "Begin forwarded message:

From: <jane@example.org>
Subject: Help us win

Chip in now".

(** A forward with two From: lines, the first one with a honeytrap
    address. *)
Definition two_from_lines : jsstring :=
  js "> ---------- Forwarded message ---------
> From: Mary <mary@decoy.org>
> From: Jane Doe <jane@example.org>
> Chip in now".

End Cases.

(* ------------------------------------------------------------------ *)
(** ** The reports table: [truncateAtWordBoundary] *)

From Stdlib Require Floats.PrimFloat Numbers.Cyclic.Int63.Uint63.

Module Reports.

Import PrimFloat.

(** A length as a JavaScript number (a binary64 float); the conversion is
    exact below 2^53. *)
Definition Number_of_nat (n : nat) : float :=
  of_uint63 (Uint63.of_Z (Z.of_nat n)).

(** [s.lastIndexOf(c)] for a single code unit; [None] is -1. *)
Fixpoint lastIndexOf (c : ascii) (s : jsstring) : option nat :=
  match s with
  | [] => None
  | x :: s' =>
      match lastIndexOf c s' with
      | Some i => Some (S i)
      | None => if Ascii.eqb x c then Some 0 else None
      end
  end.

(** [lastSpace > maxLength * 0.7], in the arithmetic of binary64. *)
#[warnings="-inexact-float"]
Definition beyond_70_percent (lastSpace maxLength : nat) : bool :=
  ltb (mul (Number_of_nat maxLength) 0.7%float) (Number_of_nat lastSpace).

(** [function truncateAtWordBoundary(text, maxLength)], for a
    [maxLength] that is a non-negative integer.  When the truncated text
    has no space, [lastSpace] is -1, which is greater than no
    [maxLength * 0.7], and the truncated text is returned. *)
Definition truncateAtWordBoundary (text : jsstring) (maxLength : nat) : jsstring :=
  if length text <=? maxLength then text
  else
    let truncated := firstn maxLength text in
    match lastIndexOf " "%char truncated with
    | Some lastSpace =>
        if beyond_70_percent lastSpace maxLength
        then firstn lastSpace truncated
        else truncated
    | None => truncated
    end.

End Reports.

(* ------------------------------------------------------------------ *)
(** ** Strings *)

Lemma ascii_eqb_refl (c : ascii) : Ascii.eqb c c = true.
Proof. apply Ascii.eqb_eq. reflexivity. Qed.

Lemma eqb_str_true (a b : jsstring) : eqb_str a b = true <-> a = b.
Proof.
  unfold eqb_str. destruct (list_eq_dec ascii_dec a b); split; congruence.
Qed.

Lemma startsWith_refl (s : jsstring) : startsWith s s = true.
Proof.
  induction s as [|c s IH]; simpl; [reflexivity|].
  now rewrite ascii_eqb_refl, IH.
Qed.

Lemma includes_refl (s : jsstring) : includes s s = true.
Proof. destruct s; simpl; [reflexivity|]. now rewrite ascii_eqb_refl, startsWith_refl. Qed.

Lemma truthy_toLowerCase (s : jsstring) : truthy (toLowerCase s) = truthy s.
Proof. now destruct s. Qed.

Lemma truthy_length (s : jsstring) : 0 < length s -> truthy s = true.
Proof. destruct s; simpl; [lia | reflexivity]. Qed.

(* ------------------------------------------------------------------ *)
(** ** The matcher: the fuel of a quantifier is enough *)

Lemma rep_loop_ext body gs :
  stays_within body ->
  forall fuel k k' lo hi s,
    (forall s', length (rest s') <= length (rest s) -> k s' = k' s') ->
    rep_loop body gs k fuel lo hi s = rep_loop body gs k' fuel lo hi s.
Proof.
  intros Hbody. induction fuel as [|fuel IH]; intros k k' lo hi s Hk; [reflexivity|].
  cbn [rep_loop].
  assert (body (fun s' =>
                  if ((lo =? 0) && (length (rest s') =? length (rest s)))%bool
                  then None
                  else rep_loop body gs k fuel (pred lo) (option_map pred hi) s')
               {| prev := prev s; rest := rest s; caps := clear_caps gs (caps s) |}
          = body (fun s' =>
                  if ((lo =? 0) && (length (rest s') =? length (rest s)))%bool
                  then None
                  else rep_loop body gs k' fuel (pred lo) (option_map pred hi) s')
               {| prev := prev s; rest := rest s; caps := clear_caps gs (caps s) |})
    as Hagain.
  { apply Hbody. cbn [rest]. intros s' Hs'.
    destruct ((lo =? 0) && (length (rest s') =? length (rest s)))%bool; [reflexivity|].
    apply IH. intros s'' Hs''. apply Hk. lia. }
  rewrite Hagain, (Hk s (le_n _)). reflexivity.
Qed.

Lemma mt_stays_within (f : flags) (r : re) : stays_within (mt f r).
Proof.
  induction r as [ | c | | items | items | | | r1 IH1 r2 IH2 | r1 IH1 r2 IH2
                 | lo hi r IH | n r IH ];
    intros k k' s Hk; cbn [mt].
  - apply Hk, le_n.
  - unfold step_char. destruct (rest s) as [|x tl] eqn:Hs; [reflexivity|].
    destruct (chr_match f c x); [|reflexivity]. apply Hk. cbn [rest]. simpl. lia.
  - unfold step_char. destruct (rest s) as [|x tl] eqn:Hs; [reflexivity|].
    destruct (negb (isLineTerminator x)); [|reflexivity]. apply Hk. cbn [rest]. simpl. lia.
  - unfold step_char. destruct (rest s) as [|x tl] eqn:Hs; [reflexivity|].
    destruct (class_has f items x); [|reflexivity]. apply Hk. cbn [rest]. simpl. lia.
  - unfold step_char. destruct (rest s) as [|x tl] eqn:Hs; [reflexivity|].
    destruct (negb (class_has f items x)); [|reflexivity]. apply Hk. cbn [rest]. simpl. lia.
  - destruct (at_bol f s); [apply Hk, le_n | reflexivity].
  - destruct (at_eol f s); [apply Hk, le_n | reflexivity].
  - apply IH1. intros s' Hs'. apply IH2. intros s'' Hs''. apply Hk. lia.
  - rewrite (IH1 k k' s Hk), (IH2 k k' s Hk). reflexivity.
  - apply rep_loop_ext; assumption.
  - apply IH. intros s' Hs'. apply Hk. exact Hs'.
Qed.

(** With the fuel the matcher gives it, or with more, the loop of a
    quantifier gives the same result: the fuel does not run out. *)
Lemma rep_loop_fuel body gs k :
  stays_within body ->
  forall n m lo hi s,
    rep_fuel lo s <= n -> rep_fuel lo s <= m ->
    rep_loop body gs k n lo hi s = rep_loop body gs k m lo hi s.
Proof.
  intros Hbody. unfold rep_fuel.
  induction n as [|n IH]; intros m lo hi s Hn Hm; [lia|].
  destruct m as [|m]; [lia|]. cbn [rep_loop].
  assert (body (fun s' =>
                  if ((lo =? 0) && (length (rest s') =? length (rest s)))%bool
                  then None
                  else rep_loop body gs k n (pred lo) (option_map pred hi) s')
               {| prev := prev s; rest := rest s; caps := clear_caps gs (caps s) |}
          = body (fun s' =>
                  if ((lo =? 0) && (length (rest s') =? length (rest s)))%bool
                  then None
                  else rep_loop body gs k m (pred lo) (option_map pred hi) s')
               {| prev := prev s; rest := rest s; caps := clear_caps gs (caps s) |})
    as Hagain.
  { apply Hbody. cbn [rest]. intros s' Hs'.
    destruct ((lo =? 0) && (length (rest s') =? length (rest s)))%bool eqn:Hstuck;
      [reflexivity|].
    apply andb_false_iff in Hstuck.
    rewrite Nat.eqb_neq in Hstuck. rewrite Nat.eqb_neq in Hstuck.
    apply IH; lia. }
  now rewrite Hagain.
Qed.

Lemma mt_Rep_fuel (f : flags) (lo : nat) (hi : option nat) (r : re) k s n :
  rep_fuel lo s <= n ->
  mt f (Rep lo hi r) k s = rep_loop (mt f r) (groups_of r) k n lo hi s.
Proof.
  intros Hn. cbn [mt]. apply rep_loop_fuel; [apply mt_stays_within | apply le_n | exact Hn].
Qed.

(** The matcher on small inputs whose results in JavaScript are well
    known: a global replacement with empty matches, a greedy quantifier
    that gives back, a capture, and a split on [\r?\n]. *)
Example replace_with_empty_matches :
  replaceAll no_flags (Star (Chr "b")) (js "X") (js "abc") = js "XaXXcX".
Proof. vm_compute. reflexivity. Qed.

Example greedy_gives_back :
  option_map matched (exec no_flags (cat [Star Any; lit "c"; Opt (lit "d")]) (js "abcabcd!"))
  = Some (js "abcabcd").
Proof. vm_compute. reflexivity. Qed.

Example capture_of_the_from_header :
  option_map (capture 1) (exec flag_i re_from_header (js "FROM:   Jane Doe <jane@example.org>"))
  = Some (Some (js "Jane Doe <jane@example.org>")).
Proof. vm_compute. reflexivity. Qed.

Example split_on_newlines :
  split no_flags newline (js "a" ++ [CR; LF] ++ js "b" ++ [LF; LF] ++ js "c")
  = [js "a"; js "b"; []; js "c"].
Proof. vm_compute. reflexivity. Qed.

(* ------------------------------------------------------------------ *)
(** ** The honeytrap check of the recovered From line *)

Lemma config_list_lower_map (v : option jsstring) :
  config_list_lower v = map toLowerCase (config_list v).
Proof.
  unfold config_list_lower, config_list.
  destruct (truthy_opt v); [|reflexivity].
  induction (split_char ","%char (or_str v [])) as [|x l IH]; [reflexivity|].
  simpl. rewrite truthy_toLowerCase.
  destruct (truthy (trim x)); simpl; now rewrite IH.
Qed.

Lemma config_list_truthy (v : option jsstring) (email : jsstring) :
  In email (config_list v) -> truthy email = true.
Proof.
  unfold config_list. destruct (truthy_opt v); [|contradiction].
  intros H. apply filter_In in H. tauto.
Qed.

(** What [validateAndCleanFromLine] lets through contains an [@], is
    longer than five characters and contains no configured honeytrap
    address, whatever the case. *)
Lemma validateAndCleanFromLine_sound (e : Env) (fromLine line : jsstring) :
  validateAndCleanFromLine e fromLine = Some line ->
  line = trim fromLine /\ 5 < length line /\
  forall email, In email (config_list (HONEYTRAP_EMAILS e)) ->
                occursCI line email = false.
Proof.
  unfold validateAndCleanFromLine.
  destruct (negb (includes (trim fromLine) (js "@")) || (length (trim fromLine) <=? 5))%bool
    eqn:Hshape; [discriminate|].
  destruct (existsb _ _) eqn:Htrap; [discriminate|].
  intros [= <-].
  apply orb_false_iff in Hshape as [_ Hlen]. apply Nat.leb_gt in Hlen.
  repeat split; [exact Hlen|].
  intros email Hin.
  rewrite config_list_lower_map in Htrap.
  assert (forall x, In x (map toLowerCase (config_list (HONEYTRAP_EMAILS e))) ->
                    includes (toLowerCase (trim fromLine)) x = false) as Hall.
  { intros x Hx. destruct (includes (toLowerCase (trim fromLine)) x) eqn:Hi;
      [|reflexivity].
    assert (existsb (fun email => includes (toLowerCase (trim fromLine)) email)
              (map toLowerCase (config_list (HONEYTRAP_EMAILS e))) = true) as Hex
      by (apply existsb_exists; eauto).
    congruence. }
  apply Hall, in_map, Hin.
Qed.

Lemma searchFromHeader_validated (e : Env) (ls : list jsstring) :
  forall first line,
    searchFromHeader e first ls = Some (Some line) ->
    exists fromLine, validateAndCleanFromLine e fromLine = Some line.
Proof.
  induction ls as [|l ls IH]; intros first line; simpl; [discriminate|].
  destruct (exec flag_i re_from_header l).
  - intros [= H]. eauto.
  - destruct (eqb_str (trim l) [] && negb first)%bool; [discriminate|].
    apply IH.
Qed.

Lemma scanForFrom_validated (e : Env) (n : nat) :
  forall ls line,
    scanForFrom e n ls = Some line ->
    exists fromLine, validateAndCleanFromLine e fromLine = Some line.
Proof.
  induction n as [|n IH]; intros ls line; [discriminate|].
  destruct ls as [|l ls]; [discriminate|].
  cbn [scanForFrom].
  destruct (isForwardBoundary l); [|apply IH].
  destruct (searchFromHeader e true (firstn 20 (l :: ls))) as [res|] eqn:Hs;
    [|apply IH].
  intros ->. eapply searchFromHeader_validated, Hs.
Qed.

Lemma extractOriginalFromLine_validated (e : Env) (text line : jsstring) :
  extractOriginalFromLine e text = Some line ->
  exists fromLine, validateAndCleanFromLine e fromLine = Some line.
Proof. apply scanForFrom_validated. Qed.

Lemma recoveredFromLine_validated (e : Env) (d : Decoded) (line : jsstring) :
  recoveredFromLine e d = Some line ->
  exists fromLine, validateAndCleanFromLine e fromLine = Some line.
Proof.
  unfold recoveredFromLine.
  destruct (negb _ && truthy (bodyHtml d))%bool;
    apply extractOriginalFromLine_validated.
Qed.

(** A recovered line is never the empty string. *)
Lemma recoveredFromLine_truthy (e : Env) (d : Decoded) (line : jsstring) :
  recoveredFromLine e d = Some line -> truthy line = true.
Proof.
  intros H. apply recoveredFromLine_validated in H as [fromLine H].
  apply validateAndCleanFromLine_sound in H as (_ & Hlen & _).
  apply truthy_length. lia.
Qed.

Lemma occursCI_refl (s : jsstring) : occursCI s s = true.
Proof. apply includes_refl. Qed.

(** How [originalFromLine] comes about: it is the recovered line, or, when
    none was recovered from a message that is not a forward, the envelope
    sender. *)
Lemma originalFromLine_cases (e : Env) (d : Decoded) (line : jsstring) :
  originalFromLine e d = Some line ->
  recoveredFromLine e d = Some line \/
  (recoveredFromLine e d = None /\ isForwarded d = false /\
   truthy (sender d) = true /\ line = sender d).
Proof.
  unfold originalFromLine. cbv zeta.
  destruct (recoveredFromLine e d) as [r|] eqn:Hr.
  - pose proof (recoveredFromLine_truthy e d _ Hr) as Ht.
    simpl. rewrite Ht. simpl. tauto.
  - simpl. destruct (truthy (sender d)) eqn:Hs; simpl; [|discriminate].
    destruct (isForwarded d); simpl; [discriminate|].
    intros [= <-]. tauto.
Qed.

(* ------------------------------------------------------------------ *)
(** ** The handler after the ingestion *)

(** Once the payload is decoded, the service key is there and the ingestion
    has resolved, the rest of [POST] is [afterIngest]. *)
Lemma POST_ingested (w : World) (req : Request) (d : Decoded) (result : IngestResult) :
  decode req = Some d ->
  truthy_opt (SUPABASE_SERVICE_ROLE_KEY w) = true ->
  ingestTextSubmission w (ingestArgs w d) = Some result ->
  POST_run w req =
  outcome_of (afterIngest w d result
                {| calls := [Ingest (ingestArgs w d)]; unsettled := [] |}).
Proof.
  intros Hd Hk Hi.
  unfold POST_run, run, POST_handler, bind, awaited, throw, respond, ret, initial.
  rewrite Hd, Hk. simpl. rewrite Hi. reflexivity.
Qed.

Lemma afterIngest_duplicate (w : World) (d : Decoded) (result : IngestResult)
    (st : State) :
  ok result = false -> error_is result (js "duplicate") = true ->
  afterIngest w d result st =
  (Responded {| status := 200; body := BodyDuplicate (id result) |}, st).
Proof.
  intros Hok Hdup. unfold afterIngest, bind, respond. rewrite Hok, Hdup. reflexivity.
Qed.

Lemma afterIngest_failed (w : World) (d : Decoded) (result : IngestResult)
    (st : State) :
  ok result = false -> error_is result (js "duplicate") = false ->
  truthy_opt (id result) = false ->
  afterIngest w d result st = (Responded ingest_failed, st).
Proof.
  intros Hok Hdup Hid. unfold afterIngest, bind, respond.
  rewrite Hok, Hdup, Hid. reflexivity.
Qed.

(** The trigger branches: the calls are those of [triggers], the
    screenshot is left unsettled, and the answer is 200 unless the
    pipeline trigger was called and failed. *)
Lemma afterIngest_proceeds (w : World) (d : Decoded) (result : IngestResult)
    (st : State) :
  ok result = true \/
  (error_is result (js "duplicate") = false /\ truthy_opt (id result) = true) ->
  outcome_of (afterIngest w d result st) =
  ((if pipelinesReject w result then internal_error
    else {| status := 200; body := BodyOk (id result) |}),
   {| calls := calls st ++ triggers w d result;
      unsettled := unsettled st ++ notAwaited w result |}).
Proof.
  intros H. destruct st as [cs us].
  unfold afterIngest, triggers, notAwaited, screenshot, pipelinesReject,
    triggerPipelines, when, bind, respond, throw, awaited, not_awaited, ret, outcome_of.
  destruct H as [Hok | [Hdup Hi]].
  - rewrite Hok.
    destruct (fundraising result), (truthy_opt (id result)),
      (pipelinesResolve w (or_str (id result) [])),
      (truthy_opt (landingUrl result)), (isForwarded d), (truthy (sender d));
      simpl; now rewrite <- ?app_assoc, ?app_nil_r.
  - rewrite Hdup, Hi.
    destruct (ok result), (fundraising result),
      (pipelinesResolve w (or_str (id result) [])),
      (truthy_opt (landingUrl result)), (isForwarded d), (truthy (sender d));
      simpl; now rewrite <- ?app_assoc, ?app_nil_r.
Qed.

(** The same for [POST]. *)
Lemma POST_duplicate (w : World) (req : Request) (d : Decoded) (result : IngestResult) :
  decode req = Some d ->
  truthy_opt (SUPABASE_SERVICE_ROLE_KEY w) = true ->
  ingestTextSubmission w (ingestArgs w d) = Some result ->
  ok result = false -> error_is result (js "duplicate") = true ->
  POST w req = ({| status := 200; body := BodyDuplicate (id result) |},
                [Ingest (ingestArgs w d)]) /\
  POST_unsettled w req = [].
Proof.
  intros Hd Hk Hi Hok Hdup. unfold POST, POST_unsettled.
  rewrite (POST_ingested w req d result Hd Hk Hi).
  rewrite afterIngest_duplicate by assumption. split; reflexivity.
Qed.

Lemma POST_failed (w : World) (req : Request) (d : Decoded) (result : IngestResult) :
  decode req = Some d ->
  truthy_opt (SUPABASE_SERVICE_ROLE_KEY w) = true ->
  ingestTextSubmission w (ingestArgs w d) = Some result ->
  ok result = false -> error_is result (js "duplicate") = false ->
  truthy_opt (id result) = false ->
  POST w req = (ingest_failed, [Ingest (ingestArgs w d)]) /\
  POST_unsettled w req = [].
Proof.
  intros Hd Hk Hi Hok Hdup Hid. unfold POST, POST_unsettled.
  rewrite (POST_ingested w req d result Hd Hk Hi).
  rewrite afterIngest_failed by assumption. split; reflexivity.
Qed.

Lemma POST_proceeds (w : World) (req : Request) (d : Decoded) (result : IngestResult) :
  decode req = Some d ->
  truthy_opt (SUPABASE_SERVICE_ROLE_KEY w) = true ->
  ingestTextSubmission w (ingestArgs w d) = Some result ->
  ok result = true \/
  (error_is result (js "duplicate") = false /\ truthy_opt (id result) = true) ->
  POST w req =
    ((if pipelinesReject w result then internal_error
      else {| status := 200; body := BodyOk (id result) |}),
     Ingest (ingestArgs w d) :: triggers w d result) /\
  POST_unsettled w req = notAwaited w result.
Proof.
  intros Hd Hk Hi H. unfold POST, POST_unsettled.
  rewrite (POST_ingested w req d result Hd Hk Hi).
  rewrite afterIngest_proceeds by assumption. split; reflexivity.
Qed.

(* ------------------------------------------------------------------ *)
(** ** C1, C2, C5: the recovered From line *)

(** C1 (as amended).  If [originalFromLine] is present at the end of the
    processing of a request, then either it was recovered from the body and
    validated, so that it contains no configured honeytrap address in any
    character case and in particular is none of them, or it is the envelope
    sender of a message that is not a forward and from which no From line
    was recovered: that fallback is not validated. *)
Theorem C1_from_line_validated_unless_fallback
    (e : Env) (req : Request) (d : Decoded) (line : jsstring) :
  decode req = Some d ->
  originalFromLine e d = Some line ->
  (forall email, In email (config_list (HONEYTRAP_EMAILS e)) ->
                 occursCI line email = false /\ line <> email) \/
  (recoveredFromLine e d = None /\ isForwarded d = false /\ line = sender d).
Proof.
  intros _ H. apply originalFromLine_cases in H as [Hr | (Hr & Hf & _ & Hl)].
  - left. intros email Hin.
    apply recoveredFromLine_validated in Hr as [fromLine Hv].
    apply validateAndCleanFromLine_sound in Hv as (_ & _ & Hall).
    specialize (Hall email Hin). split; [exact Hall|].
    intros ->. rewrite occursCI_refl in Hall. discriminate.
  - right. tauto.
Qed.

(** C1, witness: the Gmail forward of a message of Jane Doe. *)
Lemma C1_witness_gmail_forward :
  (forall email, In email (config_list (HONEYTRAP_EMAILS Examples.honeytraps)) ->
     occursCI (js "Jane Doe <jane@example.org>") email = false /\
     js "Jane Doe <jane@example.org>" <> email) \/
  (recoveredFromLine Examples.honeytraps (Examples.decoded Examples.gmail_forward) = None /\
   isForwarded (Examples.decoded Examples.gmail_forward) = false /\
   js "Jane Doe <jane@example.org>" = sender (Examples.decoded Examples.gmail_forward)).
Proof.
  apply (C1_from_line_validated_unless_fallback
           Examples.honeytraps Examples.gmail_forward
           (Examples.decoded Examples.gmail_forward)
           (js "Jane Doe <jane@example.org>"));
    vm_compute; reflexivity.
Defined.

(** C1, counterexample: a message that is no forward comes from the
    configured honeytrap address sender@decoy.org; [originalFromLine] is
    that address. *)
Lemma C1_counterexample_decoy_sender :
  decode Examples.decoy_direct = Some (Examples.decoded Examples.decoy_direct) /\
  isForwarded (Examples.decoded Examples.decoy_direct) = false /\
  In (js "sender@decoy.org") (config_list (HONEYTRAP_EMAILS Examples.honeytraps)) /\
  originalFromLine Examples.honeytraps (Examples.decoded Examples.decoy_direct)
  = Some (js "sender@decoy.org") /\
  emailFrom (ingestArgs (Examples.world Examples.not_fundraising)
                        (Examples.decoded Examples.decoy_direct))
  = Some (js "sender@decoy.org").
Proof. vm_compute. repeat split; auto. Qed.

(** C2 (as amended).  For a message classified as forwarded from whose
    bodies no From line is recovered, [originalFromLine] stays null; the
    sender address handed on ([detectedSender]) is then what the secondary
    search finds in the text, else the address parsed from the envelope
    sender, else the envelope sender itself. *)
Theorem C2_forwarded_without_from_line
    (e : Env) (req : Request) (d : Decoded) :
  decode req = Some d ->
  isForwarded d = true ->
  recoveredFromLine e d = None ->
  originalFromLine e d = None /\
  detectedSender e d =
    or_str (or_else (extractOriginalSender (redactedRawText e d))
                    (parseEmailAddress (Some (sender d))))
           (sender d).
Proof.
  intros _ Hf Hr.
  assert (originalFromLine e d = None) as Ho.
  { unfold originalFromLine. rewrite Hr, Hf. simpl.
    now rewrite andb_false_r. }
  split; [exact Ho|].
  unfold detectedSender. rewrite Ho. reflexivity.
Qed.

(** C2, witness: a forward in which nothing of the original headers is
    left. *)
Lemma C2_witness_bare_forward :
  originalFromLine Examples.honeytraps (Examples.decoded Examples.bare_forward) = None /\
  detectedSender Examples.honeytraps (Examples.decoded Examples.bare_forward) =
    or_str (or_else (extractOriginalSender
                       (redactedRawText Examples.honeytraps
                          (Examples.decoded Examples.bare_forward)))
                    (parseEmailAddress
                       (Some (sender (Examples.decoded Examples.bare_forward)))))
           (sender (Examples.decoded Examples.bare_forward)).
Proof.
  apply (C2_forwarded_without_from_line Examples.honeytraps Examples.bare_forward);
    vm_compute; reflexivity.
Defined.

(** C2, counterexample: the same forward; the From line stays null but the
    sender address handed to the ingestion is the forwarder's. *)
Lemma C2_counterexample_sender_backfilled :
  decode Examples.bare_forward = Some (Examples.decoded Examples.bare_forward) /\
  isForwarded (Examples.decoded Examples.bare_forward) = true /\
  recoveredFromLine Examples.honeytraps (Examples.decoded Examples.bare_forward) = None /\
  sender (Examples.decoded Examples.bare_forward) = js "bob@example.com" /\
  senderId (ingestArgs (Examples.world Examples.not_fundraising)
                       (Examples.decoded Examples.bare_forward))
  = Some (js "bob@example.com").
Proof. vm_compute. repeat split. Qed.

(** C5 (as amended).  For a request that is not classified as forwarded
    and has a non-empty envelope sender, [originalFromLine] is the From
    line recovered from the body when there is one, and the envelope sender
    otherwise. *)
Theorem C5_not_forwarded_from_line
    (e : Env) (req : Request) (d : Decoded) :
  decode req = Some d ->
  isForwarded d = false ->
  truthy (sender d) = true ->
  originalFromLine e d =
    match recoveredFromLine e d with
    | Some line => Some line
    | None => Some (sender d)
    end.
Proof.
  intros _ Hf Hs. unfold originalFromLine. cbv zeta.
  destruct (recoveredFromLine e d) as [line|] eqn:Hr.
  - simpl. now rewrite (recoveredFromLine_truthy e d _ Hr).
  - simpl. now rewrite Hs, Hf.
Qed.

(** C5, witness: a message that is no forward and has no From line in its
    body; the From line is the envelope sender. *)
Lemma C5_witness_direct_message :
  originalFromLine Examples.honeytraps (Examples.decoded Examples.decoy_direct)
  = Some (js "sender@decoy.org").
Proof.
  apply (C5_not_forwarded_from_line Examples.honeytraps Examples.decoy_direct
           (Examples.decoded Examples.decoy_direct));
    vm_compute; reflexivity.
Defined.

(** C5, counterexample: the body begins with a [From:] line, which is a
    forward marker for the recovery but not for the classification; the
    From line is Jane Doe's and not the envelope sender bob@example.com. *)
Lemma C5_counterexample_from_line_in_body :
  decode Examples.outlook_style = Some (Examples.decoded Examples.outlook_style) /\
  isForwarded (Examples.decoded Examples.outlook_style) = false /\
  sender (Examples.decoded Examples.outlook_style) = js "bob@example.com" /\
  originalFromLine Examples.honeytraps (Examples.decoded Examples.outlook_style)
  = Some (js "Jane Doe <jane@example.org>").
Proof. vm_compute. repeat split. Qed.

(* ------------------------------------------------------------------ *)
(** ** C3, C9, C10: what follows the ingestion *)

Lemma notice_calls_app (tr1 tr2 : list Effect) :
  notice_calls (tr1 ++ tr2) = notice_calls tr1 + notice_calls tr2.
Proof. unfold notice_calls. now rewrite filter_app, length_app. Qed.

(** C3 (as amended).  When the ingestion reports no duplicate, finds the
    message not to be a fundraising one and has assigned an id, the
    non-fundraising notice is called exactly once, and awaited, if the
    message is classified as forwarded and the envelope sender is not
    empty, and is not called otherwise; whether the envelope sender is a
    configured decoy plays no part.  Awaited: when the 200 response is
    returned, the handler has no call left that it has not waited for. *)
Theorem C3_notice_once_iff_forward_with_sender
    (w : World) (req : Request) (d : Decoded) (result : IngestResult) :
  decode req = Some d ->
  truthy_opt (SUPABASE_SERVICE_ROLE_KEY w) = true ->
  ingestTextSubmission w (ingestArgs w d) = Some result ->
  (ok result = true \/ error_is result (js "duplicate") = false) ->
  fundraising result = false ->
  truthy_opt (id result) = true ->
  POST w req =
    ({| status := 200; body := BodyOk (id result) |},
     Ingest (ingestArgs w d) ::
     (if (isForwarded d && truthy (sender d))%bool
      then [FetchNonFundraisingNotice
              (site_url w "/api/send-non-fundraising-notice") (or_str (id result) [])]
      else [])) /\
  notice_calls (snd (POST w req)) =
    (if (isForwarded d && truthy (sender d))%bool then 1 else 0) /\
  POST_unsettled w req = [].
Proof.
  intros Hd Hk Hi Hnd Hnf Hid.
  destruct (POST_proceeds w req d result Hd Hk Hi) as [-> ->]; [tauto|].
  unfold triggers, notAwaited, pipelinesReject. rewrite Hnf, Hid. simpl.
  destruct (isForwarded d && truthy (sender d))%bool; repeat split; reflexivity.
Qed.

(** C3, witness: the Gmail forward sent on by bob, found not to be a
    fundraising message. *)
Lemma C3_witness_forward_by_bob :
  POST (Examples.world Examples.not_fundraising) Examples.gmail_forward =
    ({| status := 200; body := BodyOk (Some (js "42")) |},
     [Ingest (ingestArgs (Examples.world Examples.not_fundraising)
                         (Examples.decoded Examples.gmail_forward));
      FetchNonFundraisingNotice
        (js "https://abjail.example/api/send-non-fundraising-notice") (js "42")]) /\
  notice_calls (snd (POST (Examples.world Examples.not_fundraising)
                          Examples.gmail_forward)) = 1 /\
  POST_unsettled (Examples.world Examples.not_fundraising) Examples.gmail_forward = [].
Proof.
  apply (C3_notice_once_iff_forward_with_sender
           (Examples.world Examples.not_fundraising) Examples.gmail_forward
           (Examples.decoded Examples.gmail_forward) Examples.not_fundraising);
    try (vm_compute; reflexivity).
  left; reflexivity.
Defined.

(** The screenshot, by contrast, is not awaited: it is still unsettled
    when the response is returned. *)
Example screenshot_is_not_awaited :
  POST_unsettled (Examples.world Examples.failed_with_id) Examples.gmail_forward
  = [FetchScreenshot (js "https://abjail.example/api/screenshot-actblue")
       (js "42") (js "https://secure.actblue.com/donate/x")].
Proof. vm_compute. reflexivity. Qed.

(** C3, counterexample: the forwarder is the configured decoy
    sender@decoy.org, so that no forwarder address is known
    ([forwarderEmail] is null), and the notice is called all the same. *)
Lemma C3_counterexample_decoy_forwarder :
  isForwarded (Examples.decoded Examples.decoy_forward) = true /\
  In (sender (Examples.decoded Examples.decoy_forward))
     (config_list (HONEYTRAP_EMAILS Examples.honeytraps)) /\
  forwarderEmail (ingestArgs (Examples.world Examples.not_fundraising)
                             (Examples.decoded Examples.decoy_forward)) = None /\
  notice_calls (snd (POST (Examples.world Examples.not_fundraising)
                          Examples.decoy_forward)) = 1.
Proof. vm_compute. repeat split; auto. Qed.

(** C9.  Whenever the ingestion reports a duplicate ([ok] false with the
    error "duplicate"), the response is 200 with [{ok, duplicate, id}] and
    the ingestion is the only collaborator that was called. *)
Theorem C9_duplicate_stops_the_pipeline
    (w : World) (req : Request) (d : Decoded) (result : IngestResult) :
  decode req = Some d ->
  truthy_opt (SUPABASE_SERVICE_ROLE_KEY w) = true ->
  ingestTextSubmission w (ingestArgs w d) = Some result ->
  ok result = false ->
  error result = Some (js "duplicate") ->
  POST w req =
    ({| status := 200; body := BodyDuplicate (id result) |},
     [Ingest (ingestArgs w d)]) /\
  filter is_trigger (snd (POST w req)) = [].
Proof.
  intros Hd Hk Hi Hok Herr.
  destruct (POST_duplicate w req d result Hd Hk Hi Hok) as [-> _].
  - unfold error_is. rewrite Herr. reflexivity.
  - split; reflexivity.
Qed.

(** C9, witness: the Gmail forward, already known as case 42. *)
Lemma C9_witness_duplicate_forward :
  POST (Examples.world Examples.duplicate_of_42) Examples.gmail_forward =
    ({| status := 200; body := BodyDuplicate (Some (js "42")) |},
     [Ingest (ingestArgs (Examples.world Examples.duplicate_of_42)
                         (Examples.decoded Examples.gmail_forward))]) /\
  filter is_trigger (snd (POST (Examples.world Examples.duplicate_of_42)
                               Examples.gmail_forward)) = [].
Proof.
  apply (C9_duplicate_stops_the_pipeline
           (Examples.world Examples.duplicate_of_42) Examples.gmail_forward
           (Examples.decoded Examples.gmail_forward) Examples.duplicate_of_42);
    vm_compute; reflexivity.
Defined.

(** C10 (as amended).  If the ingestion returns [ok] false with an error
    other than "duplicate" and still supplies an id, the handler does not
    answer [ingest_failed]: it goes through the trigger branches and
    answers 200 with [{ok, id}], unless the pipeline trigger, which is
    called and awaited when the result is a fundraising one, fails: then
    the answer is 500 [internal_error], after the call. *)
Theorem C10_failure_with_id_falls_through
    (w : World) (req : Request) (d : Decoded) (result : IngestResult) :
  decode req = Some d ->
  truthy_opt (SUPABASE_SERVICE_ROLE_KEY w) = true ->
  ingestTextSubmission w (ingestArgs w d) = Some result ->
  ok result = false ->
  error_is result (js "duplicate") = false ->
  truthy_opt (id result) = true ->
  POST w req =
    ((if (fundraising result && negb (pipelinesResolve w (or_str (id result) [])))%bool
      then internal_error
      else {| status := 200; body := BodyOk (id result) |}),
     Ingest (ingestArgs w d) :: triggers w d result) /\
  fst (POST w req) <> ingest_failed.
Proof.
  intros Hd Hk Hi Hok Herr Hid.
  destruct (POST_proceeds w req d result Hd Hk Hi) as [-> _]; [tauto|].
  unfold pipelinesReject. rewrite Hid, andb_true_r.
  split; [reflexivity|].
  destruct (fundraising result && negb (pipelinesResolve w (or_str (id result) [])))%bool;
    discriminate.
Qed.

(** C10, witness: a storage time-out that still carries the id 42, for a
    fundraising message with a landing page; the pipelines and the
    screenshot are triggered and the answer is 200. *)
Lemma C10_witness_failed_with_id :
  POST (Examples.world Examples.failed_with_id) Examples.gmail_forward =
    ({| status := 200; body := BodyOk (Some (js "42")) |},
     [Ingest (ingestArgs (Examples.world Examples.failed_with_id)
                         (Examples.decoded Examples.gmail_forward));
      TriggerPipelines (js "42");
      FetchScreenshot (js "https://abjail.example/api/screenshot-actblue")
        (js "42") (js "https://secure.actblue.com/donate/x")]) /\
  fst (POST (Examples.world Examples.failed_with_id) Examples.gmail_forward)
  <> ingest_failed.
Proof.
  apply (C10_failure_with_id_falls_through
           (Examples.world Examples.failed_with_id) Examples.gmail_forward
           (Examples.decoded Examples.gmail_forward) Examples.failed_with_id);
    vm_compute; reflexivity.
Defined.

(** C10, counterexample: the same result of the ingestion when the
    pipeline trigger fails; the answer is not 200 but 500
    [internal_error], after the ingestion and the pipeline call. *)
Lemma C10_counterexample_pipelines_fail :
  ok Examples.failed_with_id = false /\
  error_is Examples.failed_with_id (js "duplicate") = false /\
  id Examples.failed_with_id = Some (js "42") /\
  POST (Examples.world_pipelines_down Examples.failed_with_id) Examples.gmail_forward =
    (internal_error,
     [Ingest (ingestArgs (Examples.world_pipelines_down Examples.failed_with_id)
                         (Examples.decoded Examples.gmail_forward));
      TriggerPipelines (js "42")]).
Proof. vm_compute. repeat split; reflexivity. Qed.

(* ------------------------------------------------------------------ *)
(** ** C4: the payload decoder *)

(** The two branches that read the body with [req.text()], the
    URL-encoded one and the fallback, always produce the fields. *)
Lemma decode_total_unless_multipart (req : Request) :
  includes (or_str (content_type req) [])
           (js "application/x-www-form-urlencoded") = true \/
  (includes (or_str (content_type req) []) (js "multipart/form-data") = false /\
   includes (or_str (content_type req) []) (js "application/json") = false) ->
  exists d, decode req = Some d.
Proof.
  unfold decode. intros [-> | [-> ->]]; [eauto|].
  destruct (includes _ (js "application/x-www-form-urlencoded")); eauto.
Qed.

(** The JSON branch raises only where [String(v)] does, and the multipart
    branch there or at [req.formData()]. *)
Lemma decode_None (req : Request) :
  decode req = None ->
  (includes (or_str (content_type req) []) (js "multipart/form-data") = true /\
   match body_formData req with
   | Some form => read_fields form = None
   | None => True
   end) \/
  (includes (or_str (content_type req) []) (js "application/json") = true /\
   exists json, body_json req = Some json /\ read_fields json = None).
Proof.
  unfold decode.
  destruct (includes _ (js "application/x-www-form-urlencoded")); [discriminate|].
  destruct (includes _ (js "multipart/form-data")).
  - intros H. left. split; [reflexivity|]. now destruct (body_formData req).
  - destruct (includes _ (js "application/json")); [|discriminate].
    destruct (body_json req) as [json|]; [|discriminate].
    intros H. right. eauto.
Qed.

(** C4, at the failing input.  A request that declares a multipart form
    and whose body cannot be read as one: [await req.formData()] raises,
    nothing is decoded, and the handler answers 500 [internal_error]
    without having called any collaborator. *)
Theorem C4_malformed_multipart_raises (w : World) :
  decode Examples.malformed_multipart = None /\
  POST w Examples.malformed_multipart = (internal_error, []).
Proof. split; reflexivity. Qed.

(* ------------------------------------------------------------------ *)
(** ** C7: dates *)

Section DateProperties.

Variable now : Z.
Variable parse : jsstring -> option Z.

Lemma isValidEmailDate_window (t : Z) :
  isValidEmailDate now (Some t) = true <-> in_window now t.
Proof.
  unfold isValidEmailDate, in_window, one_year_ms, one_day_ms.
  rewrite andb_true_iff, !Z.leb_le. lia.
Qed.

(** A line yields a date only if it is a date header whose value parses to
    a time of the window. *)
Lemma dateOfLine_Some (line : jsstring) (t : Z) :
  dateOfLine now parse line = Some t <->
  exists dateStr, dateStrOfLine line = Some dateStr /\
                  parseEmailDateString parse dateStr = Some t /\ in_window now t.
Proof.
  unfold dateOfLine. destruct (dateStrOfLine line) as [dateStr|].
  - destruct (parseEmailDateString parse dateStr) as [p|] eqn:Hp.
    + destruct (isValidEmailDate now (Some p)) eqn:Hv.
      * apply isValidEmailDate_window in Hv. split.
        -- intros [= <-]. eauto.
        -- intros (s & [= <-] & Hs & _). congruence.
      * split; [discriminate|]. intros (s & [= <-] & Hs & Hw).
        apply isValidEmailDate_window in Hw. congruence.
    + split; [discriminate|]. intros (s & [= <-] & Hs & _). congruence.
  - split; [discriminate|]. intros (s & Hs & _). discriminate.
Qed.

Lemma searchDateHeader_Some (ls : list jsstring) :
  forall k t, searchDateHeader now parse k ls = Some t ->
              exists line, In line ls /\ dateOfLine now parse line = Some t.
Proof.
  induction ls as [|l ls IH]; intros k t; simpl; [discriminate|].
  destruct (dateOfLine now parse l) as [t'|] eqn:Hl.
  - intros [= <-]. eauto.
  - destruct (eqb_str (trim l) [] && (1 <? k))%bool; [discriminate|].
    intros H. apply IH in H as (line & Hin & Hline). eauto.
Qed.

Lemma firstn_In (n : nat) (ls : list jsstring) (x : jsstring) :
  In x (firstn n ls) -> In x ls.
Proof. intros H. rewrite <- (firstn_skipn n ls). apply in_or_app. now left. Qed.

Lemma scanForDate_Some (n : nat) :
  forall ls t, scanForDate now parse n ls = Some t ->
               exists line, In line ls /\ dateOfLine now parse line = Some t.
Proof.
  induction n as [|n IH]; intros ls t; [discriminate|].
  destruct ls as [|l ls]; [discriminate|].
  cbn [scanForDate].
  assert (scanForDate now parse n ls = Some t ->
          exists line, In line (l :: ls) /\ dateOfLine now parse line = Some t) as Hrest.
  { intros H. apply IH in H as (line & Hin & Hline). exists line. split; [now right|easy]. }
  destruct (isForwardBoundary l); [|exact Hrest].
  destruct (searchDateHeader now parse 0 (firstn 20 (l :: ls))) as [t'|] eqn:Hs;
    [|exact Hrest].
  intros [= <-]. apply searchDateHeader_Some in Hs as (line & Hin & Hline).
  exists line. split; [eapply firstn_In, Hin | exact Hline].
Qed.

Lemma extractOriginalDateFromBody_Some (text : jsstring) (t : Z) :
  extractOriginalDateFromBody now parse text = Some t ->
  exists line dateStr,
    In line (dateLines text) /\ dateStrOfLine line = Some dateStr /\
    parseEmailDateString parse dateStr = Some t /\ in_window now t.
Proof.
  unfold extractOriginalDateFromBody. intros H.
  destruct (scanForDate_Some 100 (dateLines text) t H) as (line & Hin & Hline).
  destruct (proj1 (dateOfLine_Some line t) Hline) as (dateStr & H1 & H2 & H3).
  exists line, dateStr. auto.
Qed.

Lemma lineRejected_all (ls : list jsstring) :
  forallb (lineRejected now parse) ls = true ->
  forall line dateStr t,
    In line ls -> dateStrOfLine line = Some dateStr ->
    parseEmailDateString parse dateStr = Some t -> ~ in_window now t.
Proof.
  intros Hall line dateStr t Hin Hs Hp Hw.
  rewrite forallb_forall in Hall. specialize (Hall line Hin).
  unfold lineRejected in Hall. rewrite Hs, Hp in Hall.
  apply isValidEmailDate_window in Hw. rewrite Hw in Hall. discriminate.
Qed.

End DateProperties.

(** C7.  Date normalisation is a total function that gives null in place of
    a date (i) from [parseEmailDateString] when the direct parse, the parse
    without the word "at" and the parse of the reassembled month, day, year
    and time all fail; (ii) from a date header line whose value does not
    parse or parses to a time outside of [now - 365 days, now + 1 day];
    (iii) from [extractOriginalDateFromBody] when that is so of every date
    header line of the text; and (iv) whatever [extractOriginalEmailDate]
    returns lies in the window. *)
Theorem C7_dates_outside_the_window_are_null (now : Z) (parse : jsstring -> option Z) :
  (forall dateStr,
      parse dateStr = None ->
      parse (replace flag_i re_at (js " ") dateStr) = None ->
      (forall str, reassembled dateStr = Some str -> parse str = None) ->
      parseEmailDateString parse dateStr = None) /\
  (forall line dateStr,
      dateStrOfLine line = Some dateStr ->
      (parseEmailDateString parse dateStr = None \/
       exists t, parseEmailDateString parse dateStr = Some t /\ ~ in_window now t) ->
      dateOfLine now parse line = None) /\
  (forall text,
      (forall line dateStr t,
          In line (dateLines text) -> dateStrOfLine line = Some dateStr ->
          parseEmailDateString parse dateStr = Some t -> ~ in_window now t) ->
      extractOriginalDateFromBody now parse text = None) /\
  (forall headers bodyText bodyHtml t,
      extractOriginalEmailDate now parse headers bodyText bodyHtml = Some t ->
      in_window now t).
Proof.
  split; [|split; [|split]].
  - intros dateStr H1 H2 H3. unfold parseEmailDateString.
    destruct (negb (truthy dateStr)); [reflexivity|].
    rewrite H1, H2. destruct (reassembled dateStr) as [str|]; [|reflexivity].
    now apply H3.
  - intros line dateStr Hl Hrej.
    destruct (dateOfLine now parse line) as [t|] eqn:Hd; [|reflexivity].
    apply dateOfLine_Some in Hd as (s & Hs & Hp & Hw).
    rewrite Hl in Hs. injection Hs as <-.
    destruct Hrej as [Hn | (t' & Ht' & Hout)]; [congruence|].
    rewrite Hp in Ht'. injection Ht' as <-. contradiction.
  - intros text Hall.
    destruct (extractOriginalDateFromBody now parse text) as [t|] eqn:He;
      [|reflexivity].
    apply extractOriginalDateFromBody_Some in He as (line & dateStr & Hin & Hs & Hp & Hw).
    exfalso. exact (Hall line dateStr t Hin Hs Hp Hw).
  - intros headers bodyText bodyHtml t. unfold extractOriginalEmailDate.
    destruct (extractOriginalDateFromBody now parse bodyText) as [t'|] eqn:Hb.
    + intros [= <-].
      apply extractOriginalDateFromBody_Some in Hb as (_ & _ & _ & _ & _ & Hw).
      exact Hw.
    + destruct (truthy bodyHtml); [|discriminate].
      intros H.
      apply extractOriginalDateFromBody_Some in H as (_ & _ & _ & _ & _ & Hw).
      exact Hw.
Qed.

(** C7, witness: on 5 January 2026 a forward whose [Date:] line is of
    5 January 2024 yields null, not that date. *)
Lemma C7_witness_two_years_old :
  extractOriginalDateFromBody Examples.jan_5_2026 Examples.two_dates
    Examples.old_forward_text = None.
Proof.
  apply (proj1 (proj2 (proj2
           (C7_dates_outside_the_window_are_null Examples.jan_5_2026 Examples.two_dates)))).
  apply lineRejected_all. vm_compute. reflexivity.
Defined.

(** The same parser and clock accept a date of the same day in a forward
    of Apple Mail, through the second strategy (the word "at" removed). *)
Example date_of_apple_forward :
  extractOriginalDateFromBody Examples.jan_5_2026 Examples.two_dates
    Examples.apple_forward_text = Some 1767625200000%Z.
Proof. vm_compute. reflexivity. Qed.

(** In the plain text of a Gmail forward the separator line is removed
    before the date is looked for, and the normalisation for HTML takes the
    address between angle brackets for a tag: no boundary line is left,
    and no date is recovered from the plain text alone. *)
Example date_of_gmail_plain_text :
  emailSentAt (ingestArgs (Examples.world Examples.not_fundraising)
                          (Examples.decoded Examples.gmail_forward)) = None.
Proof. vm_compute. reflexivity. Qed.

(* ------------------------------------------------------------------ *)
(** ** C6, C8: redaction *)

(** *** Characters and prefixes, whatever the case *)

Lemma chr_match_refl (c : ascii) : chr_match flag_i c c = true.
Proof. apply ascii_eqb_refl. Qed.

Lemma chr_match_sym (a b : ascii) : chr_match flag_i a b = chr_match flag_i b a.
Proof. unfold chr_match. apply Ascii.eqb_sym. Qed.

Lemma all_ascii_complete (c : ascii) : In c all_ascii.
Proof.
  unfold all_ascii. rewrite <- (ascii_nat_embedding c).
  apply in_map, in_seq. pose proof (nat_ascii_bounded c). lia.
Qed.

(** Two characters have the same upper-case form exactly when they have the
    same lower-case form: the matcher's comparison and [toLowerCase] agree. *)
Lemma case_forms_agree (x y : ascii) :
  Ascii.eqb (toLowerChar x) (toLowerChar y) = chr_match flag_i y x.
Proof.
  assert (forallb (fun a => forallb (fun b =>
            Bool.eqb (Ascii.eqb (toLowerChar a) (toLowerChar b))
                     (chr_match flag_i b a)) all_ascii) all_ascii = true) as Hall
    by (vm_compute; reflexivity).
  rewrite forallb_forall in Hall. specialize (Hall x (all_ascii_complete x)).
  rewrite forallb_forall in Hall. specialize (Hall y (all_ascii_complete y)).
  now apply Bool.eqb_prop.
Qed.

Lemma startsWithCI_nil (s : jsstring) : startsWithCI s [] = true.
Proof. now destruct s. Qed.

Lemma startsWithCI_of_nil (e : jsstring) : startsWithCI [] e = true -> e = [].
Proof. now destruct e. Qed.

Lemma startsWithCI_refl (s : jsstring) : startsWithCI s s = true.
Proof. induction s; simpl; [reflexivity|]. now rewrite chr_match_refl. Qed.

Lemma startsWithCI_length (s p : jsstring) :
  startsWithCI s p = true -> length p <= length s.
Proof.
  revert s. induction p as [|y p IH]; intros s; simpl; [lia|].
  destruct s as [|x s]; [discriminate|].
  intros H. apply andb_true_iff in H as [_ H]. apply IH in H. simpl. lia.
Qed.

Lemma startsWithCI_app (b y e : jsstring) :
  startsWithCI b e = true -> startsWithCI (b ++ y) e = true.
Proof.
  revert b. induction e as [|e1 e IH]; intros b H.
  - apply startsWithCI_nil.
  - destruct b as [|x b]; [discriminate|]. simpl in *.
    apply andb_true_iff in H as [-> H]. now apply IH.
Qed.

(** A beginning of [x ++ y] begins in [x]: it is a beginning of [x], or [x]
    is a beginning of it. *)
Lemma startsWithCI_app_inv (x y e : jsstring) :
  startsWithCI (x ++ y) e = true -> compatible x e = true.
Proof.
  unfold compatible. revert e. induction x as [|c x IH]; intros e H.
  - rewrite startsWithCI_nil. apply orb_true_r.
  - destruct e as [|e1 e]; [reflexivity|]. simpl in *.
    apply andb_true_iff in H as [Hc H]. rewrite Hc, (chr_match_sym c e1), Hc.
    simpl. now apply IH.
Qed.

Lemma startsWith_lower (b e : jsstring) :
  startsWith (toLowerCase b) (toLowerCase e) = startsWithCI b e.
Proof.
  revert b. induction e as [|y e IH]; intros b.
  - rewrite startsWithCI_nil. now destruct b.
  - destruct b as [|x b]; [reflexivity|]. simpl.
    now rewrite IH, case_forms_agree.
Qed.

Lemma includes_eq (s p : jsstring) :
  includes s p =
  (startsWith s p || match s with [] => false | _ :: s' => includes s' p end)%bool.
Proof. now destruct s. Qed.

Lemma occursCI_occursIn (t e : jsstring) :
  occursCI t e = true <-> occursIn e t.
Proof.
  unfold occursCI, occursIn. induction t as [|c t IH].
  - rewrite includes_eq, startsWith_lower. cbn [toLowerCase map].
    rewrite orb_false_r. split.
    + intros H. now exists [], [].
    + intros (a & b & Hab & H). symmetry in Hab.
      apply app_eq_nil in Hab as [_ ->]. exact H.
  - rewrite includes_eq, startsWith_lower. cbn [toLowerCase map].
    fold (toLowerCase t). rewrite orb_true_iff, IH. split.
    + intros [H | (a & b & -> & H)].
      * now exists [], (c :: t).
      * now exists (c :: a), b.
    + intros (a & b & Hab & H). destruct a as [|c' a].
      * left. simpl in Hab. now subst b.
      * right. injection Hab as _ ->. now exists a, b.
Qed.

Lemma occursIn_false (t e : jsstring) :
  occursCI t e = false <-> ~ occursIn e t.
Proof.
  rewrite <- occursCI_occursIn. destruct (occursCI t e); split; congruence.
Qed.

Lemma suffixes_In (a l : jsstring) : l <> [] -> In l (suffixes (a ++ l)).
Proof.
  intros Hl. induction a as [|c a IH]; simpl.
  - destruct l; [congruence | now left].
  - now right.
Qed.

(** *** The literal pattern of the redaction

    The matcher on the pattern of an identifier is the case-insensitive
    prefix test, and the global replacement is [replaceLit]. *)

Lemma mt_lit_true (q : jsstring) :
  forall k s, startsWithCI (rest s) q = true ->
    exists p, mt flag_i (lit_chars q) k s =
              k {| prev := p; rest := skipn (length q) (rest s); caps := caps s |}.
Proof.
  induction q as [|c q IH]; intros k s H.
  - exists (prev s). now destruct s.
  - destruct s as [p [|x tl] cs]; [discriminate|]. simpl in H.
    apply andb_true_iff in H as [Hc H].
    destruct (IH k {| prev := Some x; rest := tl; caps := cs |} H) as [p' Hp'].
    exists p'. change (lit_chars (c :: q)) with (Seq (Chr c) (lit_chars q)).
    cbn [mt]. unfold step_char. cbn [rest caps]. rewrite Hc. exact Hp'.
Qed.

Lemma mt_lit_false (q : jsstring) :
  forall k s, startsWithCI (rest s) q = false ->
              mt flag_i (lit_chars q) k s = None.
Proof.
  induction q as [|c q IH]; intros k s H.
  - now rewrite startsWithCI_nil in H.
  - change (lit_chars (c :: q)) with (Seq (Chr c) (lit_chars q)).
    cbn [mt]. unfold step_char.
    destruct s as [p [|x tl] cs]; cbn [rest caps]; [reflexivity|].
    simpl in H. destruct (chr_match flag_i c x); [|reflexivity].
    now apply IH.
Qed.

Lemma replace_from_lit (q P : jsstring) :
  q <> [] ->
  forall s n p, replace_from flag_i (lit_chars q) P n p s = replaceLit q P n s.
Proof.
  intros Hq. induction s as [|c tl IH]; intros n p.
  - destruct n; [|reflexivity]. cbn [replace_from replaceLit]. unfold match_at.
    rewrite mt_lit_false; [reflexivity|]. now destruct q.
  - destruct n as [|n]; cbn [replace_from replaceLit]; [|apply IH].
    unfold match_at. destruct (startsWithCI (c :: tl) q) eqn:Hm.
    + destruct (mt_lit_true q Some (start_state p (c :: tl)) Hm) as [p' ->].
      cbn [rest start_state].
      pose proof (startsWithCI_length _ _ Hm) as Hlen.
      rewrite length_skipn.
      assert (0 < length q) by (destruct q; simpl; [congruence | lia]).
      replace (length (c :: tl) - (length (c :: tl) - length q))
        with (S (length q - 1)) by lia.
      now rewrite IH.
    + rewrite (mt_lit_false q Some (start_state p (c :: tl)) Hm). now rewrite IH.
Qed.

Lemma replaceAll_lit (q P s : jsstring) :
  q <> [] -> replaceAll flag_i (lit_chars q) P s = replaceLit q P 0 s.
Proof. intros Hq. now apply replace_from_lit. Qed.

Lemma replaceLit_skip (q P : jsstring) :
  forall s n, replaceLit q P n s = replaceLit q P 0 (skipn n s).
Proof.
  induction s as [|c tl IH]; intros [|n]; try reflexivity.
  cbn [replaceLit skipn]. apply IH.
Qed.

(** The equation of the replacement at a character. *)
Lemma replaceLit_cons (q P : jsstring) (c : ascii) (tl : jsstring) :
  q <> [] ->
  replaceLit q P 0 (c :: tl) =
    if startsWithCI (c :: tl) q
    then P ++ replaceLit q P 0 (skipn (length q) (c :: tl))
    else c :: replaceLit q P 0 tl.
Proof.
  intros Hq. cbn [replaceLit]. destruct (startsWithCI (c :: tl) q); [|reflexivity].
  rewrite replaceLit_skip. destruct q as [|y q]; [congruence|].
  simpl. now rewrite Nat.sub_0_r.
Qed.

(** *** One pass of the redaction *)

Section OnePass.

Variables q P : jsstring.
Hypothesis q_nonempty : q <> [].

(** What the output begins with, the input begins with, for a string none
    of whose ends can run into the placeholder. *)
Lemma replaceLit_prefix :
  forall s e,
    (forall x, In x (suffixes e) -> compatible x P = false) ->
    startsWithCI (replaceLit q P 0 s) e = true ->
    startsWithCI s e = true.
Proof.
  induction s as [|c tl IH]; intros e Hends H; [exact H|].
  rewrite replaceLit_cons in H by assumption.
  destruct e as [|e1 e]; [reflexivity|].
  destruct (startsWithCI (c :: tl) q).
  - apply startsWithCI_app_inv in H. unfold compatible in H.
    rewrite orb_comm in H. fold (compatible (e1 :: e) P) in H.
    rewrite Hends in H; [discriminate | now left].
  - simpl in *. apply andb_true_iff in H as [-> H]. simpl.
    apply IH; [|exact H]. intros x Hx. apply Hends. now right.
Qed.

(** After the pass for [q], a string [e] that cannot overlap the
    placeholder occurs nowhere in the output, provided that [q] matched
    wherever [e] occurred in the input: that is so when [e] is [q], and
    when [e] did not occur. *)
Lemma replaceLit_clean (e : jsstring) :
  e <> [] -> canOverlap P e = false ->
  forall n s,
    length s <= n ->
    (forall a b, s = a ++ b -> startsWithCI b e = true -> startsWithCI b q = true) ->
    ~ occursIn e (replaceLit q P 0 s).
Proof.
  intros He Hov.
  apply orb_false_iff in Hov as [Hinside Hacross].
  assert (forall l, l <> [] -> In l (suffixes P) -> compatible l e = false) as Hin.
  { intros l _ Hl. destruct (compatible l e) eqn:Hc; [|reflexivity].
    assert (existsb (fun s => compatible s e) (suffixes P) = true)
      by (apply existsb_exists; eauto). congruence. }
  assert (forall x, In x (tl (suffixes e)) -> compatible x P = false) as Hends.
  { intros x Hx. destruct (compatible x P) eqn:Hc; [|reflexivity].
    assert (existsb (fun s => compatible s P) (tl (suffixes e)) = true)
      by (apply existsb_exists; eauto). congruence. }
  induction n as [|n IH]; intros s Hlen Hq (a & b & Hab & Hocc).
  - destruct s; [|simpl in Hlen; lia]. simpl in Hab. symmetry in Hab.
    apply app_eq_nil in Hab as [_ ->]. apply startsWithCI_of_nil in Hocc. easy.
  - destruct s as [|c rest].
    { simpl in Hab. symmetry in Hab. apply app_eq_nil in Hab as [_ ->].
      apply startsWithCI_of_nil in Hocc. easy. }
    rewrite replaceLit_cons in Hab by assumption.
    destruct (startsWithCI (c :: rest) q) eqn:Hm.
    + (* a match: the placeholder, then the output of what follows *)
      assert (~ occursIn e (replaceLit q P 0 (skipn (length q) (c :: rest)))) as Hrest.
      { apply IH.
        - rewrite length_skipn.
          change (length (c :: rest)) with (S (length rest)) in *.
          assert (0 < length q) by (destruct q; simpl; [congruence | lia]). lia.
        - intros a' b' Hab'. apply (Hq (firstn (length q) (c :: rest) ++ a') b').
          rewrite <- app_assoc, <- Hab'. symmetry. apply firstn_skipn. }
      apply app_eq_app in Hab as [l [[HP Hb] | [Ha Hb]]].
      * destruct l as [|l1 l].
        -- apply Hrest. simpl in Hb. subst b. now exists [], (replaceLit q P 0 (skipn (length q) (c :: rest))).
        -- rewrite Hb in Hocc. apply startsWithCI_app_inv in Hocc.
           rewrite Hin in Hocc; [discriminate | discriminate |].
           rewrite HP. now apply suffixes_In.
      * apply Hrest. now exists l, b.
    + (* no match: the character is kept *)
      destruct a as [|c' a].
      * simpl in Hab. subst b. destruct e as [|e1 e]; [congruence|].
        simpl in Hocc. apply andb_true_iff in Hocc as [Hc Hocc].
        apply replaceLit_prefix in Hocc; [|exact Hends].
        assert (startsWithCI (c :: rest) (e1 :: e) = true) as Hhere
          by (simpl; now rewrite Hc, Hocc).
        rewrite (Hq [] (c :: rest) eq_refl Hhere) in Hm. discriminate.
      * injection Hab as _ Hab.
        apply (IH rest); [simpl in Hlen; lia | | now exists a, b].
        intros a' b' ->. now apply (Hq (c :: a') b').
Qed.

(** The pass for [q] removes [q]. *)
Lemma replaceLit_removes (s : jsstring) :
  canOverlap P q = false -> ~ occursIn q (replaceLit q P 0 s).
Proof.
  intros Hov. apply (replaceLit_clean q q_nonempty Hov (length s) s (le_n _)).
  auto.
Qed.

(** The pass for [q] brings in no string that did not occur and cannot
    overlap the placeholder. *)
Lemma replaceLit_preserves (e s : jsstring) :
  e <> [] -> canOverlap P e = false ->
  ~ occursIn e s -> ~ occursIn e (replaceLit q P 0 s).
Proof.
  intros He Hov Hno. apply (replaceLit_clean e He Hov (length s) s (le_n _)).
  intros a b -> Hb. exfalso. apply Hno. now exists a, b.
Qed.

(** Where [q] does not occur the pass changes nothing. *)
Lemma replaceLit_identity (s : jsstring) :
  ~ occursIn q s -> replaceLit q P 0 s = s.
Proof.
  induction s as [|c tl IH]; intros Hno; [reflexivity|].
  rewrite replaceLit_cons by assumption.
  destruct (startsWithCI (c :: tl) q) eqn:Hm.
  - exfalso. apply Hno. now exists [], (c :: tl).
  - f_equal. apply IH. intros (a & b & -> & Hb). apply Hno. now exists (c :: a), b.
Qed.

End OnePass.

(** *** All the passes *)

Lemma fold_left_ext_In {A B : Type} (f g : A -> B -> A) (l : list B) :
  (forall a x, In x l -> f a x = g a x) ->
  forall a, fold_left f l a = fold_left g l a.
Proof.
  induction l as [|x l IH]; intros Hfg a; [reflexivity|].
  simpl. rewrite Hfg by now left. apply IH. intros a' x' Hx'. apply Hfg. now right.
Qed.

Lemma config_list_nonempty (v : option jsstring) : all_nonempty (config_list v).
Proof. intros q Hq ->. apply config_list_truthy in Hq. discriminate. Qed.

Lemma all_nonempty_tail (q : jsstring) (qs : list jsstring) :
  all_nonempty (q :: qs) -> q <> [] /\ all_nonempty qs.
Proof. intros H. split; [apply H; now left | intros x Hx; apply H; now right]. Qed.

(** [redactHoneytrap] is the passes for the addresses followed by the
    passes for the ids. *)
Lemma redactHoneytrap_passes (emails ids : list jsstring) (text : jsstring) :
  all_nonempty emails -> all_nonempty ids ->
  redactHoneytrap emails ids text =
  passes id_placeholder ids (passes email_placeholder emails text).
Proof.
  intros He Hi. unfold redactHoneytrap, passes.
  rewrite (fold_left_ext_In
             (fun result email => replaceAll flag_i (lit_chars email)
                                    (js "*******@*******.com") result)
             (fun result q => replaceLit q email_placeholder 0 result) emails)
    by (intros a x Hx; apply replaceAll_lit, He, Hx).
  apply fold_left_ext_In. intros a x Hx. apply replaceAll_lit, Hi, Hx.
Qed.

Lemma passes_preserve (P e : jsstring) (qs : list jsstring) :
  all_nonempty qs -> e <> [] -> canOverlap P e = false ->
  forall t, ~ occursIn e t -> ~ occursIn e (passes P qs t).
Proof.
  intros Hqs He Hov. induction qs as [|q qs IH]; intros t Hno; [exact Hno|].
  apply all_nonempty_tail in Hqs as [Hq Hqs].
  apply (IH Hqs). now apply replaceLit_preserves.
Qed.

Lemma passes_remove (P e : jsstring) (qs : list jsstring) :
  all_nonempty qs -> In e qs -> canOverlap P e = false ->
  forall t, ~ occursIn e (passes P qs t).
Proof.
  intros Hqs Hin Hov. induction qs as [|q qs IH]; intros t; [contradiction|].
  pose proof (Hqs e Hin) as He.
  apply all_nonempty_tail in Hqs as [Hq Hqs].
  destruct Hin as [-> | Hin].
  - apply (passes_preserve P e qs Hqs He Hov). now apply replaceLit_removes.
  - apply (IH Hqs Hin).
Qed.

Lemma passes_identity (P : jsstring) (qs : list jsstring) (t : jsstring) :
  all_nonempty qs -> (forall q, In q qs -> ~ occursIn q t) -> passes P qs t = t.
Proof.
  intros Hqs Hno. induction qs as [|q qs IH]; [reflexivity|].
  apply all_nonempty_tail in Hqs as [Hq Hqs].
  unfold passes. simpl. rewrite replaceLit_identity; [|exact Hq|apply Hno; now left].
  apply (IH Hqs). intros x Hx. apply Hno. now right.
Qed.

Lemma clearOfPlaceholders_true (e : jsstring) :
  clearOfPlaceholders e = true ->
  canOverlap email_placeholder e = false /\ canOverlap id_placeholder e = false.
Proof.
  unfold clearOfPlaceholders. rewrite andb_true_iff, !negb_true_iff. tauto.
Qed.

(** No configured address that cannot overlap a placeholder is left in a
    redacted text. *)
Lemma redactHoneytrap_removes_email (emails ids : list jsstring) (text email : jsstring) :
  all_nonempty emails -> all_nonempty ids ->
  In email emails -> clearOfPlaceholders email = true ->
  occursCI (redactHoneytrap emails ids text) email = false.
Proof.
  intros He Hi Hin Hclear. apply clearOfPlaceholders_true in Hclear as [H1 H2].
  rewrite redactHoneytrap_passes by assumption. apply occursIn_false.
  apply passes_preserve; [exact Hi | exact (He email Hin) | exact H2 |].
  now apply passes_remove.
Qed.

(** Nor is a configured id that cannot overlap the placeholder of the ids. *)
Lemma redactHoneytrap_removes_id (emails ids : list jsstring) (text i : jsstring) :
  all_nonempty emails -> all_nonempty ids ->
  In i ids -> canOverlap id_placeholder i = false ->
  occursCI (redactHoneytrap emails ids text) i = false.
Proof.
  intros He Hi Hin Hov. rewrite redactHoneytrap_passes by assumption.
  apply occursIn_false. now apply passes_remove.
Qed.

(** The HTML body that is handed on has been redacted. *)
Lemma emailBody_redacted (w : World) (d : Decoded) (html : jsstring) :
  emailBody (ingestArgs w d) = Some html ->
  exists t, html = redactHoneytrap (config_list (HONEYTRAP_EMAILS (env w)))
                                   (config_list (HONEYTRAP_IDS (env w))) t.
Proof.
  cbn [ingestArgs emailBody]. unfold or_else.
  destruct (sanitizedHtml w d) as [h|] eqn:Hs; [|discriminate].
  cbn [truthy_opt]. destruct (truthy h) eqn:Ht; [|discriminate].
  intros [= <-]. unfold sanitizedHtml in Hs. cbv zeta in Hs.
  destruct (truthy (bodyHtml d)); [|discriminate].
  cbn [truthy_opt] in Hs.
  destruct (truthy (sanitizeEmailHtml w (bodyHtml d))) eqn:Hsan.
  - injection Hs as <-. eauto.
  - injection Hs as <-. congruence.
Qed.

(** *** Identifiers that are clear of the placeholders *)

Lemma chr_match_star (c : ascii) :
  chr_match flag_i c "*" = Ascii.eqb c "*" /\ chr_match flag_i c "#" = Ascii.eqb c "#".
Proof.
  assert (forallb (fun a =>
            Bool.eqb (chr_match flag_i a "*") (Ascii.eqb a "*") &&
            Bool.eqb (chr_match flag_i a "#") (Ascii.eqb a "#")) all_ascii = true) as Hall
    by (vm_compute; reflexivity).
  rewrite forallb_forall in Hall. specialize (Hall c (all_ascii_complete c)).
  apply andb_true_iff in Hall as [H1 H2]. split; now apply Bool.eqb_prop.
Qed.

Lemma compatible_sym (a b : jsstring) : compatible a b = compatible b a.
Proof. unfold compatible. apply orb_comm. Qed.

(** Strings whose first characters differ begin with nothing in common. *)
Lemma compatible_head (s1 e1 : ascii) (s e : jsstring) :
  chr_match flag_i e1 s1 = false -> compatible (s1 :: s) (e1 :: e) = false.
Proof.
  intros H. unfold compatible. simpl. now rewrite H, (chr_match_sym s1 e1), H.
Qed.

Lemma compatible_second (s1 s2 e1 e2 : ascii) (s e : jsstring) :
  chr_match flag_i e2 s2 = false ->
  compatible (s1 :: s2 :: s) (e1 :: e2 :: e) = false.
Proof.
  intros H. unfold compatible. simpl.
  now rewrite H, (chr_match_sym s2 e2), H, !andb_false_r.
Qed.

Lemma existsb_none {A : Type} (f : A -> bool) (l : list A) :
  (forall x, In x l -> f x = false) -> existsb f l = false.
Proof.
  intros H. induction l as [|x l IH]; [reflexivity|].
  simpl. rewrite H by now left. apply IH. intros y Hy. apply H. now right.
Qed.

(** No end of a string without the character [p1] begins like a string
    that begins with [p1]. *)
Lemma no_end_begins (p1 : ascii) (P e : jsstring) :
  (forall c, In c e -> chr_match flag_i c p1 = false) ->
  existsb (fun x => compatible x (p1 :: P)) (suffixes e) = false.
Proof.
  intros H. induction e as [|c e IH]; [reflexivity|].
  simpl. rewrite compatible_sym, compatible_head by (apply H; now left).
  apply IH. intros c' Hc'. apply H. now right.
Qed.

(** The readable condition is enough. *)
Lemma plainIdentifier_clear (e : jsstring) :
  plainIdentifier e = true -> clearOfPlaceholders e = true.
Proof.
  unfold plainIdentifier. rewrite !andb_true_iff, !negb_true_iff.
  intros (((((Hchars & Hlen) & Hm) & Hom) & Hcom) & Hdotcom).
  rewrite forallb_forall in Hchars. apply Nat.ltb_lt in Hlen.
  assert (forall c, In c e -> chr_match flag_i c "*" = false /\
                              chr_match flag_i c "#" = false) as Hsym.
  { intros c Hc. specialize (Hchars c Hc).
    apply andb_true_iff in Hchars as [H1 H2]. apply negb_true_iff in H1, H2.
    destruct (chr_match_star c) as [-> ->]. now split. }
  destruct e as [|e1 [|e2 [|e3 [|e4 e]]]]; simpl in Hlen; try lia.
  destruct (Hsym e1 (or_introl eq_refl)) as [Hstar1 Hhash1].
  destruct (Hsym e2 (or_intror (or_introl eq_refl))) as [Hstar2 _].
  unfold clearOfPlaceholders, canOverlap.
  rewrite andb_true_iff, !negb_true_iff, !orb_false_iff. repeat split.
  - (* the address does not begin inside the placeholder of the addresses *)
    apply existsb_none. intros s Hs. vm_compute in Hs.
    repeat (destruct Hs as [<- | Hs];
            [first [ now apply compatible_head | now apply compatible_second | idtac ] | ]);
      try contradiction.
    + (* .com *)
      unfold compatible. rewrite orb_false_iff. split; [|exact Hdotcom].
      simpl in Hdotcom |- *. rewrite startsWithCI_nil in Hdotcom.
      rewrite (chr_match_sym e1), (chr_match_sym e2), (chr_match_sym e3),
        (chr_match_sym e4).
      destruct (chr_match flag_i "." e1), (chr_match flag_i "c" e2),
        (chr_match flag_i "o" e3), (chr_match flag_i "m" e4);
        simpl in *; congruence.
    + (* com *)
      unfold compatible. rewrite orb_false_iff. split; [|exact Hcom].
      simpl. now rewrite !andb_false_r.
    + (* om *)
      unfold compatible. rewrite orb_false_iff. split; [|exact Hom].
      simpl. now rewrite !andb_false_r.
    + (* m *)
      unfold compatible. rewrite orb_false_iff. split; [|exact Hm].
      simpl. now rewrite !andb_false_r.
  - (* no later part of the address begins that placeholder *)
    apply (no_end_begins "*" (List.tl email_placeholder) (e2 :: e3 :: e4 :: e)).
    intros c Hc. apply Hsym. now right.
  - (* nor does it begin inside the placeholder of the ids *)
    apply existsb_none. intros s Hs. vm_compute in Hs.
    repeat (destruct Hs as [<- | Hs]; [now apply compatible_head | ]).
    contradiction.
  - apply (no_end_begins "#" (List.tl id_placeholder) (e2 :: e3 :: e4 :: e)).
    intros c Hc. apply Hsym. now right.
Qed.

(** An address that begins with the last letter of the placeholder is not
    clear of it; one that begins with its last two letters but one is. *)
Example clear_and_not_clear :
  plainIdentifier (js "sender@decoy.org") = true /\
  plainIdentifier (js "contact@honeypot.example") = true /\
  clearOfPlaceholders (js "mary@decoy.org") = false /\
  clearOfPlaceholders (js "comms@decoy.org") = false /\
  canOverlap id_placeholder (js "zx81q") = false /\
  canOverlap id_placeholder (js "#42") = true.
Proof. vm_compute. repeat split. Qed.

(** C6 (as amended).  For every configured honeytrap address that cannot
    overlap a placeholder and every payload, no occurrence of the address,
    in any character case, is left in the outgoing subject, in the redacted
    text that is stored, or in the sanitized HTML body.  The cleaned text
    is what the text cleaner, which runs after the redaction, makes of that
    redacted text; nothing is said of it.  An address cannot overlap a
    placeholder when no ending of the placeholder is a beginning of the
    address or begins with it, and no ending of the address that starts
    after its first character is a beginning of the placeholder or begins
    with it, in any character case. *)
Theorem C6_no_clear_honeytrap_address_survives
    (w : World) (req : Request) (d : Decoded) (email : jsstring) :
  decode req = Some d ->
  In email (config_list (HONEYTRAP_EMAILS (env w))) ->
  clearOfPlaceholders email = true ->
  (forall s, emailSubject (ingestArgs w d) = Some s -> occursCI s email = false) /\
  occursCI (rawText (ingestArgs w d)) email = false /\
  text (ingestArgs w d) = cleanTextForAI w (rawText (ingestArgs w d)) /\
  (forall html, emailBody (ingestArgs w d) = Some html -> occursCI html email = false).
Proof.
  intros _ Hin Hclear.
  pose proof (config_list_nonempty (HONEYTRAP_EMAILS (env w))) as He.
  pose proof (config_list_nonempty (HONEYTRAP_IDS (env w))) as Hi.
  assert (forall t, occursCI (redactHoneytrap (config_list (HONEYTRAP_EMAILS (env w)))
                                (config_list (HONEYTRAP_IDS (env w))) t) email = false)
    as Hred by (intros t; now apply redactHoneytrap_removes_email).
  split; [|split; [|split]].
  - cbn [ingestArgs emailSubject]. unfold nonempty, redactedSubject.
    intros s. destruct (truthy _); [|discriminate]. intros [= <-]. apply Hred.
  - cbn [ingestArgs rawText]. apply Hred.
  - reflexivity.
  - intros html Hb. apply emailBody_redacted in Hb as [t ->]. apply Hred.
Qed.

(** C6, witness: the message caught by sender@decoy.org; the address is in
    the subject and in both bodies, in several cases. *)
Lemma C6_witness_honeytrap_capture :
  (forall s, emailSubject (ingestArgs (Examples.world Examples.not_fundraising)
                             (Examples.decoded Examples.honeytrap_capture)) = Some s ->
             occursCI s (js "sender@decoy.org") = false) /\
  occursCI (rawText (ingestArgs (Examples.world Examples.not_fundraising)
                       (Examples.decoded Examples.honeytrap_capture)))
           (js "sender@decoy.org") = false /\
  text (ingestArgs (Examples.world Examples.not_fundraising)
          (Examples.decoded Examples.honeytrap_capture))
  = cleanTextForAI (Examples.world Examples.not_fundraising)
      (rawText (ingestArgs (Examples.world Examples.not_fundraising)
                  (Examples.decoded Examples.honeytrap_capture))) /\
  (forall html, emailBody (ingestArgs (Examples.world Examples.not_fundraising)
                             (Examples.decoded Examples.honeytrap_capture)) = Some html ->
                occursCI html (js "sender@decoy.org") = false).
Proof.
  apply (C6_no_clear_honeytrap_address_survives
           (Examples.world Examples.not_fundraising) Examples.honeytrap_capture
           (Examples.decoded Examples.honeytrap_capture) (js "sender@decoy.org")).
  - vm_compute. reflexivity.
  - vm_compute. left. reflexivity.
  - vm_compute. reflexivity.
Defined.

(** What the redaction makes of that message. *)
Example redaction_of_honeytrap_capture :
  emailSubject (ingestArgs (Examples.world Examples.not_fundraising)
                  (Examples.decoded Examples.honeytrap_capture))
  = Some (js "Fwd: *******@*******.com, chip in (########)") /\
  emailBody (ingestArgs (Examples.world Examples.not_fundraising)
               (Examples.decoded Examples.honeytrap_capture))
  = Some (js "<p>To: *******@*******.com</p><p>Chip in now (########)</p>").
Proof. vm_compute. split; reflexivity. Qed.

(** An address that has a placeholder inside cannot be trusted to the
    redaction either, and [clearOfPlaceholders] refuses it: the pass of
    the ids writes it. *)
Example address_around_a_placeholder :
  clearOfPlaceholders (js "a########b") = false /\
  redactHoneytrap [js "a########b"] [js "q"] (js "aqb") = js "a########b".
Proof. vm_compute. split; reflexivity. Qed.

(** C6, counterexample, in two parts.  In the subject: mary@decoy.org is a
    configured honeytrap address and is followed by its own tail; the one
    match is replaced, and the end of the placeholder with what follows
    spells the address again.  In the cleaned text: sender@decoy.org is a
    configured honeytrap address that overlaps no placeholder, and is
    written in the body with a soft hyphen inside; the redaction finds no
    occurrence and leaves the body as it is, and a text cleaner that
    removes soft hyphens, running after the redaction, spells the address
    in the cleaned text. *)
Lemma C6_counterexample_address_survives :
  (In (js "mary@decoy.org") (config_list (HONEYTRAP_EMAILS Examples.honeytraps)) /\
   subject (Examples.decoded Examples.overlapping_subject)
   = js "mary@decoy.orgary@decoy.org" /\
   emailSubject (ingestArgs (Examples.world Examples.not_fundraising)
                   (Examples.decoded Examples.overlapping_subject))
   = Some (js "*******@*******.comary@decoy.org") /\
   occursCI (js "*******@*******.comary@decoy.org") (js "mary@decoy.org") = true) /\
  (In (js "sender@decoy.org") (config_list (HONEYTRAP_EMAILS Examples.honeytraps)) /\
   clearOfPlaceholders (js "sender@decoy.org") = true /\
   decode Examples.soft_hyphen_message
   = Some (Examples.decoded Examples.soft_hyphen_message) /\
   rawText (ingestArgs (Examples.world_cleaning_soft_hyphens Examples.not_fundraising)
              (Examples.decoded Examples.soft_hyphen_message))
   = Examples.hyphenated_address /\
   occursCI Examples.hyphenated_address (js "sender@decoy.org") = false /\
   text (ingestArgs (Examples.world_cleaning_soft_hyphens Examples.not_fundraising)
           (Examples.decoded Examples.soft_hyphen_message))
   = js "To: sender@decoy.org" /\
   occursCI (js "To: sender@decoy.org") (js "sender@decoy.org") = true).
Proof.
  vm_compute. split.
  - repeat split. right; left; reflexivity.
  - repeat split. left; reflexivity.
Qed.

(** C8 (as amended).  For every configuration in which no honeytrap address
    can overlap a placeholder and no honeytrap id can overlap the
    placeholder of the ids, and for every text, redacting a redacted text
    changes nothing. *)
Theorem C8_redaction_idempotent_when_clear (e : Env) (text : jsstring) :
  forallb clearOfPlaceholders (config_list (HONEYTRAP_EMAILS e)) = true ->
  forallb (fun i => negb (canOverlap id_placeholder i))
          (config_list (HONEYTRAP_IDS e)) = true ->
  redactHoneytrap (config_list (HONEYTRAP_EMAILS e)) (config_list (HONEYTRAP_IDS e))
    (redactHoneytrap (config_list (HONEYTRAP_EMAILS e)) (config_list (HONEYTRAP_IDS e))
       text)
  = redactHoneytrap (config_list (HONEYTRAP_EMAILS e)) (config_list (HONEYTRAP_IDS e))
      text.
Proof.
  intros Hemails Hids.
  pose proof (config_list_nonempty (HONEYTRAP_EMAILS e)) as He.
  pose proof (config_list_nonempty (HONEYTRAP_IDS e)) as Hi.
  rewrite forallb_forall in Hemails, Hids.
  set (E := config_list (HONEYTRAP_EMAILS e)) in *.
  set (I := config_list (HONEYTRAP_IDS e)) in *.
  set (out := redactHoneytrap E I text).
  rewrite (redactHoneytrap_passes E I out He Hi).
  rewrite (passes_identity email_placeholder E out He).
  - apply (passes_identity id_placeholder I out Hi).
    intros i Hin. apply occursIn_false.
    apply redactHoneytrap_removes_id; try assumption.
    apply negb_true_iff, Hids, Hin.
  - intros email Hin. apply occursIn_false.
    apply redactHoneytrap_removes_email; try assumption.
    apply Hemails, Hin.
Qed.

(** C8, witness: two addresses and two ids that are clear of the
    placeholders. *)
Lemma C8_witness_clear_configuration :
  redactHoneytrap (config_list (HONEYTRAP_EMAILS Examples.clear_honeytraps))
                  (config_list (HONEYTRAP_IDS Examples.clear_honeytraps))
    (redactHoneytrap (config_list (HONEYTRAP_EMAILS Examples.clear_honeytraps))
                     (config_list (HONEYTRAP_IDS Examples.clear_honeytraps))
       (js "To: Trap@Honeypot.Example, sender@decoy.org (K7-2204)"))
  = redactHoneytrap (config_list (HONEYTRAP_EMAILS Examples.clear_honeytraps))
                    (config_list (HONEYTRAP_IDS Examples.clear_honeytraps))
      (js "To: Trap@Honeypot.Example, sender@decoy.org (K7-2204)").
Proof.
  apply (C8_redaction_idempotent_when_clear Examples.clear_honeytraps);
    vm_compute; reflexivity.
Defined.

(** C8, counterexample: with the honeytrap address mary@decoy.org, the
    redaction of a text in which the address is followed by its own tail
    still spells the address, and a second redaction changes it. *)
Lemma C8_counterexample_second_redaction_differs :
  redactHoneytrap (config_list (HONEYTRAP_EMAILS Examples.honeytraps))
                  (config_list (HONEYTRAP_IDS Examples.honeytraps))
    (js "mary@decoy.orgary@decoy.org")
  = js "*******@*******.comary@decoy.org" /\
  redactHoneytrap (config_list (HONEYTRAP_EMAILS Examples.honeytraps))
                  (config_list (HONEYTRAP_IDS Examples.honeytraps))
    (js "*******@*******.comary@decoy.org")
  = js "*******@*******.co*******@*******.com".
Proof. vm_compute. split; reflexivity. Qed.

(* ------------------------------------------------------------------ *)
(** * Further properties: the handler in every run, what the helpers
      return and where they read it, the reports table *)

(** ** The matcher is sound

    Whatever the matcher finds is a word of the expression, read in the
    text where the match says. *)

Lemma clear_caps_nil (cs : list (nat * jsstring)) : clear_caps [] cs = cs.
Proof.
  unfold clear_caps. induction cs as [|c cs IH]; [reflexivity|].
  simpl. f_equal. exact IH.
Qed.

Lemma step_char_sound (f : flags) (r : re) (ok : ascii -> bool) :
  groups_of r = [] ->
  (forall x, ok x = true -> lang f r [x]) ->
  forall k s res,
    step_char s ok k = Some res ->
    exists w s',
      lang f r w /\ rest s = w ++ rest s' /\
      (groups_of r = [] -> caps s' = caps s) /\ k s' = Some res.
Proof.
  intros _ Hok k s res. unfold step_char.
  destruct (rest s) as [|x tl] eqn:Hs; [discriminate|].
  destruct (ok x) eqn:Hx; [|discriminate]. intros Hk.
  exists [x], {| prev := Some x; rest := tl; caps := caps s |}.
  repeat split; auto.
Qed.

(** One more iteration, then the rest of the loop. *)
Lemma rep_loop_more (f : flags) (r : re) k fuel lo hi s res :
  sound_matcher f r (mt f r) ->
  (forall s1 res1,
      rep_loop (mt f r) (groups_of r) k fuel (pred lo) (option_map pred hi) s1
      = Some res1 ->
      exists w s', lang f (Rep (pred lo) (option_map pred hi) r) w /\
                   rest s1 = w ++ rest s' /\
                   (groups_of r = [] -> caps s' = caps s1) /\ k s' = Some res1) ->
  hi <> Some 0 ->
  mt f r (fun s' =>
            if ((lo =? 0) && (length (rest s') =? length (rest s)))%bool
            then None
            else rep_loop (mt f r) (groups_of r) k fuel (pred lo)
                   (option_map pred hi) s')
     {| prev := prev s; rest := rest s;
        caps := clear_caps (groups_of r) (caps s) |} = Some res ->
  exists w s', lang f (Rep lo hi r) w /\ rest s = w ++ rest s' /\
               (groups_of r = [] -> caps s' = caps s) /\ k s' = Some res.
Proof.
  intros Hbody IH Hhi Hagain.
  apply Hbody in Hagain as (w1 & s1 & Hw1 & Hrest1 & Hcaps1 & Hk1).
  cbn [rest caps] in Hrest1, Hcaps1.
  destruct ((lo =? 0) && (length (rest s1) =? length (rest s)))%bool;
    [discriminate|].
  apply IH in Hk1 as (w2 & s2 & Hw2 & Hrest2 & Hcaps2 & Hk2).
  exists (w1 ++ w2), s2. repeat split.
  - now apply L_rep_more.
  - now rewrite Hrest1, Hrest2, app_assoc.
  - intros Hg. rewrite (Hcaps2 Hg), (Hcaps1 Hg), Hg. apply clear_caps_nil.
  - exact Hk2.
Qed.

Lemma rep_loop_sound (f : flags) (r : re) :
  sound_matcher f r (mt f r) ->
  forall fuel k lo hi s res,
    rep_loop (mt f r) (groups_of r) k fuel lo hi s = Some res ->
    exists w s',
      lang f (Rep lo hi r) w /\ rest s = w ++ rest s' /\
      (groups_of r = [] -> caps s' = caps s) /\ k s' = Some res.
Proof.
  intros Hbody. induction fuel as [|fuel IH]; intros k lo hi s res H; [discriminate|].
  cbn [rep_loop] in H.
  assert (hi = Some 0 \/ hi <> Some 0) as [-> | Hhi]
    by (destruct hi as [[|h]|]; [now left | right; discriminate | right; discriminate]).
  { exists [], s. repeat split; auto. apply L_rep_done. now right. }
  assert (lo = 0 -> k s = Some res ->
          exists w s', lang f (Rep lo hi r) w /\ rest s = w ++ rest s' /\
                       (groups_of r = [] -> caps s' = caps s) /\ k s' = Some res)
    as Hstop.
  { intros Hlo Hk. exists [], s. repeat split; auto.
    apply L_rep_done. now left. }
  pose proof (fun res' => rep_loop_more f r k fuel lo hi s res' Hbody
                            (fun s1 res1 => IH k (pred lo) (option_map pred hi) s1 res1)
                            Hhi) as Hmore.
  destruct (mt f r _ _) as [res'|] eqn:Hagain.
  - specialize (Hmore res' eq_refl).
    destruct hi as [[|h]|]; [congruence | |];
      (destruct lo as [|lo]; cbn [Nat.eqb] in H; injection H as <-; exact Hmore).
  - destruct hi as [[|h]|]; [congruence | |];
      (destruct lo as [|lo]; cbn [Nat.eqb] in H; [now apply Hstop | discriminate]).
Qed.

Lemma mt_sound (f : flags) (r : re) : sound_matcher f r (mt f r).
Proof.
  induction r as [ | c | | items | items | | | r1 IH1 r2 IH2 | r1 IH1 r2 IH2
                 | lo hi r IH | n r IH ];
    intros k s res H; cbn [mt] in H.
  - exists [], s. repeat split; auto. constructor.
  - eapply step_char_sound; eauto. intros x Hx. now constructor.
  - eapply step_char_sound; eauto. intros x Hx. constructor.
    now apply negb_true_iff in Hx.
  - eapply step_char_sound; eauto. intros x Hx. now constructor.
  - eapply step_char_sound; eauto. intros x Hx. constructor.
    now apply negb_true_iff in Hx.
  - destruct (at_bol f s); [|discriminate].
    exists [], s. repeat split; auto. constructor.
  - destruct (at_eol f s); [|discriminate].
    exists [], s. repeat split; auto. constructor.
  - apply IH1 in H as (w1 & s1 & Hw1 & Hr1 & Hc1 & H).
    apply IH2 in H as (w2 & s2 & Hw2 & Hr2 & Hc2 & H).
    exists (w1 ++ w2), s2. repeat split.
    + now constructor.
    + now rewrite Hr1, Hr2, app_assoc.
    + cbn [groups_of]. intros Hg. apply app_eq_nil in Hg as [Hg1 Hg2].
      now rewrite (Hc2 Hg2), (Hc1 Hg1).
    + exact H.
  - destruct (mt f r1 k s) as [res1|] eqn:H1.
    + injection H as <-.
      apply IH1 in H1 as (w & s' & Hw & Hr & Hc & H1).
      exists w, s'. repeat split; auto.
      * now apply L_alt_l.
      * cbn [groups_of]. intros Hg. apply app_eq_nil in Hg as [Hg1 _]. auto.
    + apply IH2 in H as (w & s' & Hw & Hr & Hc & H).
      exists w, s'. repeat split; auto.
      * now apply L_alt_r.
      * cbn [groups_of]. intros Hg. apply app_eq_nil in Hg as [_ Hg2]. auto.
  - apply (rep_loop_sound f r IH) in H as (w & s' & Hw & Hr & Hc & H).
    exists w, s'. repeat split; auto.
  - apply IH in H as (w & s' & Hw & Hr & Hc & H).
    exists w, {| prev := prev s'; rest := rest s';
                 caps := set_cap n (consumed s s') (caps s') |}.
    repeat split; auto.
    + now constructor.
    + cbn [groups_of]. discriminate.
Qed.

(** A group: what it captures is the word it consumed. *)
Lemma mt_grp_sound (f : flags) (n : nat) (r : re) k s res :
  mt f (Grp n r) k s = Some res ->
  exists w s',
    lang f r w /\ rest s = w ++ rest s' /\
    k {| prev := prev s'; rest := rest s'; caps := set_cap n w (caps s') |} = Some res.
Proof.
  cbn [mt]. intros H. apply mt_sound in H as (w & s' & Hw & Hr & _ & H).
  exists w, s'. repeat split; auto.
  unfold consumed in H. rewrite Hr, length_app in H.
  replace (length w + length (rest s') - length (rest s')) with (length w) in H by lia.
  now rewrite firstn_app, firstn_all, Nat.sub_diag, firstn_0, app_nil_r in H.
Qed.

Lemma match_at_sound (f : flags) (r : re) p s st :
  match_at f r p s = Some st -> exists w, lang f r w /\ s = w ++ rest st.
Proof.
  unfold match_at. intros H. apply mt_sound in H as (w & s' & Hw & Hr & _ & [= <-]).
  now exists w.
Qed.

(** The leftmost search: what it finds, and what it has tried when it
    finds nothing. *)
Lemma search_sound (f : flags) (r : re) :
  forall s p pre m,
    search f r p pre s = Some m ->
    exists a b p' st,
      s = a ++ b /\ match_at f r p' b = Some st /\
      before m = rev pre ++ a /\
      matched m = firstn (length b - length (rest st)) b /\
      groups m = caps st /\ after m = rest st.
Proof.
  induction s as [|c s IH]; intros p pre m; cbn [search].
  - destruct (match_at f r p []) as [st|] eqn:Hm; [|discriminate].
    intros [= <-]. exists [], [], p, st. cbn. now rewrite app_nil_r.
  - destruct (match_at f r p (c :: s)) as [st|] eqn:Hm.
    + intros [= <-]. exists [], (c :: s), p, st. cbn. now rewrite app_nil_r.
    + intros H. apply IH in H as (a & b & p' & st & -> & Hst & Hb & Hrest).
      exists (c :: a), b, p', st. repeat split; try tauto.
      rewrite Hb. cbn [rev]. now rewrite <- app_assoc.
Qed.

Lemma search_None (f : flags) (r : re) :
  forall s p pre,
    search f r p pre s = None ->
    forall a b, s = a ++ b -> exists p', match_at f r p' b = None.
Proof.
  induction s as [|c s IH]; intros p pre; cbn [search].
  - destruct (match_at f r p []) eqn:Hm; [discriminate|].
    intros _ a b Hab. symmetry in Hab. apply app_eq_nil in Hab as [_ ->]. eauto.
  - destruct (match_at f r p (c :: s)) eqn:Hm; [discriminate|].
    intros H [|c' a] b Hab.
    + simpl in Hab. subst b. eauto.
    + injection Hab as _ ->. eapply IH; eauto.
Qed.

(** [s.match(r)]: the match is a word of the language, between what lies
    before it and what lies after it. *)
Lemma exec_sound (f : flags) (r : re) (s : jsstring) (m : match_result) :
  exec f r s = Some m ->
  s = before m ++ matched m ++ after m /\ lang f r (matched m).
Proof.
  unfold exec. intros H.
  apply search_sound in H as (a & b & p' & st & -> & Hst & -> & -> & _ & ->).
  apply match_at_sound in Hst as (w & Hw & Hb).
  assert (firstn (length b - length (rest st)) b = w) as ->.
  { rewrite Hb at 2. rewrite Hb at 1. rewrite length_app.
    replace (length w + length (rest st) - length (rest st)) with (length w) by lia.
    now rewrite firstn_app, firstn_all, Nat.sub_diag, firstn_0, app_nil_r. }
  cbn [rev app]. now rewrite <- Hb.
Qed.

(** *** Words of the expressions of the source *)

Lemma lang_cat_cons (f : flags) (r : re) (rs : list re) (w : jsstring) :
  lang f (cat (r :: rs)) w ->
  exists w1 w2, w = w1 ++ w2 /\ lang f r w1 /\ lang f (cat rs) w2.
Proof. intros H. inversion H; subst. eauto. Qed.

Lemma lang_cat_nil (f : flags) (w : jsstring) : lang f (cat []) w -> w = [].
Proof. intros H. now inversion H. Qed.

Lemma chr_match_ignoreCase (f : flags) (c x : ascii) :
  ignoreCase f = true -> chr_match f c x = chr_match flag_i c x.
Proof. unfold chr_match, canon. now intros ->. Qed.

(** A word of a literal is the literal, up to the case. *)
Lemma lang_lit (f : flags) (q : jsstring) :
  ignoreCase f = true ->
  forall w, lang f (lit_chars q) w -> startsWithCI w q = true /\ length w = length q.
Proof.
  intros Hf. induction q as [|c q IH]; intros w H.
  - inversion H. now split.
  - change (lit_chars (c :: q)) with (Seq (Chr c) (lit_chars q)) in H.
    inversion H as [ | | | | | | | r1 r2 w1 w2 H1 H2 | | | | | ]; subst.
    inversion H1; subst. apply IH in H2 as [H2 Hlen].
    rewrite chr_match_ignoreCase in * by assumption.
    simpl. split; [now rewrite H2, andb_true_r | now rewrite Hlen].
Qed.

(** A word of a quantified class is made of characters of the class, at
    least as many as the lower bound. *)
Lemma lang_rep_of_chars (f : flags) (one : re) (ok : ascii -> bool) :
  (forall w, lang f one w -> exists x, w = [x] /\ ok x = true) ->
  forall r w, lang f r w ->
    forall lo hi, r = Rep lo hi one ->
      match hi with Some h => lo <= h | None => True end ->
      forallb ok w = true /\ lo <= length w.
Proof.
  intros Hone r w H.
  induction H as [ | | | | | | | | | | lo' hi' r' Hdone
                 | lo' hi' r' w1 w2 Hhi H1 _ H2 IH2 | ];
    intros lo hi Heq Hwf; try discriminate.
  - injection Heq as -> -> ->. split; [reflexivity|].
    destruct Hdone as [-> | ->]; simpl; lia.
  - injection Heq as -> -> ->.
    apply Hone in H1 as (x & -> & Hx).
    destruct (IH2 (pred lo) (option_map pred hi) eq_refl) as [Hall Hlen].
    { destruct hi as [h|]; simpl; [lia | exact I]. }
    simpl. rewrite Hx, Hall. split; [reflexivity | lia].
Qed.

Lemma lang_oneof_inv (f : flags) (items : list class_item) (w : jsstring) :
  lang f (OneOf items) w -> exists x, w = [x] /\ class_has f items x = true.
Proof. intros H. inversion H; subst. eauto. Qed.

Lemma lang_any_inv (f : flags) (w : jsstring) :
  lang f Any w -> exists x, w = [x] /\ negb (isLineTerminator x) = true.
Proof. intros H. inversion H; subst. exists x. split; [reflexivity|]. now apply negb_true_iff. Qed.

Lemma lang_chr_inv (f : flags) (c : ascii) (w : jsstring) :
  lang f (Chr c) w -> exists x, w = [x] /\ chr_match f c x = true.
Proof. intros H. inversion H; subst. eauto. Qed.

(* ------------------------------------------------------------------ *)
(** ** The handler: every run *)

(** The runs of [POST], by the place where the handler returns. *)
Lemma POST_cases (w : World) (req : Request) :
  (decode req = None /\ POST w req = (internal_error, [])) \/
  exists d, decode req = Some d /\
    ((truthy_opt (SUPABASE_SERVICE_ROLE_KEY w) = false /\
      POST w req = (service_key_missing, [])) \/
     (truthy_opt (SUPABASE_SERVICE_ROLE_KEY w) = true /\
      ((ingestTextSubmission w (ingestArgs w d) = None /\
        POST w req = (internal_error, [Ingest (ingestArgs w d)])) \/
       exists result, ingestTextSubmission w (ingestArgs w d) = Some result /\
         ((ok result = false /\ error_is result (js "duplicate") = true /\
           POST w req = ({| status := 200; body := BodyDuplicate (id result) |},
                         [Ingest (ingestArgs w d)])) \/
          (failed_for_good result = true /\
           POST w req = (ingest_failed, [Ingest (ingestArgs w d)])) \/
          (failed_for_good result = false /\
           (ok result = true \/ error_is result (js "duplicate") = false) /\
           POST w req = ((if pipelinesReject w result then internal_error
                          else {| status := 200; body := BodyOk (id result) |}),
                         Ingest (ingestArgs w d) :: triggers w d result)))))).
Proof.
  destruct (decode req) as [d|] eqn:Hd.
  2:{ left. split; [reflexivity|].
      unfold POST, POST_run, run, POST_handler, bind, throw, respond.
      now rewrite Hd. }
  right. exists d. split; [reflexivity|].
  destruct (truthy_opt (SUPABASE_SERVICE_ROLE_KEY w)) eqn:Hk.
  2:{ left. split; [reflexivity|].
      unfold POST, POST_run, run, POST_handler, bind, throw, respond, ret.
      now rewrite Hd, Hk. }
  right. split; [reflexivity|].
  destruct (ingestTextSubmission w (ingestArgs w d)) as [result|] eqn:Hi.
  2:{ left. split; [reflexivity|].
      unfold POST, POST_run, run, POST_handler, bind, awaited, throw, respond, ret.
      rewrite Hd, Hk. simpl. now rewrite Hi. }
  right. exists result. split; [reflexivity|].
  unfold failed_for_good.
  destruct (ok result) eqn:Hok.
  - right; right.
    destruct (POST_proceeds w req d result Hd Hk Hi) as [-> _]; tauto.
  - destruct (error_is result (js "duplicate")) eqn:Hdup.
    + left. destruct (POST_duplicate w req d result Hd Hk Hi Hok Hdup) as [-> _]. tauto.
    + destruct (truthy_opt (id result)) eqn:Hid.
      * right; right.
        destruct (POST_proceeds w req d result Hd Hk Hi) as [-> _]; tauto.
      * right; left.
        destruct (POST_failed w req d result Hd Hk Hi Hok Hdup Hid) as [-> _]. tauto.
Qed.

Lemma triggers_are_triggers (w : World) (d : Decoded) (result : IngestResult) :
  forallb is_trigger (triggers w d result) = true.
Proof.
  unfold triggers, screenshot.
  destruct (fundraising result && truthy_opt (id result))%bool;
    [destruct (pipelinesResolve w (or_str (id result) []) &&
               truthy_opt (landingUrl result))%bool; reflexivity|].
  destruct (truthy_opt (id result) && isForwarded d && truthy (sender d))%bool;
    reflexivity.
Qed.

Lemma truthy_opt_or_str (o : option jsstring) :
  truthy_opt o = true -> o = Some (or_str o []) /\ or_str o [] <> [].
Proof. destruct o as [[|c s]|]; try discriminate. now split. Qed.

(** The calls after the ingestion: nothing; the pipelines; the pipelines
    and then the screenshot; or the notice.  Each carries the id of the
    result, which is not empty.  The pipelines have failed exactly when
    the run is to answer 500, and then they are the only call. *)
Lemma triggers_shape (w : World) (d : Decoded) (result : IngestResult) :
  (triggers w d result = [] /\ pipelinesReject w result = false) \/
  exists i, id result = Some i /\ i <> [] /\
    ((triggers w d result = [TriggerPipelines i] /\
      pipelinesReject w result = negb (pipelinesResolve w i)) \/
     (exists url landing, landing <> [] /\
        triggers w d result = [TriggerPipelines i; FetchScreenshot url i landing] /\
        pipelinesReject w result = false) \/
     (exists url, triggers w d result = [FetchNonFundraisingNotice url i] /\
        pipelinesReject w result = false)).
Proof.
  unfold triggers, screenshot, pipelinesReject.
  destruct (truthy_opt (id result)) eqn:Hid.
  2:{ left. now rewrite !andb_false_r. }
  apply truthy_opt_or_str in Hid as [Hid Hne].
  destruct (fundraising result); simpl.
  - right. exists (or_str (id result) []). split; [assumption|]. split; [assumption|].
    destruct (pipelinesResolve w (or_str (id result) [])); simpl; [|now left].
    destruct (truthy_opt (landingUrl result)) eqn:Hl; [|now left].
    apply truthy_opt_or_str in Hl as [_ Hl]. right; left. eauto.
  - destruct (isForwarded d && truthy (sender d))%bool; [|now left].
    right. exists (or_str (id result) []). split; [assumption|]. split; [assumption|].
    right; right. eauto.
Qed.

(** X1.  Without the service-role key nothing is stored and no
    collaborator is called, whatever the request: the answer is 400
    [service_key_missing], or 500 [internal_error] when the payload could
    not even be read. *)
Theorem POST_without_service_key (w : World) (req : Request) :
  truthy_opt (SUPABASE_SERVICE_ROLE_KEY w) = false ->
  snd (POST w req) = [] /\
  fst (POST w req) =
    match decode req with
    | Some _ => service_key_missing
    | None => internal_error
    end.
Proof.
  intros Hk.
  destruct (POST_cases w req) as [[Hd ->] | (d & Hd & [[_ ->] | [Hk' _]])].
  - now rewrite Hd.
  - now rewrite Hd.
  - congruence.
Qed.

(** X2.  In every run the ingestion is called at most once, with the
    arguments computed from the decoded payload, and before any other
    call: the trace is empty, or it is the ingestion followed by calls of
    the pipelines, the screenshot or the notice only. *)
Theorem POST_ingests_once_and_first (w : World) (req : Request) :
  snd (POST w req) = [] \/
  exists d rest,
    decode req = Some d /\
    snd (POST w req) = Ingest (ingestArgs w d) :: rest /\
    forallb is_trigger rest = true.
Proof.
  destruct (POST_cases w req)
    as [[_ ->] | (d & Hd & [[_ ->] | [_ [[_ ->] | (result & _ &
         [(_ & _ & ->) | [[_ ->] | (_ & _ & ->)]])]]])];
    try (now left); right; exists d; simpl.
  - exists []. auto.
  - exists []. auto.
  - exists []. auto.
  - exists (triggers w d result). auto using triggers_are_triggers.
Qed.

(** X3.  The calls that follow the ingestion are, in every run, one of
    four sequences: none; the pipelines; the pipelines and then the
    screenshot; the notice.  So the pipelines and the notice never go
    together, the screenshot never goes without the pipelines before it,
    and all the calls of a run carry the same, non-empty, id. *)
Theorem POST_trigger_sequences (w : World) (req : Request) :
  let calls := filter is_trigger (snd (POST w req)) in
  calls = [] \/
  exists i, i <> [] /\
    (calls = [TriggerPipelines i] \/
     (exists url landing, landing <> [] /\
        calls = [TriggerPipelines i; FetchScreenshot url i landing]) \/
     (exists url, calls = [FetchNonFundraisingNotice url i])).
Proof.
  destruct (POST_cases w req)
    as [[_ ->] | (d & Hd & [[_ ->] | [_ [[_ ->] | (result & _ &
         [(_ & _ & ->) | [[_ ->] | (_ & _ & ->)]])]]])];
    try (now left).
  cbn [snd filter is_trigger].
  assert (filter is_trigger (triggers w d result) = triggers w d result) as ->.
  { apply forallb_filter_id, triggers_are_triggers. }
  destruct (triggers_shape w d result) as [[-> _] | (i & _ & Hne & H)]; [now left|].
  right. exists i. split; [assumption|].
  destruct H as [[H _] | [(url & landing & Hl & H & _) | (url & H & _)]].
  - now left.
  - right; left. exists url, landing. now split.
  - right; right. now exists url.
Qed.

(** X4.  A call of the pipelines, of the screenshot or of the notice
    carries the id of the stored submission, which is not empty, and is
    made only in a run that answers 200 with [ok] and that id: never
    after a duplicate or a failed ingestion.  There is one exception: the
    call of the pipelines itself, when it fails; the run then answers 500
    [internal_error]. *)
Theorem POST_triggers_only_with_ok_unless_pipelines_fail
    (w : World) (req : Request) (e : Effect) :
  In e (snd (POST w req)) -> is_trigger e = true ->
  exists i, i <> [] /\ effect_id e = Some i /\
    (fst (POST w req) = {| status := 200; body := BodyOk (Some i) |} \/
     (fst (POST w req) = internal_error /\
      e = TriggerPipelines i /\ pipelinesResolve w i = false)).
Proof.
  destruct (POST_cases w req)
    as [[_ ->] | (d & Hd & [[_ ->] | [_ [[_ ->] | (result & _ &
         [(_ & _ & ->) | [[_ ->] | (_ & _ & ->)]])]]])];
    cbn [snd fst In]; intros Hin He;
    try (destruct Hin as [<- | []]; discriminate); try contradiction.
  destruct Hin as [<- | Hin]; [discriminate|].
  destruct (triggers_shape w d result) as [[Hnil _] | (i & Hid & Hne & H)].
  { rewrite Hnil in Hin. contradiction. }
  exists i. rewrite Hid. split; [assumption|].
  destruct H as [[H Hr] | [(url & landing & _ & H & Hr) | (url & H & Hr)]];
    rewrite H in Hin; rewrite Hr; simpl in Hin.
  - destruct Hin as [<- | []]. split; [reflexivity|].
    destruct (pipelinesResolve w i); simpl; [now left|right; auto].
  - destruct Hin as [<- | [<- | []]]; (split; [reflexivity|now left]).
  - destruct Hin as [<- | []]. split; [reflexivity|now left].
Qed.

(** X5.  The answer is 500 exactly when the payload could not be read,
    or, with the service-role key present, when the ingestion raised,
    when it failed for good (not [ok], not a duplicate, no id), or when
    the call of the pipelines, made for a fundraising result that is not
    a duplicate and has an id, failed.  A run that answers 500 has
    triggered nothing, or the pipelines alone, which failed. *)
Theorem POST_500_iff (w : World) (req : Request) :
  (status (fst (POST w req)) = 500 <->
   decode req = None \/
   exists d, decode req = Some d /\
     truthy_opt (SUPABASE_SERVICE_ROLE_KEY w) = true /\
     match ingestTextSubmission w (ingestArgs w d) with
     | None => True
     | Some result =>
         failed_for_good result = true \/
         ((ok result = true \/ error_is result (js "duplicate") = false) /\
          fundraising result = true /\
          exists i, id result = Some i /\ i <> [] /\ pipelinesResolve w i = false)
     end) /\
  (status (fst (POST w req)) = 500 ->
   filter is_trigger (snd (POST w req)) = [] \/
   exists i, pipelinesResolve w i = false /\
             filter is_trigger (snd (POST w req)) = [TriggerPipelines i]).
Proof.
  destruct (POST_cases w req)
    as [[Hd ->] | (d & Hd & [[Hk ->] | [Hk [[Hi ->] | (result & Hi &
         [(Hok & Hdup & ->) | [[Hf ->] | (Hf & Hnd & ->)]])]]])];
    cbn [fst snd status service_key_missing ingest_failed internal_error filter
         is_trigger];
    (split; [split|]); try discriminate; try (now left); auto.
  - intros [H | (d' & H & Hk' & _)]; congruence.
  - intros _. right. exists d. rewrite Hi. auto.
  - intros [H | (d' & H & _ & H')]; [congruence|].
    replace d' with d in H' by congruence. rewrite Hi in H'.
    unfold failed_for_good in H'. rewrite Hok, Hdup in H'.
    destruct H' as [H' | [[H' | H'] _]]; discriminate.
  - intros _. right. exists d. rewrite Hi. auto.
  - intros H5. right. exists d. split; [assumption|]. split; [assumption|].
    rewrite Hi. right. split; [assumption|].
    destruct (pipelinesReject w result) eqn:Hr; [|discriminate].
    unfold pipelinesReject in Hr.
    apply andb_true_iff in Hr as [Hr Hres]. apply andb_true_iff in Hr as [Hfr Hid].
    apply truthy_opt_or_str in Hid as [Hid Hne].
    split; [assumption|]. exists (or_str (id result) []).
    now apply negb_true_iff in Hres.
  - intros [H | (d' & H & _ & H')]; [congruence|].
    replace d' with d in H' by congruence. rewrite Hi in H'.
    destruct H' as [H' | (_ & Hfr & i & Hid & Hne & Hres)]; [congruence|].
    unfold pipelinesReject. rewrite Hfr, Hid. simpl.
    destruct i; [contradiction|]. simpl in *. now rewrite Hres.
  - intros H5.
    assert (filter is_trigger (triggers w d result) = triggers w d result) as ->.
    { apply forallb_filter_id, triggers_are_triggers. }
    destruct (triggers_shape w d result)
      as [[Hnil Hr] | (i & Hid & Hne & [[H Hr] | [(url & landing & _ & H & Hr)
                                                 | (url & H & Hr)]])];
      rewrite Hr in H5; try discriminate.
    right. exists i. rewrite H. split; [|reflexivity].
    destruct (pipelinesResolve w i); [discriminate|reflexivity].
Qed.

(** X1, witness: the Gmail forward, posted to a deployment without the
    key. *)
Lemma POST_without_service_key_witness :
  snd (POST Cases.world_without_key Examples.gmail_forward) = [] /\
  fst (POST Cases.world_without_key Examples.gmail_forward) =
    match decode Examples.gmail_forward with
    | Some _ => service_key_missing
    | None => internal_error
    end.
Proof.
  apply (POST_without_service_key Cases.world_without_key Examples.gmail_forward).
  reflexivity.
Defined.

(** X4, witness: the notice of the Gmail forward found not to be a
    fundraising message. *)
Lemma POST_triggers_only_with_ok_unless_pipelines_fail_witness :
  exists i, i <> [] /\
    effect_id (FetchNonFundraisingNotice
                 (js "https://abjail.example/api/send-non-fundraising-notice")
                 (js "42")) = Some i /\
    (fst (POST (Examples.world Examples.not_fundraising) Examples.gmail_forward)
     = {| status := 200; body := BodyOk (Some i) |} \/
     (fst (POST (Examples.world Examples.not_fundraising) Examples.gmail_forward)
      = internal_error /\
      FetchNonFundraisingNotice
        (js "https://abjail.example/api/send-non-fundraising-notice") (js "42")
      = TriggerPipelines i /\
      pipelinesResolve (Examples.world Examples.not_fundraising) i = false)).
Proof.
  apply (POST_triggers_only_with_ok_unless_pipelines_fail
           (Examples.world Examples.not_fundraising) Examples.gmail_forward
           (FetchNonFundraisingNotice
              (js "https://abjail.example/api/send-non-fundraising-notice")
              (js "42"))).
  - vm_compute. right; left; reflexivity.
  - reflexivity.
Defined.

(** The exception of X4 and the last case of X5: the pipelines fail, and
    the run that called them answers 500. *)
Example failed_pipelines_answer_500 :
  POST (Examples.world_pipelines_down Cases.fundraising_stored) Examples.gmail_forward
  = (internal_error,
     [Ingest (ingestArgs (Examples.world_pipelines_down Cases.fundraising_stored)
                         (Examples.decoded Examples.gmail_forward));
      TriggerPipelines (js "7")]).
Proof. vm_compute. reflexivity. Qed.

(** The first case of X5 in the JSON branch: a field that has no string
    form; nothing is decoded and no collaborator is called. *)
Example json_field_without_string_form :
  decode Cases.sender_without_string_form = None /\
  POST (Examples.world Examples.not_fundraising) Cases.sender_without_string_form
  = (internal_error, []).
Proof. vm_compute. split; reflexivity. Qed.

(* ------------------------------------------------------------------ *)
(** ** Texts in which an expression finds nothing *)

Lemma replace_from_no_match (f : flags) (r : re) (repl : jsstring) :
  forall s p,
    (forall a b p', s = a ++ b -> match_at f r p' b = None) ->
    replace_from f r repl 0 p s = s.
Proof.
  induction s as [|c s IH]; intros p H; cbn [replace_from].
  - now rewrite (H [] [] p eq_refl).
  - rewrite (H [] (c :: s) p eq_refl). f_equal. apply IH.
    intros a b p' ->. now apply (H (c :: a) b p').
Qed.

Lemma replace_no_match (f : flags) (r : re) (repl s : jsstring) :
  (forall a b p', s = a ++ b -> match_at f r p' b = None) ->
  replace f r repl s = s.
Proof.
  intros H. unfold replace.
  destruct (exec f r s) as [m|] eqn:Hm; [|reflexivity].
  apply search_sound in Hm as (a & b & p' & st & Hab & Hst & _).
  now rewrite (H a b p' Hab) in Hst.
Qed.

Lemma occursIn_app (e t x y : jsstring) : occursIn e t -> occursIn e (x ++ t ++ y).
Proof.
  intros (a & b & -> & H). exists (x ++ a), (b ++ y).
  split; [now rewrite <- !app_assoc | now apply startsWithCI_app].
Qed.

Lemma occursIn_tail (e x t : jsstring) : occursIn e t -> occursIn e (x ++ t).
Proof.
  intros H. apply (occursIn_app e t x []) in H. now rewrite app_nil_r in H.
Qed.

Lemma occursIn_head (e t y : jsstring) : occursIn e t -> occursIn e (t ++ y).
Proof. intros H. exact (occursIn_app e t [] y H). Qed.

Lemma occursIn_start (e w : jsstring) : startsWithCI w e = true -> occursIn e w.
Proof. intros H. now exists [], w. Qed.

(** A text matched from some position on by an expression all of whose
    words contain [e] contains [e]. *)
Lemma match_at_mentions (f : flags) (r : re) (e : jsstring) :
  (forall w, lang f r w -> occursIn e w) ->
  forall t, ~ occursIn e t ->
  forall a b p, t = a ++ b -> match_at f r p b = None.
Proof.
  intros Hr t Ht a b p ->.
  destruct (match_at f r p b) as [st|] eqn:Hm; [|reflexivity].
  apply match_at_sound in Hm as (w & Hw & ->).
  exfalso. apply Ht. apply occursIn_tail, occursIn_head, Hr, Hw.
Qed.

Lemma startsWithCI_skip (p1 p2 : jsstring) :
  forall w, startsWithCI w (p1 ++ p2) = true ->
            startsWithCI (skipn (length p1) w) p2 = true.
Proof.
  induction p1 as [|c p1 IH]; intros w H; [exact H|].
  destruct w as [|x w]; [discriminate|].
  simpl in H. apply andb_true_iff in H as [_ H]. simpl. now apply IH.
Qed.

Lemma occursIn_longer (p1 p2 w : jsstring) :
  startsWithCI w (p1 ++ p2) = true -> occursIn p2 w.
Proof.
  intros H. apply startsWithCI_skip in H.
  exists (firstn (length p1) w), (skipn (length p1) w).
  now rewrite firstn_skipn.
Qed.

(** The words of the separator expressions contain the two words. *)
Lemma separator_mentions (f : flags) (tail : list re) (w : jsstring) :
  ignoreCase f = true ->
  lang f (cat (separator_prefix ++ tail)) w ->
  occursIn (js "Forwarded message") w.
Proof.
  intros Hf H. unfold separator_prefix in H. cbn [app] in H.
  apply lang_cat_cons in H as (w1 & v1 & -> & _ & H).
  apply lang_cat_cons in H as (w2 & v2 & -> & _ & H).
  apply lang_cat_cons in H as (w3 & v3 & -> & _ & H).
  apply lang_cat_cons in H as (w4 & v4 & -> & _ & H).
  apply lang_cat_cons in H as (w5 & v5 & -> & H5 & _).
  apply (lang_lit f _ Hf) in H5 as [H5 _].
  do 4 apply occursIn_tail. apply occursIn_head. now apply occursIn_start.
Qed.

Lemma occursCI_case (t : jsstring) :
  occursCI t (js "Forwarded message") = occursCI t (js "forwarded message").
Proof. reflexivity. Qed.

(** [/forwarded message|begin forwarded message/i.test(s)] is the
    search of the two words in any case: the second alternative adds
    nothing. *)
Lemma test_forward_words (s : jsstring) :
  test flag_i re_forward_words s = occursCI s (js "forwarded message").
Proof.
  unfold test.
  destruct (exec flag_i re_forward_words s) as [m|] eqn:Hm.
  - symmetry. apply occursCI_occursIn.
    apply exec_sound in Hm as [Hs Hw]. rewrite Hs.
    apply occursIn_tail, occursIn_head.
    unfold re_forward_words in Hw.
    inversion Hw as [ | | | | | | | | r1 r2 w H | r1 r2 w H | | | ]; subst.
    + apply lang_lit in H as [H _]; [|reflexivity]. now apply occursIn_start.
    + apply lang_lit in H as [H _]; [|reflexivity].
      apply (occursIn_longer (js "begin ") (js "forwarded message")). exact H.
  - symmetry. apply occursIn_false. intros (a & b & Hab & Hb).
    destruct (search_None _ _ _ _ _ Hm a b Hab) as [p' Hp].
    unfold match_at, re_forward_words in Hp. cbn [mt] in Hp.
    destruct (mt_lit_true (js "forwarded message") Some (start_state p' b) Hb)
      as [p'' Hlit].
    unfold lit in Hp. rewrite Hlit in Hp. discriminate.
Qed.

Lemma separators_find_nothing (f : flags) (tail : list re) (repl t : jsstring) :
  ignoreCase f = true ->
  occursCI t (js "forwarded message") = false ->
  replace f (cat (separator_prefix ++ tail)) repl t = t /\
  replaceAll f (cat (separator_prefix ++ tail)) repl t = t.
Proof.
  intros Hf Ht. rewrite <- occursCI_case in Ht. apply occursIn_false in Ht.
  assert (forall a b p', t = a ++ b ->
            match_at f (cat (separator_prefix ++ tail)) p' b = None) as Hno.
  { intros a b p'. apply (match_at_mentions f _ (js "Forwarded message")); auto.
    intros w. now apply separator_mentions. }
  split; [now apply replace_no_match | now apply replace_from_no_match].
Qed.

Lemma isForwarded_false (d : Decoded) :
  isForwarded d = false ->
  occursCI (initialRawText d) (js "forwarded message") = false /\
  occursCI (bodyHtml d) (js "forwarded message") = false.
Proof.
  unfold isForwarded, detectForwardedEmail. rewrite !test_forward_words.
  destruct (startsWith _ _ || includes _ _)%bool; [discriminate|].
  apply orb_false_iff.
Qed.

(** X6.  A message is taken for a forward exactly when its subject begins
    with fwd: or contains fw:, or the text or the HTML contains the words
    forwarded message, all in any character case.  The alternative begin
    forwarded message of the expression adds nothing. *)
Theorem detectForwardedEmail_markers (subject bodyText bodyHtml : jsstring) :
  detectForwardedEmail subject bodyText bodyHtml =
  (startsWithCI subject (js "fwd:") || occursCI subject (js "fw:") ||
   occursCI bodyText (js "forwarded message") ||
   occursCI bodyHtml (js "forwarded message"))%bool.
Proof.
  unfold detectForwardedEmail. rewrite !test_forward_words.
  change (js "fwd:") with (toLowerCase (js "fwd:")) at 1.
  rewrite startsWith_lower.
  change (includes (toLowerCase subject) (js "fw:")) with (occursCI subject (js "fw:")).
  destruct (startsWithCI subject (js "fwd:") || occursCI subject (js "fw:"))%bool;
    [reflexivity|]. now rewrite orb_false_l.
Qed.

(** X7.  The removal of the separator lines touches forwards only: the
    text of a message that is not taken for a forward is left as it is,
    and so is an HTML body that does not contain the words forwarded
    message. *)
Theorem separators_removed_from_forwards_only (w : World) (d : Decoded) :
  (isForwarded d = false -> strippedRawText d = initialRawText d) /\
  (truthy (sanitizeEmailHtml w (bodyHtml d)) = true ->
   truthy (bodyHtml d) = true ->
   occursCI (sanitizeEmailHtml w (bodyHtml d)) (js "forwarded message") = false ->
   sanitizedHtml w d =
     Some (redactHoneytrap (config_list (HONEYTRAP_EMAILS (env w)))
                           (config_list (HONEYTRAP_IDS (env w)))
                           (sanitizeEmailHtml w (bodyHtml d)))).
Proof.
  split.
  - intros H. apply isForwarded_false in H as [H _]. unfold strippedRawText.
    unfold re_separator_text_1, re_separator_text_2.
    rewrite (proj1 (separators_find_nothing flag_im _ [] _ eq_refl H)).
    apply (proj2 (separators_find_nothing flag_im _ [] _ eq_refl H)).
  - intros Hs Hh H. unfold sanitizedHtml. rewrite Hh. cbn [truthy_opt]. rewrite Hs.
    unfold re_separator_html_1, re_separator_html_2.
    assert (or_str (Some (sanitizeEmailHtml w (bodyHtml d))) []
            = sanitizeEmailHtml w (bodyHtml d)) as ->.
    { destruct (sanitizeEmailHtml w (bodyHtml d)); [discriminate | reflexivity]. }
    rewrite (proj1 (separators_find_nothing flag_im _ [] _ eq_refl H)).
    now rewrite (proj2 (separators_find_nothing flag_im _ [] _ eq_refl H)).
Qed.

Lemma redactHoneytrap_nothing_to_do (emails ids : list jsstring) (t : jsstring) :
  all_nonempty emails -> all_nonempty ids ->
  (forall q, In q (emails ++ ids) -> occursCI t q = false) ->
  redactHoneytrap emails ids t = t.
Proof.
  intros He Hi H. rewrite redactHoneytrap_passes by assumption.
  rewrite (passes_identity email_placeholder emails t He).
  - apply passes_identity; [assumption|].
    intros q Hq. apply occursIn_false, H, in_or_app. now right.
  - intros q Hq. apply occursIn_false, H, in_or_app. now left.
Qed.

(** X8.  The redaction has no false positives: a text in which none of
    the configured addresses and ids occurs, in any character case, comes
    out as it went in.  In particular nothing is changed when nothing is
    configured. *)
Theorem redaction_changes_identifiers_only (e : Env) (t : jsstring) :
  (forall q, In q (config_list (HONEYTRAP_EMAILS e) ++ config_list (HONEYTRAP_IDS e)) ->
             occursCI t q = false) ->
  redactHoneytrap (config_list (HONEYTRAP_EMAILS e)) (config_list (HONEYTRAP_IDS e)) t
  = t.
Proof.
  intros H. apply redactHoneytrap_nothing_to_do; auto using config_list_nonempty.
Qed.

Lemma no_identifier_occurs (e : Env) (t : jsstring) :
  forallb (fun q => negb (occursCI t q))
          (config_list (HONEYTRAP_EMAILS e) ++ config_list (HONEYTRAP_IDS e)) = true ->
  forall q, In q (config_list (HONEYTRAP_EMAILS e) ++ config_list (HONEYTRAP_IDS e)) ->
            occursCI t q = false.
Proof.
  intros H q Hq. rewrite forallb_forall in H. apply negb_true_iff. now apply H.
Qed.

(** X8, witness: a sentence that mentions neither honeytrap address nor
    the tracking id. *)
Lemma redaction_changes_identifiers_only_witness :
  redactHoneytrap (config_list (HONEYTRAP_EMAILS Examples.honeytraps))
                  (config_list (HONEYTRAP_IDS Examples.honeytraps))
                  (js "Chip in now, jane@example.org (ref. 81)")
  = js "Chip in now, jane@example.org (ref. 81)".
Proof.
  apply (redaction_changes_identifiers_only Examples.honeytraps
           (js "Chip in now, jane@example.org (ref. 81)")).
  apply no_identifier_occurs. vm_compute. reflexivity.
Defined.

(** X9.  A message that is not taken for a forward, has a plain-text body
    and mentions none of the configured identifiers in it is stored
    verbatim: the raw text handed to the ingestion is the plain-text body,
    and the text handed to it is that body cleaned. *)
Theorem direct_message_stored_verbatim (w : World) (d : Decoded) :
  isForwarded d = false ->
  truthy (bodyPlain d) = true ->
  (forall q, In q (config_list (HONEYTRAP_EMAILS (env w)) ++
                   config_list (HONEYTRAP_IDS (env w))) ->
             occursCI (bodyPlain d) q = false) ->
  rawText (ingestArgs w d) = bodyPlain d /\
  text (ingestArgs w d) = cleanTextForAI w (bodyPlain d) /\
  forwarderEmail (ingestArgs w d) = None.
Proof.
  intros Hf Hb Hq.
  assert (initialRawText d = bodyPlain d) as Hraw
    by (unfold initialRawText; now rewrite Hb).
  assert (redactedRawText (env w) d = bodyPlain d) as Hred.
  { unfold redactedRawText.
    apply isForwarded_false in Hf as [Hf _]. unfold strippedRawText.
    unfold re_separator_text_1, re_separator_text_2.
    rewrite (proj1 (separators_find_nothing flag_im _ [] _ eq_refl Hf)).
    rewrite (proj2 (separators_find_nothing flag_im _ [] _ eq_refl Hf)).
    rewrite Hraw. apply redactHoneytrap_nothing_to_do;
      auto using config_list_nonempty. }
  cbn [ingestArgs rawText text forwarderEmail]. rewrite Hred.
  repeat split. unfold forwarderEmailOf. now rewrite Hf.
Qed.

(** X9, witness: a message of Jane Doe sent straight to the service. *)
Lemma direct_message_stored_verbatim_witness :
  rawText (ingestArgs (Examples.world Examples.not_fundraising)
                      (Examples.decoded Cases.direct_message))
  = bodyPlain (Examples.decoded Cases.direct_message) /\
  text (ingestArgs (Examples.world Examples.not_fundraising)
                   (Examples.decoded Cases.direct_message))
  = cleanTextForAI (Examples.world Examples.not_fundraising)
      (bodyPlain (Examples.decoded Cases.direct_message)) /\
  forwarderEmail (ingestArgs (Examples.world Examples.not_fundraising)
                             (Examples.decoded Cases.direct_message)) = None.
Proof.
  apply (direct_message_stored_verbatim
           (Examples.world Examples.not_fundraising)
           (Examples.decoded Cases.direct_message)).
  - vm_compute. reflexivity.
  - vm_compute. reflexivity.
  - apply no_identifier_occurs. vm_compute. reflexivity.
Defined.

(** X10.  No configured tracking id that cannot overlap the placeholder
    of eight hash signs survives, in any character case, in what is
    handed to the ingestion: not in the subject, not in the raw text, not
    in the HTML shown; and not in the cleaned text if the cleaner
    introduces no id. *)
Theorem no_clear_tracking_id_survives (w : World) (d : Decoded) (i : jsstring) :
  In i (config_list (HONEYTRAP_IDS (env w))) ->
  canOverlap id_placeholder i = false ->
  (forall s, emailSubject (ingestArgs w d) = Some s -> occursCI s i = false) /\
  occursCI (rawText (ingestArgs w d)) i = false /\
  ((forall t, occursCI t i = false -> occursCI (cleanTextForAI w t) i = false) ->
   occursCI (text (ingestArgs w d)) i = false) /\
  (forall html, emailBody (ingestArgs w d) = Some html -> occursCI html i = false).
Proof.
  intros Hin Hclear.
  assert (forall t, occursCI (redactHoneytrap (config_list (HONEYTRAP_EMAILS (env w)))
                                (config_list (HONEYTRAP_IDS (env w))) t) i = false)
    as Hred.
  { intros t. apply redactHoneytrap_removes_id; auto using config_list_nonempty. }
  split; [|split; [|split]].
  - cbn [ingestArgs emailSubject]. unfold nonempty, redactedSubject.
    intros s. destruct (truthy _); [|discriminate]. intros [= <-]. apply Hred.
  - cbn [ingestArgs rawText]. apply Hred.
  - intros Hclean. cbn [ingestArgs text]. apply Hclean, Hred.
  - intros html Hb. apply emailBody_redacted in Hb as [t ->]. apply Hred.
Qed.

(** X10, witness: the tracking id zx81q of the message caught by the
    honeytrap, which has it in the subject and in both bodies. *)
Lemma no_clear_tracking_id_survives_witness :
  (forall s, emailSubject (ingestArgs (Examples.world Examples.not_fundraising)
                             (Examples.decoded Examples.honeytrap_capture)) = Some s ->
             occursCI s (js "zx81q") = false) /\
  occursCI (rawText (ingestArgs (Examples.world Examples.not_fundraising)
                       (Examples.decoded Examples.honeytrap_capture)))
           (js "zx81q") = false /\
  ((forall t, occursCI t (js "zx81q") = false ->
      occursCI (cleanTextForAI (Examples.world Examples.not_fundraising) t)
               (js "zx81q") = false) ->
   occursCI (text (ingestArgs (Examples.world Examples.not_fundraising)
                     (Examples.decoded Examples.honeytrap_capture)))
            (js "zx81q") = false) /\
  (forall html, emailBody (ingestArgs (Examples.world Examples.not_fundraising)
                             (Examples.decoded Examples.honeytrap_capture)) = Some html ->
                occursCI html (js "zx81q") = false).
Proof.
  apply (no_clear_tracking_id_survives
           (Examples.world Examples.not_fundraising)
           (Examples.decoded Examples.honeytrap_capture) (js "zx81q")).
  - vm_compute. left; reflexivity.
  - vm_compute. reflexivity.
Defined.

(** X7, witness: a message with an HTML body only, which is no forward. *)
Lemma separators_removed_from_forwards_only_witness :
  strippedRawText (Examples.decoded Cases.direct_html_message)
  = initialRawText (Examples.decoded Cases.direct_html_message) /\
  sanitizedHtml (Examples.world Examples.not_fundraising)
                (Examples.decoded Cases.direct_html_message)
  = Some (redactHoneytrap
            (config_list (HONEYTRAP_EMAILS (env (Examples.world Examples.not_fundraising))))
            (config_list (HONEYTRAP_IDS (env (Examples.world Examples.not_fundraising))))
            (sanitizeEmailHtml (Examples.world Examples.not_fundraising)
               (bodyHtml (Examples.decoded Cases.direct_html_message)))).
Proof.
  split.
  - apply (proj1 (separators_removed_from_forwards_only
                    (Examples.world Examples.not_fundraising)
                    (Examples.decoded Cases.direct_html_message))).
    vm_compute. reflexivity.
  - apply (proj2 (separators_removed_from_forwards_only
                    (Examples.world Examples.not_fundraising)
                    (Examples.decoded Cases.direct_html_message)));
      vm_compute; reflexivity.
Defined.

(* ------------------------------------------------------------------ *)
(** ** Trimming, splitting, capturing *)

Lemma trimStart_split (s : jsstring) :
  exists pre, s = pre ++ trimStart s /\ forallb isWhiteSpace pre = true.
Proof.
  induction s as [|c s (pre & IH & Hpre)]; [now exists []|].
  cbn [trimStart]. destruct (isWhiteSpace c) eqn:Hc.
  - exists (c :: pre). simpl. rewrite Hc, Hpre. split; [now f_equal | reflexivity].
  - now exists [].
Qed.

Lemma trimStart_head (s : jsstring) (c : ascii) (t : jsstring) :
  trimStart s = c :: t -> isWhiteSpace c = false.
Proof.
  induction s as [|x s IH]; [discriminate|].
  cbn [trimStart]. destruct (isWhiteSpace x) eqn:Hx; [exact IH|].
  now intros [= <- _].
Qed.

Lemma forallb_rev {A : Type} (P : A -> bool) (l : list A) :
  forallb P (rev l) = forallb P l.
Proof.
  induction l as [|x l IH]; [reflexivity|].
  cbn [rev forallb]. rewrite forallb_app, IH. simpl. rewrite andb_true_r.
  apply andb_comm.
Qed.

Lemma trimEnd_split (s : jsstring) :
  exists post, s = trimEnd s ++ post /\ forallb isWhiteSpace post = true.
Proof.
  unfold trimEnd. destruct (trimStart_split (rev s)) as (pre & H & Hpre).
  exists (rev pre). split; [|now rewrite forallb_rev].
  rewrite <- rev_app_distr, <- H. now rewrite rev_involutive.
Qed.

Lemma trim_split (s : jsstring) :
  exists pre post,
    s = pre ++ trim s ++ post /\
    forallb isWhiteSpace pre = true /\ forallb isWhiteSpace post = true.
Proof.
  unfold trim. destruct (trimStart_split s) as (pre & H & Hpre).
  destruct (trimEnd_split (trimStart s)) as (post & H' & Hpost).
  exists pre, post. repeat split; auto. now rewrite <- H', <- H.
Qed.

Lemma trim_trimmed (s : jsstring) : trimmed (trim s).
Proof.
  split; intros c t H.
  - unfold trim in H. destruct (trimEnd_split (trimStart s)) as (post & H' & _).
    rewrite H in H'. simpl in H'. now apply trimStart_head in H'.
  - unfold trim, trimEnd in H.
    apply (f_equal (@rev ascii)) in H.
    rewrite rev_involutive, rev_app_distr in H. simpl in H.
    now apply trimStart_head in H.
Qed.

Lemma forallb_parts {A : Type} (P : A -> bool) (a b c : list A) :
  forallb P (a ++ b ++ c) = true -> forallb P b = true.
Proof.
  rewrite !forallb_app. intros H.
  apply andb_true_iff in H as [_ H]. now apply andb_true_iff in H as [H _].
Qed.

Lemma partOf_refl (s : jsstring) : partOf s s.
Proof. exists [], []. now rewrite app_nil_r. Qed.

Lemma partOf_trans (a b c : jsstring) : partOf a b -> partOf b c -> partOf a c.
Proof.
  intros (p1 & q1 & ->) (p2 & q2 & ->).
  exists (p2 ++ p1), (q1 ++ q2). now rewrite <- !app_assoc.
Qed.

Lemma partOf_middle (a b c : jsstring) : partOf b (a ++ b ++ c).
Proof. now exists a, c. Qed.

(** The pieces of a split are parts of the text. *)
Lemma split_from_parts (f : flags) (r : re) :
  forall s skip p cur piece,
    skip = 0 \/ cur = [] ->
    In piece (split_from f r skip p cur s) -> partOf piece (rev cur ++ s).
Proof.
  induction s as [|c s IH]; intros skip p cur piece Hc Hin.
  - assert (piece = rev cur) as ->
      by (destruct skip; simpl in Hin; destruct Hin as [<- | []]; reflexivity).
    rewrite app_nil_r. apply partOf_refl.
  - destruct skip as [|n].
    + cbn [split_from] in Hin.
      destruct (match_at f r p (c :: s)) as [st|].
      * destruct (length (c :: s) - length (rest st)) as [|n].
        -- destruct cur as [|x cur].
           ++ apply IH in Hin; [exact Hin | now left].
           ++ destruct Hin as [<- | Hin]; [now exists [], (c :: s)|].
              apply IH in Hin; [|now left].
              apply (partOf_trans _ _ _ Hin).
              exists (rev (x :: cur)), []. now rewrite app_nil_r.
        -- destruct Hin as [<- | Hin]; [now exists [], (c :: s)|].
           apply IH in Hin; [|now right].
           apply (partOf_trans _ _ _ Hin).
           exists (rev cur ++ [c]), []. cbn [rev app].
           now rewrite app_nil_r, <- app_assoc.
      * apply IH in Hin; [|now left]. cbn [rev] in Hin.
        now rewrite <- app_assoc in Hin.
    + destruct Hc as [Hc | ->]; [discriminate|].
      cbn [split_from] in Hin. apply IH in Hin; [|now right].
      apply (partOf_trans _ _ _ Hin). exists [c], []. cbn.
      now rewrite app_nil_r.
Qed.

Lemma split_parts (f : flags) (r : re) (s piece : jsstring) :
  In piece (split f r s) -> partOf piece s.
Proof. intros H. apply split_from_parts in H; [exact H | now left]. Qed.

Lemma partOf_cons (c : ascii) (a s : jsstring) : partOf a s -> partOf a (c :: s).
Proof. intros (x & y & ->). now exists (c :: x), y. Qed.

Lemma split_char_shape (sep : ascii) :
  forall s, exists first more,
    split_char sep s = first :: more /\
    (exists b, s = first ++ b) /\
    forall piece, In piece more -> partOf piece s.
Proof.
  induction s as [|c s (first & more & Hs & (b & Hb) & Hmore)].
  - exists [], []. repeat split; [now exists [] | intros ? []].
  - cbn [split_char]. rewrite Hs. destruct (Ascii.eqb c sep).
    + exists [], (first :: more). repeat split; [now exists (c :: s)|].
      intros piece [<- | Hin].
      * apply partOf_cons. exists [], b. exact Hb.
      * now apply partOf_cons, Hmore.
    + exists (c :: first), more. repeat split.
      * exists b. simpl. now f_equal.
      * intros piece Hin. now apply partOf_cons, Hmore.
Qed.

Lemma split_char_parts (sep : ascii) (s piece : jsstring) :
  In piece (split_char sep s) -> partOf piece s.
Proof.
  destruct (split_char_shape sep s) as (first & more & -> & (b & Hb) & Hmore).
  intros [<- | Hin]; [|now apply Hmore].
  exists [], b. exact Hb.
Qed.

Lemma mt_cat_app (f : flags) (rs : list re) (k : mstate -> option mstate) :
  forall pre s, mt f (cat (pre ++ rs)) k s = mt f (cat pre) (mt f (cat rs) k) s.
Proof.
  induction pre as [|a pre IH]; intros s; [reflexivity|].
  change (mt f a (mt f (cat (pre ++ rs)) k) s
          = mt f a (mt f (cat pre) (mt f (cat rs) k)) s).
  apply mt_stays_within. intros s' _. apply IH.
Qed.

(** A match of an expression with one group: the text is cut into what
    stands before the group, the captured word and what follows. *)
Lemma match_cat_group (f : flags) (pre : list re) (n : nat) (r : re)
    (post : list re) (p : option ascii) (s : jsstring) (st : mstate) :
  groups_of (cat post) = [] ->
  match_at f (cat (pre ++ Grp n r :: post)) p s = Some st ->
  exists w0 w w1 s2,
    s = w0 ++ w ++ w1 ++ rest st /\
    lang f (cat pre) w0 /\ lang f r w /\ lang f (cat post) w1 /\
    find (fun q => Nat.eqb (fst q) n) (caps st) = Some (n, w) /\
    mt f (cat post) Some s2 = Some st /\ rest s2 = w1 ++ rest st.
Proof.
  intros Hpost H. unfold match_at in H. rewrite mt_cat_app in H.
  apply mt_sound in H as (w0 & s1 & Hw0 & Hr0 & _ & H).
  change (mt f (cat (Grp n r :: post)) Some s1)
    with (mt f (Grp n r) (mt f (cat post) Some) s1) in H.
  apply mt_grp_sound in H as (w & s2 & Hw & Hr & H).
  pose proof H as Hk.
  apply mt_sound in H as (w1 & s3 & Hw1 & Hr1 & Hcaps & [= <-]).
  exists w0, w, w1, {| prev := prev s2; rest := rest s2;
                       caps := set_cap n w (caps s2) |}.
  cbn [rest] in *. repeat split; auto.
  - cbn [start_state rest] in Hr0. now rewrite Hr0, Hr, Hr1.
  - rewrite (Hcaps Hpost). cbn [caps set_cap find fst]. now rewrite Nat.eqb_refl.
Qed.

Lemma exec_cat_group (f : flags) (pre : list re) (n : nat) (r : re)
    (post : list re) (s : jsstring) (m : match_result) :
  groups_of (cat post) = [] ->
  exec f (cat (pre ++ Grp n r :: post)) s = Some m ->
  exists w0 w w1 s2 st,
    s = before m ++ w0 ++ w ++ w1 ++ after m /\
    lang f (cat pre) w0 /\ lang f r w /\ lang f (cat post) w1 /\
    capture n m = Some w /\
    mt f (cat post) Some s2 = Some st /\ rest s2 = w1 ++ after m.
Proof.
  intros Hpost H. unfold exec in H.
  apply search_sound in H as (a & b & p' & st & -> & Hst & Hb & _ & Hg & Ha).
  apply (match_cat_group f pre n r post p' b st Hpost) in Hst
    as (w0 & w & w1 & s2 & Hs & Hw0 & Hw & Hw1 & Hfind & Hk & Hr).
  exists w0, w, w1, s2, st. rewrite Hb, Ha. cbn [rev app].
  repeat split; auto.
  - now rewrite <- Hs.
  - unfold capture. now rewrite Hg, Hfind.
Qed.

(** Without the [m] flag, an expression that begins with [^] matches at
    the beginning of the text only, and one that ends with [$] at its end
    only. *)
Lemma search_anchored (f : flags) (rs : list re) :
  multiline f = false ->
  forall s c pre, search f (cat (Bol :: rs)) (Some c) pre s = None.
Proof.
  intros Hf.
  assert (forall s c, match_at f (cat (Bol :: rs)) (Some c) s = None) as Hno.
  { intros s c. unfold match_at. cbn [cat fold_right mt at_bol start_state prev].
    now rewrite Hf. }
  induction s as [|x s IH]; intros c pre; cbn [search]; rewrite Hno; auto.
Qed.

Lemma exec_anchored (f : flags) (rs : list re) (s : jsstring) (m : match_result) :
  multiline f = false ->
  exec f (cat (Bol :: rs)) s = Some m -> before m = [].
Proof.
  intros Hf. unfold exec. destruct s as [|c s]; cbn [search].
  - destruct (match_at f (cat (Bol :: rs)) None []); [|discriminate].
    now intros [= <-].
  - destruct (match_at f (cat (Bol :: rs)) None (c :: s)).
    + now intros [= <-].
    + now rewrite search_anchored.
Qed.

Lemma mt_eol (f : flags) (s st : mstate) :
  multiline f = false ->
  mt f (cat [Eol]) Some s = Some st -> rest s = [].
Proof.
  intros Hf. cbn [cat fold_right mt]. unfold at_eol.
  destruct (rest s); [reflexivity|]. now rewrite Hf.
Qed.

Lemma lang_bol_cons (f : flags) (rs : list re) (w : jsstring) :
  lang f (cat (Bol :: rs)) w -> lang f (cat rs) w.
Proof.
  intros H. apply lang_cat_cons in H as (w1 & w2 & -> & H1 & H2).
  inversion H1; subst. exact H2.
Qed.

(** Properties of characters, checked on all of them. *)
Lemma by_cases (P : ascii -> bool) :
  forallb P all_ascii = true -> forall x, P x = true.
Proof. intros H x. rewrite forallb_forall in H. apply H, all_ascii_complete. Qed.

Lemma forallb_impl {A : Type} (P Q : A -> bool) (l : list A) :
  (forall x, P x = true -> Q x = true) -> forallb P l = true -> forallb Q l = true.
Proof.
  intros H. rewrite !forallb_forall. intros Hl x Hx. apply H, Hl, Hx.
Qed.

Lemma chr_match_at_sign (f : flags) (x : ascii) :
  plain_or_i f -> chr_match f "@" x = true -> x = "@"%char.
Proof.
  intros [-> | ->] H; apply Ascii.eqb_eq; revert H;
    generalize (by_cases (fun x => implb (chr_match no_flags "@" x) (Ascii.eqb x "@"))
                  eq_refl x),
               (by_cases (fun x => implb (chr_match flag_i "@" x) (Ascii.eqb x "@"))
                  eq_refl x);
    cbv beta; intros H1 H2 H; rewrite H in *; assumption.
Qed.

Lemma chr_match_dot (f : flags) (x : ascii) :
  plain_or_i f -> chr_match f "." x = true -> x = "."%char.
Proof.
  intros [-> | ->] H; apply Ascii.eqb_eq; revert H;
    generalize (by_cases (fun x => implb (chr_match no_flags "." x) (Ascii.eqb x "."))
                  eq_refl x),
               (by_cases (fun x => implb (chr_match flag_i "." x) (Ascii.eqb x "."))
                  eq_refl x);
    cbv beta; intros H1 H2 H; rewrite H in *; assumption.
Qed.

Lemma address_classes (f : flags) (x : ascii) :
  plain_or_i f ->
  (class_has f localClass x = true -> isLocalChar x = true) /\
  (class_has f domainClass x = true -> isDomainChar x = true) /\
  (class_has f letterClass x = true -> isLetter x = true).
Proof.
  assert (forallb (fun x => implb (class_has no_flags localClass x) (isLocalChar x) &&
                            implb (class_has no_flags domainClass x) (isDomainChar x) &&
                            implb (class_has no_flags letterClass x) (isLetter x) &&
                            implb (class_has flag_i localClass x) (isLocalChar x) &&
                            implb (class_has flag_i domainClass x) (isDomainChar x) &&
                            implb (class_has flag_i letterClass x) (isLetter x))
                  all_ascii = true) as Hall by (vm_compute; reflexivity).
  apply by_cases with (x := x) in Hall.
  repeat (apply andb_true_iff in Hall as [Hall ?]).
  intros [-> | ->]; repeat split; intros Hc;
    match goal with
    | Hi : implb ?a _ = true |- _ => rewrite Hc in Hi; exact Hi
    end.
Qed.

Lemma lang_class_rep (f : flags) (items : list class_item) (lo : nat) (w : jsstring) :
  lang f (Rep lo None (OneOf items)) w ->
  forallb (class_has f items) w = true /\ lo <= length w.
Proof.
  intros H.
  apply (lang_rep_of_chars f (OneOf items) (class_has f items)
           (lang_oneof_inv f items) _ w H lo None eq_refl I).
Qed.

(** The words of the address expression, with or without the [i] flag,
    are well-formed addresses. *)
Lemma address_words (f : flags) (w : jsstring) :
  plain_or_i f -> lang f re_address w -> wellFormedAddress w.
Proof.
  intros Hf H. unfold re_address in H.
  apply lang_cat_cons in H as (l & v1 & -> & Hl & H).
  apply lang_cat_cons in H as (at_ & v2 & -> & Hat & H).
  apply lang_cat_cons in H as (dm & v3 & -> & Hdm & H).
  apply lang_cat_cons in H as (dot & v4 & -> & Hdot & H).
  apply lang_cat_cons in H as (tld & v5 & -> & Htld & H).
  apply lang_cat_nil in H as ->.
  apply lang_class_rep in Hl as [Hl Hl1].
  apply lang_class_rep in Hdm as [Hdm Hdm1].
  apply lang_class_rep in Htld as [Htld Htld1].
  apply lang_chr_inv in Hat as (x & -> & Hx). apply (chr_match_at_sign f x Hf) in Hx as ->.
  apply lang_chr_inv in Hdot as (y & -> & Hy). apply (chr_match_dot f y Hf) in Hy as ->.
  exists l, dm, tld. rewrite app_nil_r. cbn [app]. repeat split.
  - intros ->. simpl in Hl1. lia.
  - revert Hl. apply forallb_impl. intros x. apply (address_classes f x Hf).
  - intros ->. simpl in Hdm1. lia.
  - revert Hdm. apply forallb_impl. intros x. apply (address_classes f x Hf).
  - exact Htld1.
  - revert Htld. apply forallb_impl. intros x. apply (address_classes f x Hf).
Qed.

Lemma exec_group (f : flags) (n : nat) (r : re) (s : jsstring) (m : match_result) :
  exec f (Grp n r) s = Some m ->
  exists w, capture n m = Some w /\ lang f r w /\ s = before m ++ w ++ after m.
Proof.
  unfold exec. intros H.
  apply search_sound in H as (a & b & p' & st & -> & Hst & Hb & _ & Hg & Ha).
  unfold match_at in Hst.
  apply mt_grp_sound in Hst as (w & s' & Hw & Hr & [= <-]).
  exists w. unfold capture. rewrite Hg, Hb, Ha.
  cbn [caps set_cap find fst snd rest rev app start_state] in *.
  rewrite Nat.eqb_refl. repeat split; auto. now rewrite Hr.
Qed.

(* ------------------------------------------------------------------ *)
(** ** The addresses and the From line that are recovered *)

Lemma parseEmailAddress_sound (input : option jsstring) (a : jsstring) :
  parseEmailAddress input = Some a ->
  exists s, input = Some s /\ partOf a s /\ wellFormedAddress a.
Proof.
  unfold parseEmailAddress. destruct input as [[|c s]|]; try discriminate.
  cbn [truthy_opt truthy negb or_str].
  destruct (exec no_flags re_bare_address (c :: s)) as [m|] eqn:Hm; [|discriminate].
  intros Hc. apply exec_group in Hm as (w & Hw & Hl & Hs).
  assert (w = a) as -> by congruence.
  exists (c :: s). repeat split.
  - rewrite Hs. apply partOf_middle.
  - apply (address_words no_flags); [now left | exact Hl].
Qed.

Lemma extractOriginalSender_sound (text a : jsstring) :
  extractOriginalSender text = Some a ->
  wellFormedAddress a /\
  exists line,
    In line (firstn 50 (split_char LF text)) /\
    startsWithCI line (js "From:") = true /\ partOf a line.
Proof.
  unfold extractOriginalSender.
  generalize (firstn 50 (split_char LF text)) as ls.
  induction ls as [|line ls IH]; [discriminate|].
  destruct (exec flag_i re_sender_line line) as [m|] eqn:Hm.
  2:{ intros H. apply IH in H as (Hwf & l & Hin & Hl). split; [exact Hwf|].
      exists l. split; [now right | exact Hl]. }
  destruct (truthy_opt (capture 1 m)) eqn:Ht.
  2:{ intros H. apply IH in H as (Hwf & l & Hin & Hl). split; [exact Hwf|].
      exists l. split; [now right | exact Hl]. }
  intros Hc. unfold re_sender_line in Hm.
  pose proof (exec_anchored flag_i _ line m eq_refl Hm) as Hb.
  change (cat [Bol; lit "From:"; Star ws;
               Opt (cat [Chr DQUOTE; Star (NoneOf [CChar DQUOTE]); Chr DQUOTE; Star ws]);
               Opt (Chr "<"%char); Grp 1 re_address; Opt (Chr ">"%char)])
    with (cat ([Bol; lit "From:"; Star ws;
                Opt (cat [Chr DQUOTE; Star (NoneOf [CChar DQUOTE]); Chr DQUOTE; Star ws]);
                Opt (Chr "<"%char)] ++ Grp 1 re_address :: [Opt (Chr ">"%char)])) in Hm.
  apply exec_cat_group in Hm
    as (w0 & w & w1 & s2 & st & Hs & Hw0 & Hw & _ & Hcap & _); [|reflexivity].
  rewrite Hcap in Hc. injection Hc as ->.
  split; [apply (address_words flag_i); [now right | exact Hw]|].
  exists line. split; [now left|].
  rewrite Hb in Hs. cbn [app] in Hs.
  apply lang_bol_cons, lang_cat_cons in Hw0 as (h & v & -> & Hh & _).
  apply lang_lit in Hh as [Hh _]; [|reflexivity].
  split.
  - rewrite Hs, <- !app_assoc. now apply startsWithCI_app.
  - rewrite Hs. apply partOf_middle.
Qed.

Lemma searchFromHeader_source (e : Env) (ls : list jsstring) :
  forall first line,
    searchFromHeader e first ls = Some (Some line) ->
    exists l m,
      In l ls /\ exec flag_i re_from_header l = Some m /\
      validateAndCleanFromLine e (or_str (capture 1 m) []) = Some line.
Proof.
  induction ls as [|l ls IH]; intros first line; simpl; [discriminate|].
  destruct (exec flag_i re_from_header l) as [m|] eqn:Hm.
  - intros [= H]. exists l, m. auto.
  - destruct (eqb_str (trim l) [] && negb first)%bool; [discriminate|].
    intros H. apply IH in H as (l' & m & Hin & H). exists l', m. auto.
Qed.

Lemma scanForFrom_source (e : Env) (n : nat) :
  forall ls line,
    scanForFrom e n ls = Some line ->
    exists l m,
      In l ls /\ exec flag_i re_from_header l = Some m /\
      validateAndCleanFromLine e (or_str (capture 1 m) []) = Some line.
Proof.
  induction n as [|n IH]; intros ls line; [discriminate|].
  destruct ls as [|l ls]; [discriminate|].
  cbn [scanForFrom].
  assert (scanForFrom e n ls = Some line ->
          exists l0 m, In l0 (l :: ls) /\ exec flag_i re_from_header l0 = Some m /\
            validateAndCleanFromLine e (or_str (capture 1 m) []) = Some line) as Hrec.
  { intros H. apply IH in H as (l' & m & Hin & H). exists l', m. split; [now right | exact H]. }
  destruct (isForwardBoundary l); [|exact Hrec].
  destruct (searchFromHeader e true (firstn 20 (l :: ls))) as [res|] eqn:Hs;
    [|exact Hrec].
  intros ->. apply searchFromHeader_source in Hs as (l' & m & Hin & H).
  exists l', m. split; [|exact H]. eapply firstn_In, Hin.
Qed.

(** A line without its quote marks is the end of the line. *)
Lemma leading_quotes_suffix (piece : jsstring) :
  exists q, piece = q ++ replace no_flags re_leading_quotes [] piece.
Proof.
  unfold replace.
  destruct (exec no_flags re_leading_quotes piece) as [m|] eqn:Hm; [|now exists []].
  unfold re_leading_quotes in Hm.
  pose proof (exec_anchored no_flags _ piece m eq_refl Hm) as Hb.
  apply exec_sound in Hm as [Hs _]. rewrite Hb in *. cbn [app] in *.
  now exists (matched m).
Qed.

Lemma includes_char (c : ascii) (s : jsstring) : includes s [c] = true -> In c s.
Proof.
  induction s as [|x s IH]; rewrite includes_eq.
  - discriminate.
  - intros H. apply orb_true_iff in H as [H | H]; [|right; now apply IH].
    left. cbn [startsWith] in H.
    destruct (Ascii.eqb x c) eqn:E; [now apply Ascii.eqb_eq in E | discriminate].
Qed.

Lemma white_space_class (x : ascii) :
  class_has flag_i [CSpace] x = true -> isWhiteSpace x = true.
Proof.
  intros H.
  assert (forallb (fun x => implb (class_has flag_i [CSpace] x) (isWhiteSpace x))
                  all_ascii = true) as Hall by (vm_compute; reflexivity).
  apply by_cases with (x := x) in Hall. now rewrite H in Hall.
Qed.

(** The value of a [From:] header line, as [re_from_header] captures it. *)
Lemma from_header_capture (l : jsstring) (m : match_result) :
  exec flag_i re_from_header l = Some m ->
  exists hdr gap value,
    l = hdr ++ gap ++ value /\ capture 1 m = Some value /\
    startsWithCI hdr (js "From:") = true /\ length hdr = 5 /\
    forallb isWhiteSpace gap = true /\
    forallb (fun x => negb (isLineTerminator x)) value = true.
Proof.
  intros Hm. unfold re_from_header in Hm.
  pose proof (exec_anchored flag_i _ l m eq_refl Hm) as Hb.
  change (cat [Bol; lit "From:"; Plus ws; Grp 1 (Plus Any); Eol])
    with (cat ([Bol; lit "From:"; Plus ws] ++ Grp 1 (Plus Any) :: [Eol])) in Hm.
  apply exec_cat_group in Hm
    as (w0 & w & w1 & s2 & st & Hs & Hw0 & Hw & _ & Hcap & Hk & Hr); [|reflexivity].
  apply mt_eol in Hk; [|reflexivity]. rewrite Hk in Hr. symmetry in Hr.
  apply app_eq_nil in Hr as [-> Ha]. rewrite Hb, Ha in Hs.
  cbn [app] in Hs. rewrite app_nil_r in Hs.
  apply lang_bol_cons, lang_cat_cons in Hw0 as (h & v & -> & Hh & Hv).
  apply lang_cat_cons in Hv as (sp & v' & -> & Hsp & Hnil).
  apply lang_cat_nil in Hnil as ->. rewrite app_nil_r in Hs.
  apply lang_lit in Hh as [Hh Hlen]; [|reflexivity].
  apply lang_class_rep in Hsp as [Hsp _].
  apply (lang_rep_of_chars flag_i Any (fun x => negb (isLineTerminator x))
           (lang_any_inv flag_i) _ w) with (lo := 1) (hi := None) in Hw as [Hw _];
    [|reflexivity | exact I].
  exists h, sp, w. repeat split; auto.
  - now rewrite Hs, <- app_assoc.
  - revert Hsp. apply forallb_impl, white_space_class.
Qed.


(** X11.  An address returned by [parseEmailAddress] is never made up:
    it is a contiguous part of the input, and it has the form
    local@domain.tld with a non-empty local part and domain made of the
    allowed characters and a last label of two letters or more. *)
Theorem parseEmailAddress_part_of_the_input (input : option jsstring) (a : jsstring) :
  parseEmailAddress input = Some a ->
  exists s, input = Some s /\ partOf a s /\ wellFormedAddress a.
Proof.
  unfold parseEmailAddress. destruct input as [[|c s]|]; try discriminate.
  cbn [truthy_opt truthy negb or_str].
  destruct (exec no_flags re_bare_address (c :: s)) as [m|] eqn:Hm; [|discriminate].
  intros Hc. apply exec_group in Hm as (w & Hw & Hl & Hs).
  assert (w = a) as -> by congruence.
  exists (c :: s). repeat split.
  - rewrite Hs. apply partOf_middle.
  - apply (address_words no_flags); [now left | exact Hl].
Qed.

(** X11, witness: a display name followed by the address between angle
    brackets. *)
Lemma parseEmailAddress_part_of_the_input_witness :
  exists s, Some (js "Jane Doe <jane@example.org>") = Some s /\
            partOf (js "jane@example.org") s /\
            wellFormedAddress (js "jane@example.org").
Proof.
  apply (parseEmailAddress_part_of_the_input
           (Some (js "Jane Doe <jane@example.org>")) (js "jane@example.org")).
  vm_compute. reflexivity.
Defined.

(** X12.  The sender that [extractOriginalSender] finds is a well-formed
    address, and it is read from the text: it stands in one of the first
    fifty lines, and that line begins with From: in any character case. *)
Theorem extractOriginalSender_from_a_From_line (text a : jsstring) :
  extractOriginalSender text = Some a ->
  wellFormedAddress a /\ partOf a text /\
  exists line,
    In line (firstn 50 (split_char LF text)) /\
    startsWithCI line (js "From:") = true /\ partOf a line.
Proof.
  intros H. apply extractOriginalSender_sound in H as (Hwf & line & Hin & Hl & Hp).
  repeat split; [exact Hwf | | exists line; auto].
  apply (partOf_trans _ _ _ Hp). eapply split_char_parts, firstn_In, Hin.
Qed.

(** X12, witness: a forward whose From line gives the address between
    angle brackets. *)
Lemma extractOriginalSender_from_a_From_line_witness :
  wellFormedAddress (js "jane@example.org") /\
  partOf (js "jane@example.org") Cases.bracket_forward_text /\
  exists line,
    In line (firstn 50 (split_char LF Cases.bracket_forward_text)) /\
    startsWithCI line (js "From:") = true /\ partOf (js "jane@example.org") line.
Proof.
  apply (extractOriginalSender_from_a_From_line
           Cases.bracket_forward_text (js "jane@example.org")).
  vm_compute. reflexivity.
Defined.

(** A display name that is not between double quotes is not provided
    for by the expression of [extractOriginalSender]: the address of such
    a line is left to [parseEmailAddress]. *)
Example extractOriginalSender_unquoted_name :
  extractOriginalSender (js "From: Jane Doe <jane@example.org>") = None /\
  parseEmailAddress (Some (js "Jane Doe <jane@example.org>"))
  = Some (js "jane@example.org").
Proof. vm_compute. split; reflexivity. Qed.

(** X13.  The From line that [extractOriginalFromLine] recovers is read
    from the text, where it follows a From: header and white space; it
    has no white space at its ends, is longer than five characters,
    contains an at sign and no line terminator. *)
Theorem extractOriginalFromLine_read_from_the_text (e : Env) (text line : jsstring) :
  extractOriginalFromLine e text = Some line ->
  followsHeader (js "From:") line text /\ trimmed line /\
  5 < length line /\ In "@"%char line /\
  forallb (fun x => negb (isLineTerminator x)) line = true.
Proof.
  unfold extractOriginalFromLine. intros H.
  apply scanForFrom_source in H as (l & m & Hin & Hm & Hv).
  apply in_map_iff in Hin as (piece & <- & Hpiece).
  apply split_parts in Hpiece as (a & b & ->).
  destruct (leading_quotes_suffix piece) as (q & Hq).
  apply from_header_capture in Hm as (hdr & gap & value & Hl & Hcap & Hh & Hlen & Hgap & Hval).
  rewrite Hcap in Hv.
  assert (or_str (Some value) [] = value) as Hor by (now destruct value).
  rewrite Hor in Hv.
  pose proof Hv as Hshape. unfold validateAndCleanFromLine in Hshape.
  destruct (negb (includes (trim value) (js "@")) || (length (trim value) <=? 5))%bool
    eqn:Hs; [discriminate|].
  apply orb_false_iff in Hs as [Hat Hlen5].
  apply negb_false_iff, includes_char in Hat. apply Nat.leb_gt in Hlen5.
  destruct (existsb _ _); [discriminate|]. injection Hshape as <-.
  destruct (trim_split value) as (pre & post & Hvalue & Hpre & Hpost).
  repeat split; auto.
  - exists (a ++ q), hdr, (gap ++ pre), (post ++ b). repeat split; auto.
    + rewrite Hq, Hl. rewrite Hvalue at 1. now rewrite <- !app_assoc.
    + rewrite forallb_app, Hgap, Hpre. reflexivity.
  - apply trim_trimmed.
  - apply trim_trimmed.
  - rewrite Hvalue in Hval. now apply forallb_parts in Hval.
Qed.

(** X13, witness: the text of the Apple Mail forward. *)
Lemma extractOriginalFromLine_read_from_the_text_witness :
  followsHeader (js "From:") (js "Jane Doe <jane@example.org>")
                Examples.apple_forward_text /\
  trimmed (js "Jane Doe <jane@example.org>") /\
  5 < length (js "Jane Doe <jane@example.org>") /\
  In "@"%char (js "Jane Doe <jane@example.org>") /\
  forallb (fun x => negb (isLineTerminator x)) (js "Jane Doe <jane@example.org>") = true.
Proof.
  apply (extractOriginalFromLine_read_from_the_text
           Examples.honeytraps Examples.apple_forward_text
           (js "Jane Doe <jane@example.org>")).
  vm_compute. reflexivity.
Defined.

(** X14.  The sender id handed to the ingestion is a well-formed address
    (parsed from the From line, found in the text, or parsed from the
    envelope sender), or else the envelope sender as it came. *)
Theorem senderId_address_or_envelope (w : World) (d : Decoded) (a : jsstring) :
  senderId (ingestArgs w d) = Some a ->
  wellFormedAddress a \/ a = sender d.
Proof.
  cbn [ingestArgs senderId]. unfold nonempty, detectedSender.
  destruct (parseEmailAddress (originalFromLine (env w) d)) as [[|c1 s1]|] eqn:H1;
    destruct (extractOriginalSender (redactedRawText (env w) d)) as [[|c2 s2]|] eqn:H2;
    destruct (parseEmailAddress (Some (sender d))) as [[|c3 s3]|] eqn:H3;
    cbn [or_else truthy_opt truthy or_str];
    try (destruct (truthy (sender d)); [intros [= <-]; now right | discriminate]);
    intros [= <-]; left;
    first [ now apply parseEmailAddress_sound in H1 as (? & _ & _ & ?)
          | now apply extractOriginalSender_sound in H2 as [? _]
          | now apply parseEmailAddress_sound in H3 as (? & _ & _ & ?) ].
Qed.

(** X14, witness: the Gmail forward; the sender id is the address of the
    From line. *)
Lemma senderId_address_or_envelope_witness :
  wellFormedAddress (js "jane@example.org") \/
  js "jane@example.org" = sender (Examples.decoded Examples.gmail_forward).
Proof.
  apply (senderId_address_or_envelope
           (Examples.world Examples.not_fundraising)
           (Examples.decoded Examples.gmail_forward) (js "jane@example.org")).
  vm_compute. reflexivity.
Defined.

(** X15.  A forwarder is recorded only for a message taken for a forward,
    and never a honeytrap: the recorded forwarder is not empty, contains
    no configured honeytrap address in any character case, and is the
    address parsed from the envelope sender or, when none can be parsed,
    the envelope sender as it came. *)
Theorem forwarderEmail_never_a_honeytrap (w : World) (d : Decoded) (a : jsstring) :
  forwarderEmail (ingestArgs w d) = Some a ->
  isForwarded d = true /\ a <> [] /\
  (forall email, In email (config_list (HONEYTRAP_EMAILS (env w))) ->
                 occursCI a email = false) /\
  ((wellFormedAddress a /\ partOf a (sender d)) \/
   (parseEmailAddress (Some (sender d)) = None /\ a = sender d)).
Proof.
  cbn [ingestArgs forwarderEmail]. unfold forwarderEmailOf.
  destruct (isForwarded d); [|discriminate].
  destruct (or_else (parseEmailAddress (Some (sender d))) (nonempty (sender d)))
    as [parsed|] eqn:Hp; [|discriminate].
  destruct (truthy parsed) eqn:Ht; [|discriminate].
  destruct (existsb _ _) eqn:Hex; [discriminate|]. cbn [negb].
  intros [= <-]. split; [reflexivity|]. split; [now destruct parsed|]. split.
  - intros email Hin. unfold occursCI.
    destruct (includes (toLowerCase parsed) (toLowerCase email)) eqn:Hi; [|reflexivity].
    assert (existsb (fun email => includes (toLowerCase parsed) (toLowerCase email))
              (config_list (HONEYTRAP_EMAILS (env w))) = true) as Hex'
      by (apply existsb_exists; eauto).
    congruence.
  - unfold or_else, nonempty in Hp.
    destruct (parseEmailAddress (Some (sender d))) as [[|c s]|] eqn:Hparse;
      cbn [truthy_opt truthy] in Hp.
    + apply parseEmailAddress_sound in Hparse as (_ & _ & _ & Hwf).
      destruct Hwf as (l & dm & tld & Habs & _). now destruct l.
    + injection Hp as <-. left.
      apply parseEmailAddress_sound in Hparse as (s' & [= <-] & Hpart & Hwf). auto.
    + right. split; [reflexivity|].
      destruct (truthy (sender d)); now inversion Hp.
Qed.

(** X15, witness: the Gmail forward sent on by bob. *)
Lemma forwarderEmail_never_a_honeytrap_witness :
  isForwarded (Examples.decoded Examples.gmail_forward) = true /\
  js "bob@example.com" <> [] /\
  (forall email,
      In email (config_list
                  (HONEYTRAP_EMAILS (env (Examples.world Examples.not_fundraising)))) ->
      occursCI (js "bob@example.com") email = false) /\
  ((wellFormedAddress (js "bob@example.com") /\
    partOf (js "bob@example.com") (sender (Examples.decoded Examples.gmail_forward))) \/
   (parseEmailAddress (Some (sender (Examples.decoded Examples.gmail_forward))) = None /\
    js "bob@example.com" = sender (Examples.decoded Examples.gmail_forward))).
Proof.
  apply (forwarderEmail_never_a_honeytrap
           (Examples.world Examples.not_fundraising)
           (Examples.decoded Examples.gmail_forward) (js "bob@example.com")).
  vm_compute. reflexivity.
Defined.

(* ------------------------------------------------------------------ *)
(** ** The configured identifiers *)

Lemma split_char_no_sep (sep : ascii) :
  forall s piece, In piece (split_char sep s) -> ~ In sep piece.
Proof.
  induction s as [|c s IH]; intros piece Hin.
  - destruct Hin as [<- | []]. intros [].
  - cbn [split_char] in Hin. destruct (Ascii.eqb c sep) eqn:Hc.
    + destruct Hin as [<- | Hin]; [intros [] | now apply IH].
    + destruct (split_char sep s) as [|first more].
      * destruct Hin as [<- | []]. intros [-> | []].
        now rewrite ascii_eqb_refl in Hc.
      * destruct Hin as [<- | Hin].
        -- intros [-> | H]; [now rewrite ascii_eqb_refl in Hc|].
           apply (IH first); [now left | exact H].
        -- apply IH. now right.
Qed.

(** X16.  The identifiers read from the configuration are the entries of
    the comma-separated value, trimmed, the empty ones left out: each is a
    part of the configured value, is not empty, has no white space at its
    ends and contains no comma.  So the redaction never runs with an empty
    pattern. *)
Theorem config_list_entries (v : option jsstring) (entry : jsstring) :
  In entry (config_list v) ->
  entry <> [] /\ trimmed entry /\ ~ In ","%char entry /\
  exists value, v = Some value /\ partOf entry value.
Proof.
  intros Hin. split; [now apply (config_list_nonempty v)|].
  unfold config_list in Hin. destruct v as [[|c value]|]; try contradiction.
  cbn [truthy_opt truthy or_str] in Hin.
  apply filter_In in Hin as [Hin _].
  apply in_map_iff in Hin as (piece & <- & Hpiece).
  destruct (trim_split piece) as (pre & post & Hp & _).
  split; [apply trim_trimmed|]. split.
  - intros Hc. apply (split_char_no_sep _ _ _ Hpiece).
    rewrite Hp. apply in_or_app. right. apply in_or_app. now left.
  - exists (c :: value). split; [reflexivity|].
    apply (partOf_trans _ piece).
    + rewrite Hp at 2. apply partOf_middle.
    + now apply split_char_parts in Hpiece.
Qed.

(** X16, witness: the second address of the honeytrap configuration,
    which follows a comma and a space. *)
Lemma config_list_entries_witness :
  js "mary@decoy.org" <> [] /\ trimmed (js "mary@decoy.org") /\
  ~ In ","%char (js "mary@decoy.org") /\
  exists value, HONEYTRAP_EMAILS Examples.honeytraps = Some value /\
                partOf (js "mary@decoy.org") value.
Proof.
  apply (config_list_entries (HONEYTRAP_EMAILS Examples.honeytraps)
                             (js "mary@decoy.org")).
  vm_compute. right; left; reflexivity.
Defined.

(* ------------------------------------------------------------------ *)
(** ** A JSON body that cannot be read *)

Lemma occursCI_nil (q : jsstring) : q <> [] -> occursCI [] q = false.
Proof. intros Hq. now destruct q. Qed.

Lemma redactHoneytrap_nil (e : Env) :
  redactHoneytrap (config_list (HONEYTRAP_EMAILS e)) (config_list (HONEYTRAP_IDS e)) []
  = [].
Proof.
  apply redactHoneytrap_nothing_to_do; auto using config_list_nonempty.
  intros q Hq. apply occursCI_nil. apply in_app_or in Hq as [Hq | Hq];
    now apply config_list_nonempty in Hq.
Qed.

Lemma empty_payload_args (w : World) :
  let args := ingestArgs w Examples.no_fields in
  rawText args = [] /\ text args = cleanTextForAI w [] /\
  senderId args = None /\ emailSubject args = None /\ emailBody args = None /\
  emailBodyOriginal args = None /\ emailFrom args = None /\
  forwarderEmail args = None /\ emailSentAt args = None.
Proof.
  assert (redactedRawText (env w) Examples.no_fields = []) as Hraw.
  { unfold redactedRawText.
    change (strippedRawText Examples.no_fields) with (@nil ascii).
    apply redactHoneytrap_nil. }
  assert (redactedSubject (env w) Examples.no_fields = []) as Hsubj
    by apply redactHoneytrap_nil.
  cbn zeta. cbn [ingestArgs rawText text senderId emailSubject emailBody
                 emailBodyOriginal emailFrom forwarderEmail emailSentAt].
  rewrite Hsubj. unfold detectedSender. rewrite Hraw.
  repeat split.
Qed.

(** X17.  A request that announces JSON and whose body cannot be read as
    JSON is not refused: the payload is taken to be empty and, with the
    service-role key present, an empty submission is handed to the
    ingestion (no text, no sender, no subject, no HTML, no From line, no
    forwarder, no date). *)
Theorem unreadable_json_is_stored_empty (w : World) (req : Request) :
  includes (or_str (content_type req) []) (js "application/x-www-form-urlencoded") = false ->
  includes (or_str (content_type req) []) (js "multipart/form-data") = false ->
  includes (or_str (content_type req) []) (js "application/json") = true ->
  body_json req = None ->
  truthy_opt (SUPABASE_SERVICE_ROLE_KEY w) = true ->
  exists args rest,
    snd (POST w req) = Ingest args :: rest /\
    rawText args = [] /\ text args = cleanTextForAI w [] /\
    senderId args = None /\ emailSubject args = None /\ emailBody args = None /\
    emailBodyOriginal args = None /\ emailFrom args = None /\
    forwarderEmail args = None /\ emailSentAt args = None.
Proof.
  intros H1 H2 H3 Hj Hk.
  assert (decode req = Some Examples.no_fields) as Hd
    by (unfold decode; now rewrite H1, H2, H3, Hj).
  exists (ingestArgs w Examples.no_fields).
  destruct (POST_cases w req)
    as [[Hn _] | (d & Hd' & [[Hk' _] | [_ [[_ ->] | (result & _ &
         [(_ & _ & ->) | [[_ ->] | (_ & _ & ->)]])]]])];
    try congruence;
    replace d with Examples.no_fields by congruence;
    eexists; (split; [reflexivity | apply empty_payload_args]).
Qed.

(** X17, witness: a body that is not JSON, announced as JSON. *)
Lemma unreadable_json_is_stored_empty_witness :
  exists args rest,
    snd (POST (Examples.world Examples.not_fundraising) Cases.broken_json)
    = Ingest args :: rest /\
    rawText args = [] /\
    text args = cleanTextForAI (Examples.world Examples.not_fundraising) [] /\
    senderId args = None /\ emailSubject args = None /\ emailBody args = None /\
    emailBodyOriginal args = None /\ emailFrom args = None /\
    forwarderEmail args = None /\ emailSentAt args = None.
Proof.
  apply (unreadable_json_is_stored_empty
           (Examples.world Examples.not_fundraising) Cases.broken_json);
    vm_compute; reflexivity.
Defined.

(* ------------------------------------------------------------------ *)
(** ** Where a recovered date is read from *)

Lemma startsWithCI_snoc (c x : ascii) :
  forall q h,
    startsWithCI h q = true -> length h = length q ->
    chr_match flag_i c x = true ->
    startsWithCI (h ++ [x]) (q ++ [c]) = true.
Proof.
  induction q as [|y q IH]; intros h Hh Hlen Hc.
  - destruct h; [|discriminate]. simpl. now rewrite Hc.
  - destruct h as [|z h]; [discriminate|].
    simpl in *. apply andb_true_iff in Hh as [-> Hh]. simpl.
    apply IH; auto.
Qed.

(** The value of a [Date:] or [Sent:] header line, as [dateStrOfLine]
    reads it. *)
Lemma dateStrOfLine_source (line dateStr : jsstring) :
  dateStrOfLine line = Some dateStr ->
  trimmed dateStr /\
  forallb (fun x => negb (isLineTerminator x)) dateStr = true /\
  (headerLine (js "Date:") dateStr line \/ headerLine (js "Sent:") dateStr line).
Proof.
  unfold dateStrOfLine.
  destruct (exec flag_i re_date_header line) as [m|] eqn:Hm; [|discriminate].
  destruct (truthy_opt (capture 1 m)) eqn:Ht; [|discriminate].
  intros [= <-]. unfold re_date_header in Hm.
  pose proof (exec_anchored flag_i _ line m eq_refl Hm) as Hb.
  change (cat [Bol; Alt (lit "Date") (lit "Sent"); Chr ":"%char; Star ws;
               Grp 1 (Plus Any); Eol])
    with (cat ([Bol; Alt (lit "Date") (lit "Sent"); Chr ":"%char; Star ws]
               ++ Grp 1 (Plus Any) :: [Eol])) in Hm.
  apply exec_cat_group in Hm
    as (w0 & w & w1 & s2 & st & Hs & Hw0 & Hw & _ & Hcap & Hk & Hr); [|reflexivity].
  apply mt_eol in Hk; [|reflexivity]. rewrite Hk in Hr. symmetry in Hr.
  apply app_eq_nil in Hr as [-> Ha]. rewrite Hb, Ha in Hs.
  cbn [app] in Hs. rewrite app_nil_r in Hs.
  apply lang_bol_cons, lang_cat_cons in Hw0 as (h & v & -> & Hh & Hv).
  apply lang_cat_cons in Hv as (colon & v1 & -> & Hcolon & Hv).
  apply lang_cat_cons in Hv as (sp & v2 & -> & Hsp & Hnil).
  apply lang_cat_nil in Hnil as ->. rewrite app_nil_r in Hs.
  apply lang_chr_inv in Hcolon as (x & -> & Hx).
  apply lang_class_rep in Hsp as [Hsp _].
  apply (lang_rep_of_chars flag_i Any (fun x => negb (isLineTerminator x))
           (lang_any_inv flag_i) _ w) with (lo := 1) (hi := None) in Hw as [Hw _];
    [|reflexivity | exact I].
  rewrite Hcap. assert (or_str (Some w) [] = w) as -> by (now destruct w).
  destruct (trim_split w) as (pre & post & Hvalue & Hpre & Hpost).
  split; [apply trim_trimmed|]. split.
  { rewrite Hvalue in Hw. now apply forallb_parts in Hw. }
  assert (forall q, lang flag_i (lit_chars q) h ->
            headerLine (q ++ [":"%char]) (trim w) line) as Hfollows.
  { intros q Hq. apply lang_lit in Hq as [Hq Hlen]; [|reflexivity].
    exists (h ++ [x]), (sp ++ pre), post.
    split; [|split; [|split; [|split]]].
    - rewrite Hs. rewrite Hvalue at 1. now rewrite <- !app_assoc.
    - now apply startsWithCI_snoc.
    - rewrite !length_app. simpl. now rewrite Hlen.
    - rewrite forallb_app, Hpre, andb_true_r.
      revert Hsp. apply forallb_impl, white_space_class.
    - exact Hpost. }
  inversion Hh as [ | | | | | | | | r1 r2 w' H | r1 r2 w' H | | | ]; subst.
  - left. apply (Hfollows (js "Date")), H.
  - right. apply (Hfollows (js "Sent")), H.
Qed.

Lemma parseEmailDateString_parsed (parse : jsstring -> option Z) (dateStr : jsstring) (t : Z) :
  parseEmailDateString parse dateStr = Some t ->
  dateStr <> [] /\ exists s, parse s = Some t.
Proof.
  unfold parseEmailDateString. destruct dateStr as [|c dateStr]; [discriminate|].
  cbn [truthy negb]. split; [discriminate|].
  destruct (parse (c :: dateStr)) eqn:H1; [injection H as <-; eauto|].
  destruct (parse (replace flag_i re_at (js " ") (c :: dateStr))) eqn:H2;
    [injection H as <-; eauto|].
  destruct (reassembled (c :: dateStr)); [eauto | discriminate].
Qed.

(** The first parameter of [extractOriginalEmailDate] is not used. *)
Lemma extractOriginalEmailDate_headers
    (now : Z) (parse : jsstring -> option Z) (headers headers' bodyText bodyHtml : jsstring) :
  extractOriginalEmailDate now parse headers bodyText bodyHtml
  = extractOriginalEmailDate now parse headers' bodyText bodyHtml.
Proof. unfold extractOriginalEmailDate. reflexivity. Qed.

(** X18.  A date handed to the ingestion is never made up: it is what the
    date parser of the runtime answers for some string, and it was found
    on a line of the normalised text or HTML that begins with Date: or
    Sent: in any character case and has, after white space, nothing but
    a value, trimmed and not empty, that the strategies of
    [parseEmailDateString] turn into that date.  The message headers play
    no part: with any other headers the same date is recovered. *)
Theorem recovered_date_read_from_a_header
    (now : Z) (parse : jsstring -> option Z)
    (headers bodyText bodyHtml : jsstring) (t : Z) :
  extractOriginalEmailDate now parse headers bodyText bodyHtml = Some t ->
  (forall headers',
     extractOriginalEmailDate now parse headers' bodyText bodyHtml = Some t) /\
  (exists s, parse s = Some t) /\
  exists source line dateStr,
    (source = bodyText \/ source = bodyHtml) /\
    In line (dateLines source) /\
    (headerLine (js "Date:") dateStr line \/
     headerLine (js "Sent:") dateStr line) /\
    dateStr <> [] /\ trimmed dateStr /\
    parseEmailDateString parse dateStr = Some t.
Proof.
  unfold extractOriginalEmailDate. intros H. split; [intros _; exact H|].
  assert (exists source, (source = bodyText \/ source = bodyHtml) /\
            extractOriginalDateFromBody now parse source = Some t) as (source & Hsrc & Hd).
  { destruct (extractOriginalDateFromBody now parse bodyText) eqn:Ht.
    - injection H as ->. eauto.
    - destruct (truthy bodyHtml); [eauto | discriminate]. }
  apply extractOriginalDateFromBody_Some in Hd as (line & dateStr & Hin & Hl & Hp & _).
  pose proof (parseEmailDateString_parsed parse dateStr t Hp) as [Hne Hs].
  apply dateStrOfLine_source in Hl as (Htr & _ & Hf).
  split; [exact Hs|]. exists source, line, dateStr. auto 10.
Qed.

(** X18, witness: the Apple Mail forward of 5 January 2026. *)
Lemma recovered_date_read_from_a_header_witness :
  (forall headers',
     extractOriginalEmailDate Examples.jan_5_2026 Examples.two_dates headers'
       Examples.apple_forward_text [] = Some 1767625200000%Z) /\
  (exists s, Examples.two_dates s = Some 1767625200000%Z) /\
  exists source line dateStr,
    (source = Examples.apple_forward_text \/ source = []) /\
    In line (dateLines source) /\
    (headerLine (js "Date:") dateStr line \/
     headerLine (js "Sent:") dateStr line) /\
    dateStr <> [] /\ trimmed dateStr /\
    parseEmailDateString Examples.two_dates dateStr = Some 1767625200000%Z.
Proof.
  apply (recovered_date_read_from_a_header
           Examples.jan_5_2026 Examples.two_dates [] Examples.apple_forward_text []).
  vm_compute. reflexivity.
Defined.

(** A line that has Date: inside is no date header. *)
Example date_inside_a_line :
  dateStrOfLine (js "Update: Date: Mon, 5 Jan 2026 10:00:00 -0500") = None /\
  dateStrOfLine (js "sent:   Mon, 5 Jan 2026 10:00:00 -0500  ")
  = Some (js "Mon, 5 Jan 2026 10:00:00 -0500").
Proof. vm_compute. split; reflexivity. Qed.

(* ------------------------------------------------------------------ *)
(** ** The reports table *)

Lemma lastIndexOf_Some (c : ascii) :
  forall s i, Reports.lastIndexOf c s = Some i ->
              exists tail, s = firstn i s ++ c :: tail /\ ~ In c tail.
Proof.
  induction s as [|x s IH]; intros i; [discriminate|].
  cbn [Reports.lastIndexOf].
  destruct (Reports.lastIndexOf c s) as [j|] eqn:Hj.
  - intros [= <-]. destruct (IH j eq_refl) as (tail & Hs & Hno).
    exists tail. cbn [firstn app]. split; [now f_equal | exact Hno].
  - destruct (Ascii.eqb x c) eqn:Hx; [|discriminate].
    intros [= <-]. apply Ascii.eqb_eq in Hx as ->.
    exists s. split; [reflexivity|].
    clear IH. induction s as [|y s IHs]; [intros []|].
    cbn [Reports.lastIndexOf] in Hj.
    destruct (Reports.lastIndexOf c s); [discriminate|].
    destruct (Ascii.eqb y c) eqn:Hy; [discriminate|].
    intros [-> | H]; [now rewrite ascii_eqb_refl in Hy | now apply IHs].
Qed.

Lemma lastIndexOf_None (c : ascii) (s : jsstring) :
  ~ In c s -> Reports.lastIndexOf c s = None.
Proof.
  induction s as [|x s IH]; [reflexivity|]. intros Hno.
  cbn [Reports.lastIndexOf]. rewrite IH by (intros H; apply Hno; now right).
  destruct (Ascii.eqb x c) eqn:Hx; [|reflexivity].
  apply Ascii.eqb_eq in Hx. exfalso. apply Hno. now left.
Qed.

Lemma lastIndexOf_last (c : ascii) (tail : jsstring) :
  ~ In c tail ->
  forall pre, Reports.lastIndexOf c (pre ++ c :: tail) = Some (length pre).
Proof.
  intros Hno. induction pre as [|x pre IH].
  - cbn [app Reports.lastIndexOf length].
    now rewrite (lastIndexOf_None c tail Hno), ascii_eqb_refl.
  - cbn [app Reports.lastIndexOf length]. now rewrite IH.
Qed.

Lemma truncateAtWordBoundary_cases (text : jsstring) (maxLength : nat) :
  (length text <= maxLength /\ Reports.truncateAtWordBoundary text maxLength = text) \/
  (maxLength < length text /\
   (Reports.truncateAtWordBoundary text maxLength = firstn maxLength text \/
    exists tail,
      firstn maxLength text
      = Reports.truncateAtWordBoundary text maxLength ++ " "%char :: tail /\
      ~ In " "%char tail /\
      Reports.beyond_70_percent
        (length (Reports.truncateAtWordBoundary text maxLength)) maxLength = true)).
Proof.
  unfold Reports.truncateAtWordBoundary.
  destruct (length text <=? maxLength) eqn:Hlen.
  { left. apply Nat.leb_le in Hlen. now split. }
  right. apply Nat.leb_gt in Hlen. split; [exact Hlen|].
  destruct (Reports.lastIndexOf " " (firstn maxLength text)) as [i|] eqn:Hi;
    [|now left].
  destruct (Reports.beyond_70_percent i maxLength) eqn:Hb; [|now left].
  right. apply lastIndexOf_Some in Hi as (tail & Hs & Hno). exists tail.
  repeat split; auto.
  assert (length (firstn i (firstn maxLength text)) = i) as ->; [|exact Hb].
  apply (f_equal (@length ascii)) in Hs. rewrite length_app in Hs.
  cbn [length] in Hs. rewrite !length_firstn in Hs. rewrite !length_firstn. lia.
Qed.

(** The comparison [lastSpace > maxLength * 0.7] is made on binary64
    numbers; for a [maxLength] below 90 it is the comparison of
    [10 * lastSpace] with [7 * maxLength]. *)
Lemma beyond_70_percent_below_90 :
  forallb (fun maxLength =>
             forallb (fun lastSpace =>
                        Bool.eqb (Reports.beyond_70_percent lastSpace maxLength)
                                 (7 * maxLength <? 10 * lastSpace))
                     (seq 0 (S maxLength)))
          (seq 0 90) = true.
Proof. vm_compute. reflexivity. Qed.

(** X19.  [truncateAtWordBoundary] returns the text itself when it has
    [maxLength] characters at most.  Else it looks at the first
    [maxLength] characters: when there is no space among them it returns
    them all; when [word] is what stands before the last space among
    them, it returns [word] if the index of that space lies beyond 70 per
    cent of [maxLength], and all the [maxLength] characters if not.  The
    comparison is that of the binary64 numbers of JavaScript, which below
    90 is that of [10 * lastSpace] with [7 * maxLength].  The result is a
    beginning of the text, not longer than [maxLength], and truncating a
    second time changes nothing. *)
Theorem truncateAtWordBoundary_cuts_at_a_space (text : jsstring) (maxLength : nat) :
  (length text <= maxLength -> Reports.truncateAtWordBoundary text maxLength = text) /\
  (maxLength < length text ->
   (~ In " "%char (firstn maxLength text) ->
    Reports.truncateAtWordBoundary text maxLength = firstn maxLength text) /\
   (forall word tail,
      firstn maxLength text = word ++ " "%char :: tail -> ~ In " "%char tail ->
      Reports.truncateAtWordBoundary text maxLength
      = if Reports.beyond_70_percent (length word) maxLength
        then word else firstn maxLength text)) /\
  (forall lastSpace, maxLength < 90 -> lastSpace <= maxLength ->
     Reports.beyond_70_percent lastSpace maxLength
     = (7 * maxLength <? 10 * lastSpace)) /\
  (exists rest, text = Reports.truncateAtWordBoundary text maxLength ++ rest) /\
  length (Reports.truncateAtWordBoundary text maxLength) <= Nat.min maxLength (length text) /\
  Reports.truncateAtWordBoundary (Reports.truncateAtWordBoundary text maxLength) maxLength
  = Reports.truncateAtWordBoundary text maxLength.
Proof.
  assert (forall r, length r <= maxLength ->
                    Reports.truncateAtWordBoundary r maxLength = r) as Hfit.
  { intros r Hr. unfold Reports.truncateAtWordBoundary.
    apply Nat.leb_le in Hr. now rewrite Hr. }
  split; [exact (Hfit text)|]. split.
  { intros Hlen. unfold Reports.truncateAtWordBoundary.
    apply Nat.leb_gt in Hlen. rewrite Hlen. split.
    - intros Hno. now rewrite lastIndexOf_None.
    - intros word tail Hs Hno. rewrite Hs, lastIndexOf_last by exact Hno.
      destruct (Reports.beyond_70_percent (length word) maxLength); [|reflexivity].
      rewrite firstn_app, Nat.sub_diag, firstn_all. cbn [firstn]. apply app_nil_r. }
  split.
  { intros lastSpace Hn Hi.
    pose proof beyond_70_percent_below_90 as Hall.
    rewrite forallb_forall in Hall.
    specialize (Hall maxLength (proj2 (in_seq _ _ _) (conj (Nat.le_0_l _) Hn))).
    rewrite forallb_forall in Hall.
    apply Bool.eqb_prop, Hall, in_seq. lia. }
  destruct (truncateAtWordBoundary_cases text maxLength)
    as [[Hlen ->] | [Hlen [-> | (tail & Hs & Hno & Hb)]]].
  - split; [exists []; now rewrite app_nil_r|].
    split; [lia | now apply Hfit].
  - assert (length (firstn maxLength text) = maxLength) as Hfirst
      by (rewrite length_firstn; lia).
    split; [exists (skipn maxLength text); now rewrite firstn_skipn|].
    split; [lia | apply Hfit; lia].
  - assert (length (firstn maxLength text) = maxLength) as Hfirst
      by (rewrite length_firstn; lia).
    assert (text = Reports.truncateAtWordBoundary text maxLength
                   ++ " "%char :: tail ++ skipn maxLength text) as Htext.
    { rewrite <- (firstn_skipn maxLength text) at 1. rewrite Hs.
      now rewrite <- app_assoc. }
    assert (length (Reports.truncateAtWordBoundary text maxLength ++ " "%char :: tail)
            = maxLength) as Hl by (now rewrite <- Hs).
    pose proof Hl as Hl'. rewrite length_app in Hl'. cbn [length] in Hl'.
    split; [eexists; exact Htext|].
    split; [lia | apply Hfit; lia].
Qed.

(** The rule of 70 per cent at its limit: a space at index 7 of 10 is not
    beyond it and the word is cut; a space at index 8 is. *)
Example truncateAtWordBoundary_at_the_limit :
  Reports.truncateAtWordBoundary (js "chip in now or never") 10 = js "chip in no" /\
  Reports.truncateAtWordBoundary (js "chipping in or never") 10 = js "chipping" /\
  Reports.truncateAtWordBoundary (js "chip in") 10 = js "chip in".
Proof. vm_compute. repeat split. Qed.

(** In binary64, 90 * 0.7 is a little less than 63: a space at index 63
    of 90 counts as beyond 70 per cent, and one at index 7 of 10 does
    not. *)
Example beyond_70_percent_of_90 :
  Reports.beyond_70_percent 63 90 = true /\ Reports.beyond_70_percent 7 10 = false.
Proof. vm_compute. split; reflexivity. Qed.

(* ------------------------------------------------------------------ *)
(** ** Quantified characters *)

Lemma rep_loop_greedy body (ok : ascii -> bool) (k : mstate -> option mstate) :
  (forall k s, body k s = step_char s ok k) ->
  forall r fuel lo p cs,
    S (length r + lo) <= fuel ->
    rep_loop body [] k fuel lo None {| prev := p; rest := r; caps := cs |}
    = greedy ok k lo p cs r.
Proof.
  intros Hbody. induction r as [|x tl IH]; intros fuel lo p cs Hfuel;
    (destruct fuel as [|fuel]; [lia|]); cbn [rep_loop greedy prev rest caps];
    rewrite Hbody, clear_caps_nil; unfold step_char; cbn [rest caps prev].
  - destruct (lo =? 0); reflexivity.
  - destruct (ok x); [|destruct (lo =? 0); reflexivity].
    assert ((length tl =? length (x :: tl)) = false) as ->
      by (apply Nat.eqb_neq; simpl; lia).
    rewrite andb_false_r. rewrite IH by (simpl in Hfuel; lia).
    destruct (lo =? 0); [reflexivity|].
    now destruct (greedy ok k (pred lo) (Some x) cs tl).
Qed.

Lemma mt_one_greedy (f : flags) (one : re) (ok : ascii -> bool) :
  groups_of one = [] ->
  (forall k s, mt f one k s = step_char s ok k) ->
  forall lo k s,
    mt f (Rep lo None one) k s = greedy ok k lo (prev s) (caps s) (rest s).
Proof.
  intros Hg Hone lo k [p r cs]. cbn [mt prev rest caps]. rewrite Hg.
  apply rep_loop_greedy; [exact Hone | unfold rep_fuel; simpl; lia].
Qed.

Lemma mt_class_greedy (f : flags) (items : list class_item) lo k s :
  mt f (Rep lo None (OneOf items)) k s
  = greedy (class_has f items) k lo (prev s) (caps s) (rest s).
Proof. apply mt_one_greedy; reflexivity. Qed.

Lemma mt_nonclass_greedy (f : flags) (items : list class_item) lo k s :
  mt f (Rep lo None (NoneOf items)) k s
  = greedy (fun x => negb (class_has f items x)) k lo (prev s) (caps s) (rest s).
Proof. apply mt_one_greedy; reflexivity. Qed.

Lemma greedy_ext (ok ok' : ascii -> bool) k k' :
  (forall x, ok x = ok' x) -> (forall s, k s = k' s) ->
  forall r lo p cs, greedy ok k lo p cs r = greedy ok' k' lo p cs r.
Proof.
  intros Hok Hk. induction r as [|x tl IH]; intros lo p cs; cbn [greedy].
  - now rewrite Hk.
  - rewrite Hok, IH, Hk. reflexivity.
Qed.

(* ------------------------------------------------------------------ *)
(** ** [stripHtml] leaves no tag *)

Lemma tag_end_greedy (k : mstate -> option mstate) :
  (forall st, k st = match rest st with
                     | y :: r => if Ascii.eqb y ">"
                                 then Some {| prev := Some y; rest := r; caps := caps st |}
                                 else None
                     | [] => None
                     end) ->
  forall tl lo p cs,
    greedy (fun x => negb (Ascii.eqb x ">")) k lo p cs tl
    = option_map (fun r => {| prev := Some ">"%char; rest := r; caps := cs |})
                 (tag_end lo tl).
Proof.
  intros Hk. induction tl as [|x tl IH]; intros lo p cs; cbn [greedy tag_end].
  - rewrite Hk. cbn [rest]. now destruct (lo =? 0).
  - rewrite Hk. cbn [rest caps]. destruct (Ascii.eqb x ">") eqn:Hx; cbn [negb].
    + apply Ascii.eqb_eq in Hx as ->. now destruct (lo =? 0).
    + rewrite IH. destruct (tag_end (pred lo) tl); [reflexivity|].
      now destruct (lo =? 0).
Qed.

(** The tag expression at one position. *)
Lemma match_at_tag (p : option ascii) (s : jsstring) :
  match_at no_flags re_tag p s =
  match s with
  | x :: tl =>
      if Ascii.eqb x "<"
      then option_map (fun r => {| prev := Some ">"%char; rest := r; caps := [] |})
                      (tag_end 1 tl)
      else None
  | [] => None
  end.
Proof.
  unfold match_at, re_tag.
  change (mt no_flags (cat [Chr "<"; Plus (NoneOf [CChar ">"]); Chr ">"]%char) Some
             (start_state p s))
    with (step_char (start_state p s) (chr_match no_flags "<")
            (mt no_flags (Plus (NoneOf [CChar ">"%char]))
               (mt no_flags (Chr ">") (mt no_flags Empty Some)))).
  unfold step_char. cbn [start_state rest caps].
  destruct s as [|x tl]; [reflexivity|].
  change (chr_match no_flags "<" x) with (Ascii.eqb "<" x).
  rewrite Ascii.eqb_sym. destruct (Ascii.eqb x "<"); [|reflexivity].
  unfold Plus. rewrite mt_nonclass_greedy. cbn [prev rest caps].
  rewrite (greedy_ext _ (fun x => negb (Ascii.eqb x ">")) _
             (mt no_flags (Chr ">") (mt no_flags Empty Some))).
  - apply tag_end_greedy. intros st. cbn [mt]. unfold step_char.
    destruct (rest st) as [|y r]; [reflexivity|].
    change (chr_match no_flags ">" y) with (Ascii.eqb ">" y).
    now rewrite Ascii.eqb_sym.
  - intros y. unfold class_has. cbn [existsb item_has no_flags ignoreCase].
    now rewrite Ascii.eqb_sym, !orb_false_r.
  - reflexivity.
Qed.

Lemma tag_end_length (tl : jsstring) :
  forall lo r, tag_end lo tl = Some r -> length r < length tl.
Proof.
  induction tl as [|x tl IH]; intros lo r; cbn [tag_end]; [discriminate|].
  destruct (Ascii.eqb x ">").
  - destruct (lo =? 0); [|discriminate]. intros [= <-]. simpl. lia.
  - intros H. apply IH in H. simpl. lia.
Qed.

Lemma tag_end_without (tl : jsstring) :
  ~ In ">"%char tl -> forall lo, tag_end lo tl = None.
Proof.
  induction tl as [|x tl IH]; intros Hno lo; cbn [tag_end]; [reflexivity|].
  destruct (Ascii.eqb x ">") eqn:Hx.
  - apply Ascii.eqb_eq in Hx as ->. exfalso. apply Hno. now left.
  - apply IH. intros H. apply Hno. now right.
Qed.

Lemma tag_end_zero (tl : jsstring) : tag_end 0 tl = None -> ~ In ">"%char tl.
Proof.
  induction tl as [|x tl IH]; cbn [tag_end pred]; [intros _ []|].
  destruct (Ascii.eqb x ">") eqn:Hx; [discriminate|].
  intros H [-> | Hin]; [now rewrite ascii_eqb_refl in Hx | now apply IH].
Qed.

Lemma tag_end_None (tl : jsstring) :
  tag_end 1 tl = None -> (exists tl', tl = ">"%char :: tl') \/ ~ In ">"%char tl.
Proof.
  destruct tl as [|x tl]; [right; intros []|]. cbn [tag_end pred].
  destruct (Ascii.eqb x ">") eqn:Hx.
  - apply Ascii.eqb_eq in Hx as ->. left. eauto.
  - intros H. apply tag_end_zero in H. right.
    intros [-> | Hin]; [now rewrite ascii_eqb_refl in Hx | now apply H].
Qed.

Lemma tag_end_app (post : jsstring) :
  forall tl lo r, tag_end lo tl = Some r -> tag_end lo (tl ++ post) = Some (r ++ post).
Proof.
  induction tl as [|x tl IH]; intros lo r; cbn [tag_end app]; [discriminate|].
  destruct (Ascii.eqb x ">").
  - destruct (lo =? 0); [|discriminate]. now intros [= <-].
  - apply IH.
Qed.

Lemma tagFree_part (a t : jsstring) : partOf a t -> tagFree t -> tagFree a.
Proof.
  intros (pre & post & ->) Ht x b ->.
  specialize (Ht (pre ++ x) (b ++ post)). rewrite <- !app_assoc in Ht.
  specialize (Ht eq_refl). destruct b as [|c tl]; [reflexivity|].
  cbn [opensTag app] in *. destruct (Ascii.eqb c "<"); [|reflexivity].
  cbn [andb] in *. destruct (tag_end 1 tl) as [r|] eqn:Hr; [|reflexivity].
  now rewrite (tag_end_app post tl 1 r Hr) in Ht.
Qed.

Lemma replace_from_In (f : flags) (r : re) (repl : jsstring) (c : ascii) :
  forall s skip p, In c (replace_from f r repl skip p s) -> In c repl \/ In c s.
Proof.
  induction s as [|x s IH]; intros skip p; destruct skip as [|n];
    cbn [replace_from].
  - destruct (match_at f r p []); [now left | intros []].
  - intros [].
  - destruct (match_at f r p (x :: s)) as [st|].
    + destruct (length (x :: s) - length (rest st)) as [|n]; intros H;
        apply in_app_or in H as [H | H]; try (now left).
      * destruct H as [<- | H]; [right; now left|].
        apply IH in H as [H | H]; [now left | right; now right].
      * apply IH in H as [H | H]; [now left | right; now right].
    + intros [<- | H]; [right; now left|].
      apply IH in H as [H | H]; [now left | right; now right].
  - intros H. apply IH in H as [H | H]; [now left | right; now right].
Qed.

(** A global replacement by a space leaves no tag, when its expression
    matches no empty text and nothing that begins with [>], and a tag
    begins nowhere in the text where it does not match. *)
Lemma replace_from_tagFree (f : flags) (r : re) :
  (forall p tl, match_at f r p (">"%char :: tl) = None) ->
  (forall p s st, match_at f r p s = Some st -> length (rest st) < length s) ->
  forall s,
    (forall a b p, s = a ++ b -> match_at f r p b = None -> opensTag b = false) ->
    forall skip p, tagFree (replace_from f r (js " ") skip p s).
Proof.
  intros Hgt Hlen.
  assert (forall tl p, tag_end 1 tl = None ->
            tag_end 1 (replace_from f r (js " ") 0 p tl) = None) as Hkeep.
  { intros tl p H. apply tag_end_None in H as [(tl' & ->) | H].
    - cbn [replace_from]. now rewrite Hgt.
    - apply tag_end_without. intros Hin. apply replace_from_In in Hin as [Hin | Hin].
      + destruct Hin as [Hin | []]. discriminate.
      + now apply H. }
  induction s as [|x s IH]; intros Hs skip p a b Hab.
  - assert (replace_from f r (js " ") skip p [] = []) as Hnil.
    { destruct skip; cbn [replace_from]; [|reflexivity].
      destruct (match_at f r p []) as [st|] eqn:Hm; [|reflexivity].
      apply Hlen in Hm. simpl in Hm. lia. }
    rewrite Hnil in Hab. symmetry in Hab. now apply app_eq_nil in Hab as [_ ->].
  - assert (forall a b p, s = a ++ b -> match_at f r p b = None -> opensTag b = false)
      as Hs' by (intros a' b' p' ->; apply (Hs (x :: a') b' p' eq_refl)).
    destruct skip as [|n]; cbn [replace_from] in Hab.
    2:{ now apply (IH Hs' n (Some x) a b). }
    destruct (match_at f r p (x :: s)) as [st|] eqn:Hm.
    + pose proof (Hlen _ _ _ Hm) as Hl.
      destruct (length (x :: s) - length (rest st)) as [|n] eqn:Hc; [lia|].
      cbn [js list_ascii_of_string app] in Hab.
      destruct a as [|y a]; [cbn [app] in Hab; now subst b|].
      injection Hab as _ Hab. now apply (IH Hs' n (Some x) a b).
    + destruct a as [|y a].
      * cbn [app] in Hab. subst b. cbn [opensTag].
        pose proof (Hs [] (x :: s) p eq_refl Hm) as Hx. cbn [opensTag] in Hx.
        destruct (Ascii.eqb x "<"); [|reflexivity]. cbn [andb] in *.
        destruct (tag_end 1 s) eqn:Ht; [discriminate|].
        now rewrite (Hkeep s (Some x) Ht).
      * injection Hab as _ Hab. now apply (IH Hs' 0 (Some x) a b).
Qed.

Lemma greedy_at_least_one (ok : ascii -> bool) k p cs r res :
  greedy ok k 1 p cs r = Some res -> exists x tl, r = x :: tl /\ ok x = true.
Proof.
  destruct r as [|x tl]; cbn [greedy Nat.eqb]; [discriminate|].
  destruct (ok x) eqn:Hx; [eauto | discriminate].
Qed.

Lemma greedy_shorter (ok : ascii -> bool) k :
  (forall s res, k s = Some res -> length (rest res) <= length (rest s)) ->
  forall r lo p cs res,
    greedy ok k lo p cs r = Some res -> length (rest res) <= length r.
Proof.
  intros Hk. induction r as [|x tl IH]; intros lo p cs res; cbn [greedy].
  - destruct (lo =? 0); [|discriminate]. intros H. now apply Hk in H.
  - assert ((if lo =? 0 then k {| prev := p; rest := x :: tl; caps := cs |} else None)
            = Some res -> length (rest res) <= length (x :: tl)) as Hhere.
    { destruct (lo =? 0); [|discriminate]. intros H. now apply Hk in H. }
    destruct (ok x); [|exact Hhere].
    destruct (greedy ok k (pred lo) (Some x) cs tl) as [res'|] eqn:Hg; [|exact Hhere].
    intros [= <-]. apply IH in Hg. simpl. lia.
Qed.

(** [/\s+/] at one position: it matches white space only, and not
    nothing. *)
Lemma match_at_spaces (p : option ascii) (s : jsstring) (st : mstate) :
  match_at no_flags (Plus ws) p s = Some st ->
  (exists x tl, s = x :: tl /\ isWhiteSpace x = true) /\ length (rest st) < length s.
Proof.
  unfold match_at, Plus, ws. rewrite mt_class_greedy. cbn [start_state prev rest caps].
  intros H. pose proof H as H'.
  apply greedy_at_least_one in H as (x & tl & -> & Hx). split.
  - exists x, tl. split; [reflexivity|].
    unfold class_has in Hx. cbn [existsb item_has no_flags ignoreCase] in Hx.
    now rewrite !orb_false_r in Hx.
  - cbn [greedy Nat.eqb pred] in H'. rewrite Hx in H'.
    destruct (greedy (class_has no_flags [CSpace]) Some 0 (Some x) [] tl) as [res|] eqn:Hg;
      [|discriminate].
    injection H' as <-. apply greedy_shorter in Hg; [simpl; lia|].
    now intros s0 res0 [= <-].
Qed.

Lemma search_all_None (f : flags) (r : re) :
  forall s p pre,
    (forall a b p', s = a ++ b -> match_at f r p' b = None) ->
    search f r p pre s = None.
Proof.
  induction s as [|c s IH]; intros p pre H; cbn [search].
  - now rewrite (H [] [] p eq_refl).
  - rewrite (H [] (c :: s) p eq_refl). apply IH.
    intros a b p' ->. apply (H (c :: a) b p' eq_refl).
Qed.

Lemma stripHtml_tagFree (html : jsstring) : tagFree (stripHtml html).
Proof.
  unfold stripHtml.
  apply (tagFree_part _ (replaceAll no_flags (Plus ws) (js " ")
                           (replaceAll no_flags re_tag (js " ") html))).
  { destruct (trim_split (replaceAll no_flags (Plus ws) (js " ")
                            (replaceAll no_flags re_tag (js " ") html)))
      as (pre & post & H & _). now exists pre, post. }
  unfold replaceAll at 1. apply replace_from_tagFree.
  - intros p tl. destruct (match_at no_flags (Plus ws) p (">"%char :: tl)) eqn:Hm;
      [|reflexivity].
    apply match_at_spaces in Hm as [(x & tl' & [= <- _] & Hx) _]. discriminate.
  - intros p s st Hm. now apply match_at_spaces in Hm.
  - intros a b p Hab _. revert a b Hab.
    change (tagFree (replaceAll no_flags re_tag (js " ") html)).
    unfold replaceAll. apply replace_from_tagFree.
    + intros p' tl. now rewrite match_at_tag.
    + intros p' s st. rewrite match_at_tag. destruct s as [|x tl]; [discriminate|].
      destruct (Ascii.eqb x "<"); [|discriminate].
      destruct (tag_end 1 tl) as [r|] eqn:Hr; [|discriminate].
      intros [= <-]. apply tag_end_length in Hr. simpl. lia.
    + intros a' b' p' _. rewrite match_at_tag. destruct b' as [|x tl]; [reflexivity|].
      cbn [opensTag]. destruct (Ascii.eqb x "<"); [|reflexivity].
      now destruct (tag_end 1 tl).
Qed.

(** *** and single spaces only *)

Lemma greedy_total (ok : ascii -> bool) :
  forall r p cs, greedy ok Some 0 p cs r <> None.
Proof.
  induction r as [|x tl IH]; intros p cs; cbn [greedy Nat.eqb pred]; [discriminate|].
  destruct (ok x); [|discriminate].
  destruct (greedy ok Some 0 (Some x) cs tl); discriminate.
Qed.

(** Followed by [Some], the quantifier takes all the characters it can. *)
Lemma greedy_maximal (ok : ascii -> bool) :
  forall r lo p cs res,
    greedy ok Some lo p cs r = Some res ->
    (exists w, r = w ++ rest res) /\
    match rest res with
    | y :: _ => ok y = false
    | [] => True
    end.
Proof.
  induction r as [|x tl IH]; intros lo p cs res; cbn [greedy].
  - destruct (lo =? 0); [|discriminate]. intros [= <-]. cbn [rest].
    split; [now exists [] | exact I].
  - destruct (ok x) eqn:Hx.
    + destruct (greedy ok Some (pred lo) (Some x) cs tl) as [res'|] eqn:Hg.
      * intros [= <-]. apply IH in Hg as [(w & Hw) Hrest].
        split; [exists (x :: w); simpl; now f_equal | exact Hrest].
      * destruct lo as [|lo]; [|discriminate].
        now apply greedy_total in Hg.
    + destruct (lo =? 0); [|discriminate]. intros [= <-]. cbn [rest].
      split; [now exists [] | exact Hx].
Qed.

Lemma match_at_spaces_iff (p : option ascii) (s : jsstring) :
  match match_at no_flags (Plus ws) p s with
  | Some st =>
      (exists x w, s = x :: w ++ rest st /\ isWhiteSpace x = true) /\
      match rest st with
      | y :: _ => isWhiteSpace y = false
      | [] => True
      end
  | None =>
      match s with
      | x :: _ => isWhiteSpace x = false
      | [] => True
      end
  end.
Proof.
  assert (forall y, class_has no_flags [CSpace] y = isWhiteSpace y) as Hclass.
  { intros y. unfold class_has. cbn [existsb item_has no_flags ignoreCase].
    now rewrite !orb_false_r. }
  destruct (match_at no_flags (Plus ws) p s) as [st|] eqn:Hm.
  - pose proof (match_at_spaces p s st Hm) as [(x & tl & -> & Hx) _].
    unfold match_at, Plus, ws in Hm. rewrite mt_class_greedy in Hm.
    cbn [start_state prev rest caps greedy Nat.eqb pred] in Hm.
    rewrite Hclass, Hx in Hm.
    destruct (greedy (class_has no_flags [CSpace]) Some 0 (Some x) [] tl) as [res|] eqn:Hg;
      [|discriminate].
    injection Hm as <-. apply greedy_maximal in Hg as [(w & ->) Hrest]. split.
    + now exists x, w.
    + destruct (rest res); [exact I | now rewrite <- Hclass].
  - destruct s as [|x tl]; [exact I|].
    unfold match_at, Plus, ws in Hm. rewrite mt_class_greedy in Hm.
    cbn [start_state prev rest caps greedy Nat.eqb pred] in Hm.
    rewrite Hclass in Hm. destruct (isWhiteSpace x); [|reflexivity].
    destruct (greedy (class_has no_flags [CSpace]) Some 0 (Some x) [] tl) eqn:Hg;
      [discriminate | now apply greedy_total in Hg].
Qed.

Lemma spaces_skip :
  forall n s p,
    exists p', replace_from no_flags (Plus ws) (js " ") n p s
               = replace_from no_flags (Plus ws) (js " ") 0 p' (skipn n s).
Proof.
  induction n as [|n IH]; intros s p; [now exists p|].
  destruct s as [|c s]; cbn [replace_from skipn].
  - exists p. pose proof (match_at_spaces_iff p []) as H.
    destruct (match_at no_flags (Plus ws) p []) as [st|]; [|reflexivity].
    destruct H as [(x & w & Habs & _) _]. discriminate.
  - apply IH.
Qed.

Lemma spaces_singleSpaced :
  forall n s p, length s <= n ->
    singleSpaced (replace_from no_flags (Plus ws) (js " ") 0 p s) = true /\
    match s with
    | x :: _ =>
        isWhiteSpace x = false ->
        exists out, replace_from no_flags (Plus ws) (js " ") 0 p s = x :: out
    | [] => replace_from no_flags (Plus ws) (js " ") 0 p s = []
    end.
Proof.
  induction n as [|n IH]; intros s p Hn.
  - destruct s; [|simpl in Hn; lia]. cbn [replace_from].
    pose proof (match_at_spaces_iff p []) as H.
    destruct (match_at no_flags (Plus ws) p []) as [st|]; [|now split].
    destruct H as [(x & w & Habs & _) _]. discriminate.
  - destruct s as [|x s].
    { cbn [replace_from].
      pose proof (match_at_spaces_iff p []) as H.
      destruct (match_at no_flags (Plus ws) p []) as [st|]; [|now split].
      destruct H as [(y & w & Habs & _) _]. discriminate. }
    cbn [replace_from].
    pose proof (match_at_spaces_iff p (x :: s)) as H.
    destruct (match_at no_flags (Plus ws) p (x :: s)) as [st|].
    + destruct H as [(y & w & Hs & Hy) Hrest]. injection Hs as <- Hs.
      assert (length (x :: s) - length (rest st) = S (length w)) as ->
        by (rewrite Hs at 1; cbn [length]; rewrite length_app; lia).
      destruct (spaces_skip (length w) s (Some x)) as [p' ->].
      assert (skipn (length w) s = rest st) as ->.
      { rewrite Hs, skipn_app, skipn_all, Nat.sub_diag. reflexivity. }
      destruct (IH (rest st) p') as [Hsingle Hhead].
      { simpl in Hn. rewrite Hs, length_app in Hn. lia. }
      split; [|intros Hx; congruence].
      change (js " " ++ replace_from no_flags (Plus ws) (js " ") 0 p' (rest st))
        with (" "%char :: replace_from no_flags (Plus ws) (js " ") 0 p' (rest st)).
      cbn [singleSpaced]. rewrite Hsingle, andb_true_r.
      destruct (rest st) as [|z r'].
      * rewrite Hhead. reflexivity.
      * destruct (Hhead Hrest) as (out & ->). now rewrite Hrest.
    + destruct (IH s (Some x)) as [Hsingle _]; [simpl in Hn; lia|].
      split; [|intros _; eauto].
      cbn [singleSpaced]. now rewrite H, Hsingle.
Qed.

Lemma singleSpaced_part (a t : jsstring) :
  partOf a t -> singleSpaced t = true -> singleSpaced a = true.
Proof.
  intros (pre & post & ->).
  induction pre as [|c pre IH]; cbn [app].
  - induction a as [|c a IHa]; [reflexivity|].
    cbn [app singleSpaced]. intros H. apply andb_true_iff in H as [Hc H].
    rewrite (IHa H), andb_true_r.
    destruct (isWhiteSpace c); [|reflexivity].
    apply andb_true_iff in Hc as [-> Hc]. destruct a; [reflexivity | exact Hc].
  - cbn [singleSpaced]. intros H. apply andb_true_iff in H as [_ H]. now apply IH.
Qed.

(** X20.  [stripHtml] leaves no tag and normalises the white space: in
    its result the tag expression finds nothing, there is no white space
    at either end, and the only white space is the single space between
    two other characters. *)
Theorem stripHtml_leaves_no_tag (html : jsstring) :
  test no_flags re_tag (stripHtml html) = false /\
  trimmed (stripHtml html) /\
  singleSpaced (stripHtml html) = true.
Proof.
  split; [|split].
  - unfold test, exec. rewrite search_all_None; [reflexivity|].
    intros a b p' Hab. rewrite match_at_tag.
    pose proof (stripHtml_tagFree html a b Hab) as H.
    destruct b as [|x tl]; [reflexivity|]. cbn [opensTag] in H.
    destruct (Ascii.eqb x "<"); [|reflexivity].
    now destruct (tag_end 1 tl).
  - apply trim_trimmed.
  - unfold stripHtml.
    apply (singleSpaced_part _ (replaceAll no_flags (Plus ws) (js " ")
                                  (replaceAll no_flags re_tag (js " ") html))).
    + destruct (trim_split (replaceAll no_flags (Plus ws) (js " ")
                              (replaceAll no_flags re_tag (js " ") html)))
        as (pre & post & H & _). now exists pre, post.
    + unfold replaceAll at 1. eapply spaces_singleSpaced. apply le_n.
Qed.

(* ------------------------------------------------------------------ *)
(** ** The addresses that [parseEmailAddress] recognises *)

(** When the continuation fails everywhere inside [w2], the quantifier
    that has taken [w2] gives all of it back. *)
Lemma greedy_fail (ok : ascii -> bool) k cs (r : jsstring) :
  stops ok r ->
  forall w2 lo p,
    forallb ok w2 = true ->
    (forall u v p', w2 = u ++ v -> u <> [] ->
                    k {| prev := p'; rest := v ++ r; caps := cs |} = None) ->
    greedy ok k lo p cs (w2 ++ r)
    = if lo =? 0 then k {| prev := p; rest := w2 ++ r; caps := cs |} else None.
Proof.
  intros Hr. induction w2 as [|x w2 IH]; intros lo p Hok Hfail.
  - cbn [app]. destruct r as [|y r']; cbn [greedy]; [reflexivity|].
    cbn [stops] in Hr. now rewrite Hr.
  - cbn [app greedy]. cbn [forallb] in Hok. apply andb_true_iff in Hok as [-> Hok].
    rewrite IH; [|exact Hok|].
    + rewrite (Hfail [x] w2 (Some x) eq_refl) by discriminate.
      now destruct (pred lo =? 0).
    + intros u v p' -> Hu. apply (Hfail (x :: u) v p' eq_refl). discriminate.
Qed.

(** The quantifier gives back as far as the first place, from the right,
    where the continuation succeeds. *)
Lemma greedy_success (ok : ascii -> bool) k cs (w2 r : jsstring) (p0 : option ascii) :
  ignores_prev k -> stops ok r -> forallb ok w2 = true ->
  (forall u v p', w2 = u ++ v -> u <> [] ->
                  k {| prev := p'; rest := v ++ r; caps := cs |} = None) ->
  k {| prev := p0; rest := w2 ++ r; caps := cs |} <> None ->
  forall w1 lo p,
    forallb ok w1 = true -> lo <= length w1 ->
    outcome (greedy ok k lo p cs (w1 ++ w2 ++ r))
    = outcome (k {| prev := p0; rest := w2 ++ r; caps := cs |}).
Proof.
  intros Hk Hr Hok2 Hfail Hsome. induction w1 as [|x w1 IH]; intros lo p Hok1 Hlo.
  - cbn [app]. rewrite (greedy_fail ok k cs r Hr w2 lo p Hok2 Hfail).
    replace lo with 0 by (simpl in Hlo; lia). apply Hk.
  - cbn [app greedy]. cbn [forallb] in Hok1. apply andb_true_iff in Hok1 as [-> Hok1].
    assert (pred lo <= length w1) as Hle by (simpl in Hlo; lia).
    pose proof (IH (pred lo) (Some x) Hok1 Hle) as Hin.
    destruct (greedy ok k (pred lo) (Some x) cs (w1 ++ w2 ++ r)) as [res|];
      [exact Hin|].
    exfalso.
    destruct (k {| prev := p0; rest := w2 ++ r; caps := cs |});
      [discriminate | now apply Hsome].
Qed.

Lemma address_classes_iff (x : ascii) :
  class_has no_flags localClass x = isLocalChar x /\
  class_has no_flags domainClass x = isDomainChar x /\
  class_has no_flags letterClass x = isLetter x /\
  (isLetter x = true -> isDomainChar x = true /\ Ascii.eqb "." x = false).
Proof.
  assert (forallb (fun x =>
            Bool.eqb (class_has no_flags localClass x) (isLocalChar x) &&
            Bool.eqb (class_has no_flags domainClass x) (isDomainChar x) &&
            Bool.eqb (class_has no_flags letterClass x) (isLetter x) &&
            implb (isLetter x) (isDomainChar x && negb (Ascii.eqb "." x)))
          all_ascii = true) as Hall by (vm_compute; reflexivity).
  apply by_cases with (x := x) in Hall.
  apply andb_true_iff in Hall as [Hall H4].
  apply andb_true_iff in Hall as [Hall H3].
  apply andb_true_iff in Hall as [H1 H2].
  apply Bool.eqb_prop in H1, H2, H3.
  split; [exact H1|]. split; [exact H2|]. split; [exact H3|].
  intros Hl. rewrite Hl in H4. apply andb_true_iff in H4 as [Ha Hb].
  split; [exact Ha | now apply negb_true_iff in Hb].
Qed.

Lemma forallb_ext_eq {A : Type} (P Q : A -> bool) (l : list A) :
  (forall x, P x = Q x) -> forallb P l = forallb Q l.
Proof. intros H. induction l as [|x l IH]; simpl; [reflexivity | now rewrite H, IH]. Qed.

Lemma mt_seq_class (f : flags) (items : list class_item) (lo : nat) (R : re) k s :
  mt f (Seq (Rep lo None (OneOf items)) R) k s
  = greedy (class_has f items) (mt f R k) lo (prev s) (caps s) (rest s).
Proof.
  change (mt f (Seq (Rep lo None (OneOf items)) R) k s)
    with (mt f (Rep lo None (OneOf items)) (mt f R k) s).
  apply mt_class_greedy.
Qed.

Lemma mt_seq_chr (f : flags) (c : ascii) (R : re) k s :
  mt f (Seq (Chr c) R) k s = step_char s (chr_match f c) (mt f R k).
Proof. reflexivity. Qed.

Lemma mt_seq_chr_ignores_prev (f : flags) (c : ascii) (R : re) k :
  ignores_prev (mt f (Seq (Chr c) R) k).
Proof. intros p1 p2 r cs. now rewrite !mt_seq_chr. Qed.

Lemma outcome_not_None (o o' : option mstate) :
  outcome o = outcome o' -> o' <> None -> o <> None.
Proof. destruct o, o'; simpl; congruence. Qed.

(** The address expression on an address, followed by anything that
    accepts the end of the text: it takes all of it. *)
Lemma address_taken_whole (k : mstate -> option mstate)
    (local domain tld : jsstring) (cs : list (nat * jsstring)) (p0 : option ascii) :
  ignores_prev k ->
  local <> [] -> forallb isLocalChar local = true ->
  domain <> [] -> forallb isDomainChar domain = true ->
  2 <= length tld -> forallb isLetter tld = true ->
  k {| prev := p0; rest := []; caps := cs |} <> None ->
  forall p,
    outcome (mt no_flags re_address k
               {| prev := p; rest := local ++ "@"%char :: domain ++ "."%char :: tld;
                  caps := cs |})
    = outcome (k {| prev := p0; rest := []; caps := cs |}).
Proof.
  intros Hk Hl Hlocal Hd Hdomain Ht Htld Hend.
  assert (forallb (class_has no_flags localClass) local = true) as Hl'
    by (rewrite (forallb_ext_eq _ isLocalChar); [exact Hlocal | apply address_classes_iff]).
  assert (forallb (class_has no_flags domainClass) domain = true) as Hd'
    by (rewrite (forallb_ext_eq _ isDomainChar); [exact Hdomain | apply address_classes_iff]).
  assert (forallb (class_has no_flags letterClass) tld = true) as Ht'
    by (rewrite (forallb_ext_eq _ isLetter); [exact Htld | apply address_classes_iff]).
  assert (forallb (class_has no_flags domainClass) ("."%char :: tld) = true) as Hdt.
  { cbn [forallb]. rewrite (forallb_ext_eq _ isDomainChar) by apply address_classes_iff.
    apply andb_true_iff. split; [reflexivity|].
    revert Htld. apply forallb_impl. intros x. apply address_classes_iff. }
  (* the last label *)
  assert (forall p,
            outcome (mt no_flags (cat [AtLeast 2 (OneOf letterClass)]) k
                       {| prev := p; rest := tld; caps := cs |})
            = outcome (k {| prev := p0; rest := []; caps := cs |})) as Hlast.
  { intros p. unfold AtLeast, cat. cbn [fold_right]. rewrite mt_seq_class.
    cbn [prev rest caps].
    pose proof (greedy_success (class_has no_flags letterClass) (mt no_flags Empty k)
                  cs [] [] p0) as H.
    cbn [app] in H. specialize (H Hk I eq_refl).
    specialize (H ltac:(intros [|? ?] v p' Hv Hu; [congruence | discriminate])).
    specialize (H Hend tld 2 p Ht' Ht). now rewrite app_nil_r in H. }
  (* the domain *)
  assert (forall p,
            outcome (mt no_flags (cat [Plus (OneOf domainClass); Chr "."%char;
                                       AtLeast 2 (OneOf letterClass)]) k
                       {| prev := p; rest := domain ++ "."%char :: tld; caps := cs |})
            = outcome (k {| prev := p0; rest := []; caps := cs |})) as Hdom.
  { intros p. unfold Plus at 1. unfold cat at 1. cbn [fold_right].
    fold (cat [AtLeast 2 (OneOf letterClass)]).
    rewrite mt_seq_class. cbn [prev rest caps].
    pose proof (greedy_success (class_has no_flags domainClass)
                  (mt no_flags (Seq (Chr ".") (cat [AtLeast 2 (OneOf letterClass)])) k)
                  cs ("."%char :: tld) [] p0) as H.
    specialize (H (mt_seq_chr_ignores_prev _ _ _ _) I Hdt).
    rewrite !app_nil_r in H.
    assert (mt no_flags (Seq (Chr ".") (cat [AtLeast 2 (OneOf letterClass)])) k
              {| prev := p0; rest := "."%char :: tld; caps := cs |}
            = mt no_flags (cat [AtLeast 2 (OneOf letterClass)]) k
                {| prev := Some "."%char; rest := tld; caps := cs |}) as Hstep
      by reflexivity.
    rewrite Hstep, Hlast in H.
    assert (1 <= length domain) as Hd1 by (destruct domain; simpl; [congruence | lia]).
    apply H; auto.
    - intros u v p' Huv Hu. rewrite app_nil_r, mt_seq_chr. unfold step_char. cbn [rest].
      destruct u as [|u0 u]; [congruence|]. injection Huv as _ Huv.
      destruct v as [|y v]; [reflexivity|].
      assert (isLetter y = true) as Hy.
      { rewrite forallb_forall in Htld. apply Htld. rewrite Huv.
        apply in_or_app. right. now left. }
      change (chr_match no_flags "." y) with (Ascii.eqb "." y).
      now rewrite (proj2 (proj2 (proj2 (proj2 (address_classes_iff y))) Hy)).
    - intros Habs.
      apply (outcome_not_None _ _ (Hlast (Some "."%char)) Hend Habs). }
  (* the local part *)
  intros p. unfold re_address.
  change [CRange "a" "z"; CRange "A" "Z"; CRange "0" "9";
          CChar "."; CChar "_"; CChar "%"; CChar "+"; CChar "-"]%char with localClass.
  change [CRange "a" "z"; CRange "A" "Z"; CRange "0" "9"; CChar "."; CChar "-"]%char
    with domainClass.
  change [CRange "a" "z"; CRange "A" "Z"]%char with letterClass.
  unfold Plus at 1. unfold cat at 1. cbn [fold_right].
  fold (cat [Plus (OneOf domainClass); Chr "."%char; AtLeast 2 (OneOf letterClass)]).
  rewrite mt_seq_class. cbn [prev rest caps].
  pose proof (greedy_success (class_has no_flags localClass)
                (mt no_flags (Seq (Chr "@")
                   (cat [Plus (OneOf domainClass); Chr "."%char;
                         AtLeast 2 (OneOf letterClass)])) k)
                cs [] ("@"%char :: domain ++ "."%char :: tld) p0) as H.
  cbn [app] in H.
  specialize (H (mt_seq_chr_ignores_prev _ _ _ _) eq_refl eq_refl).
  specialize (H ltac:(intros [|? ?] v p' Hv Hu; [congruence | discriminate])).
  assert (mt no_flags (Seq (Chr "@")
             (cat [Plus (OneOf domainClass); Chr "."%char;
                   AtLeast 2 (OneOf letterClass)])) k
            {| prev := p0; rest := "@"%char :: domain ++ "."%char :: tld; caps := cs |}
          = mt no_flags (cat [Plus (OneOf domainClass); Chr "."%char;
                              AtLeast 2 (OneOf letterClass)]) k
              {| prev := Some "@"%char; rest := domain ++ "."%char :: tld; caps := cs |})
    as Hstep by reflexivity.
  rewrite Hstep, Hdom in H. apply H.
  - intros Habs. apply (outcome_not_None _ _ (Hdom (Some "@"%char)) Hend Habs).
  - exact Hl'.
  - destruct local; simpl; [congruence | lia].
Qed.

(** X21.  [parseEmailAddress] returns a string unchanged exactly when the
    string is a well-formed address, local@domain.tld: such an address is
    recognised whole, and nothing else is returned as it is.  So parsing
    what was parsed gives the same address. *)
Theorem parseEmailAddress_fixed_points (a : jsstring) :
  wellFormedAddress a <-> parseEmailAddress (Some a) = Some a.
Proof.
  split.
  2:{ intros H. now apply parseEmailAddress_sound in H as (s & _ & _ & Hwf). }
  intros (local & domain & tld & Ha & Hl & Hlocal & Hd & Hdomain & Ht & Htld).
  assert (exists c s, a = c :: s) as (c & s & Hcs)
    by (rewrite Ha; destruct local; [congruence | simpl; eauto]).
  unfold parseEmailAddress. rewrite Hcs at 1 2. cbn [truthy_opt truthy negb or_str].
  rewrite <- Hcs. unfold exec, re_bare_address.
  pose (s0 := start_state None a).
  pose (K0 := fun s' : mstate =>
                Some {| prev := prev s'; rest := rest s';
                        caps := set_cap 1 (consumed s0 s') (caps s') |}).
  assert (outcome (match_at no_flags (Grp 1 re_address) None a)
          = Some ([], [(1, a)])) as Hm.
  { change (match_at no_flags (Grp 1 re_address) None a)
      with (mt no_flags re_address K0 s0).
    unfold s0, start_state. rewrite Ha at 1.
    rewrite (address_taken_whole K0 local domain tld [] None); auto.
    - unfold K0, outcome, consumed, s0. cbn [option_map rest caps start_state set_cap
                                             clear_caps filter length].
      now rewrite Nat.sub_0_r, firstn_all.
    - intros p1 p2 r cs. reflexivity.
    - discriminate. }
  rewrite Hcs. cbn [search]. rewrite <- Hcs.
  destruct (match_at no_flags (Grp 1 re_address) None a) as [st|]; [|discriminate].
  cbn [outcome option_map] in Hm. injection Hm as Hrest Hcaps.
  unfold capture. cbn [groups]. rewrite Hcaps. reflexivity.
Qed.

(* ------------------------------------------------------------------ *)
(** ** The first From: header decides *)

Lemma searchFromHeader_first (e : Env) (l v : jsstring) :
  fromHeaderValue l = Some v ->
  forall pre first c post,
    (forall x, In x pre -> fromHeaderValue x = None) ->
    searchFromHeader e first (firstn c (pre ++ l :: post)) = None \/
    searchFromHeader e first (firstn c (pre ++ l :: post))
    = Some (validateAndCleanFromLine e v).
Proof.
  unfold fromHeaderValue. intros Hl.
  induction pre as [|x pre IH]; intros first c post Hpre;
    (destruct c as [|c]; [now left|]); cbn [app firstn searchFromHeader].
  - destruct (exec flag_i re_from_header l); [|discriminate].
    injection Hl as <-. now right.
  - pose proof (Hpre x (or_introl eq_refl)) as Hx.
    destruct (exec flag_i re_from_header x); [discriminate|].
    destruct (eqb_str (trim x) [] && negb first)%bool; [now left|].
    apply IH. intros y Hy. apply Hpre. now right.
Qed.

Lemma scanForFrom_first (e : Env) (l v : jsstring) :
  fromHeaderValue l = Some v -> isForwardBoundary l = true ->
  forall pre n post,
    (forall x, In x pre -> fromHeaderValue x = None) ->
    length pre < n ->
    scanForFrom e n (pre ++ l :: post) = validateAndCleanFromLine e v.
Proof.
  intros Hl Hb. induction pre as [|x pre IH]; intros n post Hpre Hn;
    (destruct n as [|n]; [simpl in Hn; lia|]).
  - cbn [app scanForFrom]. rewrite Hb.
    change (firstn 20 (l :: post)) with (l :: firstn 19 post).
    cbn [searchFromHeader]. unfold fromHeaderValue in Hl.
    destruct (exec flag_i re_from_header l); [|discriminate]. now injection Hl as <-.
  - assert (scanForFrom e n (pre ++ l :: post) = validateAndCleanFromLine e v) as Hrec.
    { apply IH; [|simpl in Hn; lia]. intros y Hy. apply Hpre. now right. }
    change ((x :: pre) ++ l :: post) with (x :: pre ++ l :: post).
    cbn [scanForFrom]. destruct (isForwardBoundary x); [|exact Hrec].
    change (x :: pre ++ l :: post) with ((x :: pre) ++ l :: post).
    destruct (searchFromHeader_first e l v Hl (x :: pre) true 20 post Hpre) as [-> | ->];
      [exact Hrec | reflexivity].
Qed.

(** X22.  The first From: header decides.  When, among the first hundred
    lines of the text without their quote marks, the first line that is a
    From: header is itself a forward boundary, the result of
    [extractOriginalFromLine] is the validation of the value of that
    line: no later line is looked at, and the result is null when that
    value is refused. *)
Theorem extractOriginalFromLine_first_header
    (e : Env) (text : jsstring) (pre : list jsstring) (l : jsstring)
    (post : list jsstring) (v : jsstring) :
  unquotedLines text = pre ++ l :: post ->
  length pre < 100 ->
  forallb (fun x => match fromHeaderValue x with Some _ => false | None => true end) pre
  = true ->
  fromHeaderValue l = Some v ->
  isForwardBoundary l = true ->
  extractOriginalFromLine e text = validateAndCleanFromLine e v.
Proof.
  intros Hlines Hlen Hpre Hl Hb. unfold extractOriginalFromLine.
  fold (unquotedLines text). rewrite Hlines.
  apply scanForFrom_first; auto.
  intros x Hx. rewrite forallb_forall in Hpre. specialize (Hpre x Hx).
  now destruct (fromHeaderValue x).
Qed.

(** X22, witness: a forward with two From: lines; the first one is that
    of a honeytrap address, it is refused, and the second one is not
    looked at. *)
Lemma extractOriginalFromLine_first_header_witness :
  extractOriginalFromLine Examples.honeytraps Cases.two_from_lines
  = validateAndCleanFromLine Examples.honeytraps (js "Mary <mary@decoy.org>") /\
  validateAndCleanFromLine Examples.honeytraps (js "Mary <mary@decoy.org>") = None.
Proof.
  split; [|vm_compute; reflexivity].
  apply (extractOriginalFromLine_first_header
           Examples.honeytraps Cases.two_from_lines
           [js "---------- Forwarded message ---------"]
           (js "From: Mary <mary@decoy.org>")
           [js "From: Jane Doe <jane@example.org>"; js "Chip in now"]
           (js "Mary <mary@decoy.org>")).
  - vm_compute. reflexivity.
  - apply Nat.ltb_lt. reflexivity.
  - vm_compute. reflexivity.
  - vm_compute. reflexivity.
  - vm_compute. reflexivity.
Defined.
